(** * The N-API crypto binding of aws-crt-nodejs (source/crypto.c)

    A shallow embedding of the seven callbacks of [source/crypto.c] and of
    their two finalizers.  The callbacks are written in a small state monad
    with early return; the state is the native heap, the table of N-API
    externals, the pending JavaScript exception and the thread's last AWS
    error.  The hash and HMAC algorithms stay abstract behind the
    [cal_provider] interface. *)

From Stdlib Require Import ZArith Lia String.
From Stdlib.Strings Require Import Byte.
From stdpp Require Import base tactics option list.

(** ** Values of the host runtime *)

(** Addresses of native blocks. *)
Abbreviation addr := nat (only parsing).

Inductive aws_error :=
| AWS_ERROR_SUCCESS
| AWS_ERROR_OOM
| AWS_ERROR_INVALID_ARGUMENT
| AWS_ERROR_SHORT_BUFFER
| AWS_ERROR_INVALID_STATE.

(** What [napi_throw_error], [napi_throw_type_error] and
    [aws_napi_throw_last_error] leave pending. *)
Inductive js_error :=
| Error (msg : string)
| TypeError (msg : string)
| AwsError (code : aws_error).

(** JavaScript values as the binding sees them.  A string is carried by its
    UTF-8 bytes, a number by its integer value; an [ArrayBuffer] and a
    [DataView] name the native block that backs them. *)
Inductive napi_value :=
| js_undefined
| js_null
| js_number (n : Z)
| js_string (utf8 : list byte)
| js_array (elems : list byte)
| js_object
| js_external (id : nat)
| js_arraybuffer (data : addr)
| js_dataview (arraybuffer : addr) (byte_offset byte_length : Z).

Inductive napi_status :=
| napi_ok
| napi_invalid_arg
| napi_number_expected
| napi_pending_exception
| napi_generic_failure.

Definition AWS_OP_SUCCESS : Z := 0.
Definition AWS_OP_ERR : Z := -1.

(** [if (aws_xxx(...))] : a non-zero return is true in C. *)
Definition aws_failed (rc : Z) : bool := negb (rc =? 0)%Z.

(** ** The algorithm capability interface (aws-c-cal's vtables) *)

Inductive hash_alg := MD5 | SHA256.

Definition AWS_MD5_LEN : Z := 16.
Definition AWS_SHA256_LEN : Z := 32.
Definition AWS_SHA256_HMAC_LEN : Z := 32.

Definition alg_digest_size (a : hash_alg) : Z :=
  match a with MD5 => AWS_MD5_LEN | SHA256 => AWS_SHA256_LEN end.

(** The running computation of an algorithm: its start state, how it takes
    more input, and the digest it would emit. *)
Class cal_provider := {
  hash_state : Type;
  hash_init : hash_alg → hash_state;
  hash_absorb : hash_alg → hash_state → list byte → hash_state;
  hash_emit : hash_alg → hash_state → list byte;
  hmac_state : Type;
  hmac_init : list byte → hmac_state;
  hmac_absorb : hmac_state → list byte → hmac_state;
  hmac_emit : hmac_state → list byte
}.

(** What is assumed of the algorithms: they are streaming and their digest
    has the natural size. *)
Class cal_provider_laws (P : cal_provider) := {
  hash_absorb_app a s x y :
    hash_absorb a (hash_absorb a s x) y = hash_absorb a s (x ++ y);
  hash_emit_length a s :
    Z.of_nat (length (hash_emit a s)) = alg_digest_size a;
  hmac_absorb_app s x y :
    hmac_absorb (hmac_absorb s x) y = hmac_absorb s (x ++ y);
  hmac_emit_length s :
    Z.of_nat (length (hmac_emit s)) = AWS_SHA256_HMAC_LEN
}.

(** A stand-in provider to run the model on: the state is the input seen so
    far (after the key, for HMAC), the digest its first bytes, padded with
    0xff. *)
Definition pad_to (n : Z) (l : list byte) : list byte :=
  take (Z.to_nat n) (l ++ replicate (Z.to_nat n) xff).

Definition prefix_provider : cal_provider := {|
  hash_state := list byte;
  hash_init := λ _, [];
  hash_absorb := λ _ s x, s ++ x;
  hash_emit := λ a s, pad_to (alg_digest_size a) s;
  hmac_state := list byte;
  hmac_init := λ key, key;
  hmac_absorb := λ s x, s ++ x;
  hmac_emit := λ s, pad_to AWS_SHA256_HMAC_LEN s
|}.

Section Binding.
Context {P : cal_provider}.

(** ** Native memory *)

(** [struct aws_hash] and [struct aws_hmac] of aws-c-cal: the vtable, the
    natural digest size, the [good] flag (cleared once the digest has been
    taken) and the provider's state. *)
Record aws_hash := {
  aws_hash_vtable : hash_alg;
  aws_hash_digest_size : Z;
  aws_hash_good : bool;
  aws_hash_impl : hash_state
}.

Record aws_hmac := {
  aws_hmac_digest_size : Z;
  aws_hmac_good : bool;
  aws_hmac_impl : hmac_state
}.

Inductive object :=
| obj_hash (h : aws_hash)
| obj_hmac (h : aws_hmac)
| obj_bytes (b : list byte).

(** A block keeps its contents when it is released: freeing memory does not
    overwrite it. *)
Record block := { contents : object; released : bool }.

(** [struct aws_byte_buf] and [struct aws_byte_cursor] of aws-c-common. *)
Record aws_byte_buf := {
  len : Z;
  buffer : addr;
  capacity : Z;
  allocator : bool
}.

Record aws_byte_cursor := { cur_len : Z; cur_ptr : addr }.

(** ** The host *)

(** The finalize callbacks an external can carry: the two of this file, or
    that of another native module for an external of its own. *)
Inductive napi_finalize := cb_hash_finalize | cb_hmac_finalize | cb_foreign.

Record external := {
  ext_data : addr;
  ext_finalize_cb : napi_finalize;
  ext_collected : bool
}.

(** Which of the calls that can fail for lack of resources fail at their
    next use. *)
Record host_faults := {
  get_cb_info_fails : bool;
  buf_init_fails : bool;
  alg_new_fails : bool;
  create_external_fails : bool;
  create_arraybuffer_fails : bool;
  create_dataview_fails : bool
}.

Definition no_faults : host_faults :=
  {| get_cb_info_fails := false; buf_init_fails := false;
     alg_new_fails := false; create_external_fails := false;
     create_arraybuffer_fails := false; create_dataview_fails := false |}.

(** The heap is indexed by address and only grows, so an allocation always
    returns an address never used before.  [destroyed] logs every run of
    [aws_hash_destroy] and [aws_hmac_destroy], newest first. *)
Record world := {
  heap : list block;
  externals : list external;
  pending : option js_error;
  last_error : aws_error;
  faults : host_faults;
  destroyed : list addr
}.

Definition initial_world : world :=
  {| heap := []; externals := []; pending := None;
     last_error := AWS_ERROR_SUCCESS; faults := no_faults; destroyed := [] |}.

Definition set_heap (h : list block) (w : world) : world :=
  {| heap := h; externals := externals w; pending := pending w;
     last_error := last_error w; faults := faults w;
     destroyed := destroyed w |}.

Definition set_externals (e : list external) (w : world) : world :=
  {| heap := heap w; externals := e; pending := pending w;
     last_error := last_error w; faults := faults w;
     destroyed := destroyed w |}.

Definition set_pending (e : option js_error) (w : world) : world :=
  {| heap := heap w; externals := externals w; pending := e;
     last_error := last_error w; faults := faults w;
     destroyed := destroyed w |}.

Definition set_last_error (e : aws_error) (w : world) : world :=
  {| heap := heap w; externals := externals w; pending := pending w;
     last_error := e; faults := faults w; destroyed := destroyed w |}.

Definition set_faults (f : host_faults) (w : world) : world :=
  {| heap := heap w; externals := externals w; pending := pending w;
     last_error := last_error w; faults := f; destroyed := destroyed w |}.

Definition log_destroy (p : addr) (w : world) : world :=
  {| heap := heap w; externals := externals w; pending := pending w;
     last_error := last_error w; faults := faults w;
     destroyed := p :: destroyed w |}.

(** ** The monad of a native callback *)

(** A statement falls through with a value, leaves the function by
    [return v] ([None] is [NULL]), or has no defined behaviour in C: a
    pointer that designates no live object or an object that cannot be read
    as what the access takes it for, a copy past the end of a buffer, a
    block that is freed twice. *)
Inductive outcome (A : Type) :=
| Next (a : A) (w : world)
| Return (v : option napi_value) (w : world)
| Fault.
Arguments Next {A} a w.
Arguments Return {A} v w.
Arguments Fault {A}.

Definition napi (A : Type) := world → outcome A.

#[global] Instance napi_ret : MRet napi := λ A a w, Next a w.

#[global] Instance napi_bind : MBind napi := λ A B k m w,
  match m w with
  | Next a w' => k a w'
  | Return v w' => Return v w'
  | Fault => Fault
  end.

(** [return v;] in the C source (the monad's unit is stdpp's [mret]). *)
Definition return_ {A} (v : option napi_value) : napi A := λ w, Return v w.
Definition fault {A} : napi A := λ _, Fault.
Definition get {A} (f : world → A) : napi A := λ w, Next (f w) w.
Definition modify (f : world → world) : napi unit := λ w, Next tt (f w).

(** [if (c) { body }] *)
Definition when (c : bool) (body : napi unit) : napi unit :=
  if c then body else mret tt.

Definition NULL : option napi_value := None.

(** A call that reports through its status and writes its result through an
    out-parameter: the result, or the status that is not [napi_ok]. *)
Inductive napi_result (T : Type) :=
| napi_done (v : T)
| napi_error (s : napi_status).
Arguments napi_done {T} v.
Arguments napi_error {T} s.

(** [if (call(..., &x)) { handler }] where the handler leaves the function:
    past it, [x] is what the call wrote. *)
Definition on_failure {T} (call : napi (napi_result T)) (handler : napi T)
    : napi T :=
  r ← call;
  match r with
  | napi_done v => mret v
  | napi_error _ => handler
  end.

Definition size_of (l : list byte) : Z := Z.of_nat (length l).

(** ** Memory *)

Definition alloc (o : object) : napi addr := λ w,
  Next (length (heap w))
       (set_heap (heap w ++ [{| contents := o; released := false |}]) w).

(** Reading and writing through a pointer needs a live block. *)
Definition load (p : addr) : napi object := λ w,
  match heap w !! p with
  | Some b => if released b then Fault else Next (contents b) w
  | None => Fault
  end.

Definition store (p : addr) (o : object) : napi unit :=
  load p;;
  modify (λ w, set_heap (<[p := {| contents := o; released := false |}]> (heap w)) w).

Definition load_bytes (p : addr) : napi (list byte) :=
  o ← load p;
  match o with obj_bytes b => mret b | _ => fault end.

(** ** aws-c-common (external library, after its documented contract) *)

Definition aws_raise_error (e : aws_error) : napi Z := λ w,
  Next AWS_OP_ERR (set_last_error e w).

(** Releasing keeps the bytes where they are.  Only a live block can be
    released: freeing a block twice, or an address that was never
    allocated, has no defined behaviour. *)
Definition aws_mem_release (p : addr) : napi unit := λ w,
  match heap w !! p with
  | Some b =>
      if released b then Fault
      else Next tt (set_heap (<[p := {| contents := contents b;
                                        released := true |}]> (heap w)) w)
  | None => Fault
  end.

Definition aws_byte_cursor_from_buf (buf : aws_byte_buf) : aws_byte_cursor :=
  {| cur_len := len buf; cur_ptr := buffer buf |}.

Definition aws_byte_buf_from_empty_array (data : addr) (cap : Z) : aws_byte_buf :=
  {| len := 0; buffer := data; capacity := cap; allocator := false |}.

(** The bytes a cursor designates. *)
Definition read_cursor (c : aws_byte_cursor) : napi (list byte) :=
  b ← load_bytes (cur_ptr c);
  if (cur_len c <=? size_of b)%Z then mret (take (Z.to_nat (cur_len c)) b)
  else fault.

(** [memcpy(buf->buffer + buf->len, data, n)] *)
Definition write_bytes (buf : aws_byte_buf) (data : list byte) : napi unit :=
  b ← load_bytes (buffer buf);
  if (len buf + size_of data <=? size_of b)%Z then
    store (buffer buf)
      (obj_bytes (take (Z.to_nat (len buf)) b ++ data
                  ++ drop (Z.to_nat (len buf) + length data) b))
  else fault.

(** Frees the memory when the buffer owns it; nothing is overwritten. *)
Definition aws_byte_buf_clean_up (buf : aws_byte_buf) : napi unit :=
  when (allocator buf) (aws_mem_release (buffer buf)).

(** Overwrites the whole capacity with zeros. *)
Definition aws_byte_buf_secure_zero (buf : aws_byte_buf) : napi unit :=
  b ← load_bytes (buffer buf);
  store (buffer buf)
    (obj_bytes (replicate (Z.to_nat (capacity buf)) x00
                ++ drop (Z.to_nat (capacity buf)) b)).

Definition aws_byte_buf_clean_up_secure (buf : aws_byte_buf) : napi unit :=
  aws_byte_buf_secure_zero buf;;
  aws_byte_buf_clean_up buf.

(** ** aws-c-cal (external library, after its documented contract) *)

Definition new_hash (a : hash_alg) : napi (option addr) :=
  f ← get faults;
  if alg_new_fails f then aws_raise_error AWS_ERROR_OOM;; mret None
  else
    p ← alloc (obj_hash {| aws_hash_vtable := a;
                           aws_hash_digest_size := alg_digest_size a;
                           aws_hash_good := true;
                           aws_hash_impl := hash_init a |});
    mret (Some p).

Definition aws_md5_new : napi (option addr) := new_hash MD5.
Definition aws_sha256_new : napi (option addr) := new_hash SHA256.

(** The key is copied into the context; the caller keeps its buffer. *)
Definition aws_sha256_hmac_new (secret : aws_byte_cursor) : napi (option addr) :=
  f ← get faults;
  if alg_new_fails f then aws_raise_error AWS_ERROR_OOM;; mret None
  else
    key ← read_cursor secret;
    p ← alloc (obj_hmac {| aws_hmac_digest_size := AWS_SHA256_HMAC_LEN;
                           aws_hmac_good := true;
                           aws_hmac_impl := hmac_init key |});
    mret (Some p).

(** [struct aws_hash] and [struct aws_hmac] have the same members in the
    same order (allocator, vtable, digest size, [good], impl), and the entry
    points of the library do their work through the vtable of the object
    they are handed.  A pointer to a context of one engine that is used as a
    pointer to the other therefore reads the same members and reaches the
    functions of the engine the object belongs to. *)

(** [ctx->digest_size] *)
Definition load_digest_size (ctx : addr) : napi Z :=
  o ← load ctx;
  match o with
  | obj_hash h => mret (aws_hash_digest_size h)
  | obj_hmac h => mret (aws_hmac_digest_size h)
  | obj_bytes _ => fault
  end.

(** The [update] of the two vtables: refuses a context that is not good,
    else absorbs the data. *)
Definition hash_vtable_update (hash : addr) (h : aws_hash)
    (to_hash : aws_byte_cursor) : napi Z :=
  if negb (aws_hash_good h) then aws_raise_error AWS_ERROR_INVALID_STATE
  else
    data ← read_cursor to_hash;
    store hash (obj_hash {| aws_hash_vtable := aws_hash_vtable h;
                            aws_hash_digest_size := aws_hash_digest_size h;
                            aws_hash_good := true;
                            aws_hash_impl :=
                              hash_absorb (aws_hash_vtable h) (aws_hash_impl h) data |});;
    mret AWS_OP_SUCCESS.

Definition hmac_vtable_update (hmac : addr) (h : aws_hmac)
    (to_hmac : aws_byte_cursor) : napi Z :=
  if negb (aws_hmac_good h) then aws_raise_error AWS_ERROR_INVALID_STATE
  else
    data ← read_cursor to_hmac;
    store hmac (obj_hmac {| aws_hmac_digest_size := aws_hmac_digest_size h;
                            aws_hmac_good := true;
                            aws_hmac_impl := hmac_absorb (aws_hmac_impl h) data |});;
    mret AWS_OP_SUCCESS.

(** [ctx->vtable->update(ctx, buf)] *)
Definition vtable_update (ctx : addr) (buf : aws_byte_cursor) : napi Z :=
  o ← load ctx;
  match o with
  | obj_hash h => hash_vtable_update ctx h buf
  | obj_hmac h => hmac_vtable_update ctx h buf
  | obj_bytes _ => fault
  end.

Definition aws_hash_update (hash : addr) (to_hash : aws_byte_cursor) : napi Z :=
  vtable_update hash to_hash.

Definition aws_hmac_update (hmac : addr) (to_hmac : aws_byte_cursor) : napi Z :=
  vtable_update hmac to_hmac.

(** The [finalize] of the two vtables: refuses a context that is not good
    and an output with less room than the natural digest, else appends the
    digest to [output] and clears [good]. *)
Definition hash_vtable_finalize (hash : addr) (h : aws_hash)
    (output : aws_byte_buf) : napi Z :=
  if negb (aws_hash_good h) then aws_raise_error AWS_ERROR_INVALID_STATE
  else if (capacity output - len output <? aws_hash_digest_size h)%Z then
    aws_raise_error AWS_ERROR_SHORT_BUFFER
  else
    write_bytes output (hash_emit (aws_hash_vtable h) (aws_hash_impl h));;
    store hash (obj_hash {| aws_hash_vtable := aws_hash_vtable h;
                            aws_hash_digest_size := aws_hash_digest_size h;
                            aws_hash_good := false;
                            aws_hash_impl := aws_hash_impl h |});;
    mret AWS_OP_SUCCESS.

Definition hmac_vtable_finalize (hmac : addr) (h : aws_hmac)
    (output : aws_byte_buf) : napi Z :=
  if negb (aws_hmac_good h) then aws_raise_error AWS_ERROR_INVALID_STATE
  else if (capacity output - len output <? aws_hmac_digest_size h)%Z then
    aws_raise_error AWS_ERROR_SHORT_BUFFER
  else
    write_bytes output (hmac_emit (aws_hmac_impl h));;
    store hmac (obj_hmac {| aws_hmac_digest_size := aws_hmac_digest_size h;
                            aws_hmac_good := false;
                            aws_hmac_impl := aws_hmac_impl h |});;
    mret AWS_OP_SUCCESS.

(** [ctx->vtable->finalize(ctx, output)] *)
Definition vtable_finalize (ctx : addr) (output : aws_byte_buf) : napi Z :=
  o ← load ctx;
  match o with
  | obj_hash h => hash_vtable_finalize ctx h output
  | obj_hmac h => hmac_vtable_finalize ctx h output
  | obj_bytes _ => fault
  end.

(** The truncating path of [aws_hash_finalize] and [aws_hmac_finalize]: the
    vtable fills a scratch array of the library's own, of which the first
    [truncate_to] bytes are copied. *)
Definition hash_finalize_truncated (hash : addr) (h : aws_hash)
    (output : aws_byte_buf) (truncate_to : Z) : napi Z :=
  if negb (aws_hash_good h) then aws_raise_error AWS_ERROR_INVALID_STATE
  else
    write_bytes output
      (take (Z.to_nat truncate_to) (hash_emit (aws_hash_vtable h) (aws_hash_impl h)));;
    store hash (obj_hash {| aws_hash_vtable := aws_hash_vtable h;
                            aws_hash_digest_size := aws_hash_digest_size h;
                            aws_hash_good := false;
                            aws_hash_impl := aws_hash_impl h |});;
    mret AWS_OP_SUCCESS.

Definition hmac_finalize_truncated (hmac : addr) (h : aws_hmac)
    (output : aws_byte_buf) (truncate_to : Z) : napi Z :=
  if negb (aws_hmac_good h) then aws_raise_error AWS_ERROR_INVALID_STATE
  else
    write_bytes output (take (Z.to_nat truncate_to) (hmac_emit (aws_hmac_impl h)));;
    store hmac (obj_hmac {| aws_hmac_digest_size := aws_hmac_digest_size h;
                            aws_hmac_good := false;
                            aws_hmac_impl := aws_hmac_impl h |});;
    mret AWS_OP_SUCCESS.

Definition vtable_finalize_truncated (ctx : addr) (output : aws_byte_buf)
    (truncate_to : Z) : napi Z :=
  o ← load ctx;
  match o with
  | obj_hash h => hash_finalize_truncated ctx h output truncate_to
  | obj_hmac h => hmac_finalize_truncated ctx h output truncate_to
  | obj_bytes _ => fault
  end.

(** [aws_hash_finalize(hash, output, truncate_to)]: the output is truncated
    when [truncate_to] is something other than 0 and below the digest size;
    with 0 the full digest is written. *)
Definition aws_hash_finalize (hash : addr) (output : aws_byte_buf)
    (truncate_to : Z) : napi Z :=
  digest_size ← load_digest_size hash;
  if negb (truncate_to =? 0)%Z && (truncate_to <? digest_size)%Z then
    if (capacity output - len output <? truncate_to)%Z then
      aws_raise_error AWS_ERROR_SHORT_BUFFER
    else vtable_finalize_truncated hash output truncate_to
  else vtable_finalize hash output.

Definition aws_hmac_finalize (hmac : addr) (output : aws_byte_buf)
    (truncate_to : Z) : napi Z :=
  digest_size ← load_digest_size hmac;
  if negb (truncate_to =? 0)%Z && (truncate_to <? digest_size)%Z then
    if (capacity output - len output <? truncate_to)%Z then
      aws_raise_error AWS_ERROR_SHORT_BUFFER
    else vtable_finalize_truncated hmac output truncate_to
  else vtable_finalize hmac output.

(** [ctx->vtable->destroy(ctx)]: the routine reads the context it is given;
    each of its runs is logged, then the context is freed. *)
Definition vtable_destroy (ctx : addr) : napi unit :=
  o ← load ctx;
  match o with
  | obj_hash _ | obj_hmac _ =>
      modify (log_destroy ctx);;
      aws_mem_release ctx
  | obj_bytes _ => fault
  end.

Definition aws_hash_destroy (hash : addr) : napi unit :=
  vtable_destroy hash.

Definition aws_hmac_destroy (hmac : addr) : napi unit :=
  vtable_destroy hmac.

(** ** N-API (host runtime, after its documented contract) *)

(** [argc] comes in as the room in [argv] and goes out as the number of
    arguments of the call; [argv] is filled up with [undefined]. *)
Definition napi_get_cb_info (argc : nat) (info : list napi_value)
    : napi (napi_result (nat * list napi_value)) :=
  f ← get faults;
  if get_cb_info_fails f then mret (napi_error napi_generic_failure)
  else mret (napi_done (length info,
                        take argc (info ++ replicate argc js_undefined))).

Definition arg (node_args : list napi_value) (i : nat) : napi_value :=
  default js_undefined (node_args !! i).

Definition napi_throw (e : js_error) : napi napi_status := λ w,
  match pending w with
  | Some _ => Next napi_pending_exception w
  | None => Next napi_ok (set_pending (Some e) w)
  end.

Definition napi_throw_error (msg : string) : napi napi_status :=
  napi_throw (Error msg).

Definition napi_throw_type_error (msg : string) : napi napi_status :=
  napi_throw (TypeError msg).

(** Wraps [data] in a new external that carries [finalize_cb]. *)
Definition napi_create_external (data : addr) (finalize_cb : napi_finalize)
    : napi (napi_result napi_value) :=
  f ← get faults;
  if create_external_fails f then mret (napi_error napi_generic_failure)
  else
    exts ← get externals;
    modify (set_externals
              (exts ++ [{| ext_data := data; ext_finalize_cb := finalize_cb;
                           ext_collected := false |}]));;
    mret (napi_done (js_external (length exts))).

(** The pointer an external wraps, whichever native module made it: N-API
    does not tell the externals of this file from others.  A value that is
    no external is refused, and so is one that names no external or an
    external the collector has already reclaimed (no script can hold such a
    value). *)
Definition napi_get_value_external (value : napi_value)
    : napi (napi_result addr) :=
  match value with
  | js_external id =>
      exts ← get externals;
      match exts !! id with
      | Some e =>
          if ext_collected e then mret (napi_error napi_invalid_arg)
          else mret (napi_done (ext_data e))
      | None => mret (napi_error napi_invalid_arg)
      end
  | _ => mret (napi_error napi_invalid_arg)
  end.

(** A number converts as ToUint32 does; anything else, [null] and
    [undefined] included, is [napi_number_expected]. *)
Definition napi_get_value_uint32 (value : napi_value) : napi (napi_result Z) :=
  match value with
  | js_number n => mret (napi_done (n mod 2 ^ 32)%Z)
  | _ => mret (napi_error napi_number_expected)
  end.

(** A new zero-filled [ArrayBuffer] and the pointer to its bytes. *)
Definition napi_create_arraybuffer (byte_length : Z)
    : napi (napi_result (addr * napi_value)) :=
  f ← get faults;
  if create_arraybuffer_fails f then mret (napi_error napi_generic_failure)
  else
    data ← alloc (obj_bytes (replicate (Z.to_nat byte_length) x00));
    mret (napi_done (data, js_arraybuffer data)).

Definition napi_create_dataview (length : Z) (arraybuffer : napi_value)
    (byte_offset : Z) : napi (napi_result napi_value) :=
  f ← get faults;
  if create_dataview_fails f then mret (napi_error napi_generic_failure)
  else
    match arraybuffer with
    | js_arraybuffer data => mret (napi_done (js_dataview data byte_offset length))
    | _ => mret (napi_error napi_invalid_arg)
    end.

(** ** The helpers of module.c *)

(** Modelled from the spec: [aws_byte_buf_init_from_napi] of module.c, the
    marshaling of a string or an array into a byte sequence.  The bytes are
    put in a transient buffer of their own; any other value is refused. *)
Definition aws_byte_buf_init_from_napi (value : napi_value)
    : napi (napi_result aws_byte_buf) :=
  match value with
  | js_string b | js_array b =>
      f ← get faults;
      if buf_init_fails f then
        aws_raise_error AWS_ERROR_OOM;; mret (napi_error napi_generic_failure)
      else
        p ← alloc (obj_bytes b);
        mret (napi_done {| len := size_of b; buffer := p;
                           capacity := size_of b; allocator := true |})
  | _ => mret (napi_error napi_invalid_arg)
  end.

(** Modelled from the spec: [aws_napi_is_null_or_undefined] of module.c,
    whether an optional argument is absent. *)
Definition aws_napi_is_null_or_undefined (value : napi_value) : bool :=
  match value with
  | js_undefined | js_null => true
  | _ => false
  end.

(** Modelled from the spec: [aws_napi_throw_last_error] of module.c, which
    surfaces the thread's last AWS error as a JavaScript exception that
    identifies its kind. *)
Definition aws_napi_throw_last_error : napi unit :=
  e ← get last_error;
  napi_throw (AwsError e);;
  mret tt.

(** ** Hash (crypto.c) *)

(** Finalizer for an hash external *)
Definition s_hash_finalize (finalize_data : addr) : napi unit :=
  let hash := finalize_data in
  aws_hash_destroy hash.

Definition hash_md5_new (info : list napi_value) : napi (option napi_value) :=
  hash ← aws_md5_new;
  match hash with
  | None => return_ NULL
  | Some hash =>
      r ← napi_create_external hash cb_hash_finalize;
      match r with
      | napi_done node_external => mret (Some node_external)
      | napi_error _ =>
          napi_throw_error "Failed create n-api external";;
          mret NULL
      end
  end.

Definition hash_sha256_new (info : list napi_value) : napi (option napi_value) :=
  hash ← aws_sha256_new;
  match hash with
  | None => return_ NULL
  | Some hash =>
      r ← napi_create_external hash cb_hash_finalize;
      match r with
      | napi_done node_external => mret (Some node_external)
      | napi_error _ =>
          napi_throw_error "Failed create n-api external";;
          mret NULL
      end
  end.

Definition hash_update (info : list napi_value) : napi (option napi_value) :=
  '(num_args, node_args) ←
    on_failure (napi_get_cb_info 2 info)
      (napi_throw_error "Failed to retreive callback information";;
       return_ NULL);
  when (negb (num_args =? 2))
    (napi_throw_error "hash_update needs exactly 2 arguments";;
     return_ NULL);;
  hash ←
    on_failure (napi_get_value_external (arg node_args 0))
      (napi_throw_error "Failed to extract hash from first argument";;
       return_ NULL);
  to_hash ←
    on_failure (aws_byte_buf_init_from_napi (arg node_args 1))
      (napi_throw_type_error "to_hash argument must be a string or array";;
       return_ NULL);
  let to_hash_cur := aws_byte_cursor_from_buf to_hash in
  rc ← aws_hash_update hash to_hash_cur;
  when (aws_failed rc) aws_napi_throw_last_error;;
  aws_byte_buf_clean_up to_hash;;
  mret NULL.

Definition hash_digest (info : list napi_value) : napi (option napi_value) :=
  '(num_args, node_args) ←
    on_failure (napi_get_cb_info 2 info)
      (napi_throw_error "Failed to retreive callback information";;
       return_ NULL);
  when (negb (num_args =? 2))
    (napi_throw_error "hash_digest needs exactly 2 arguments";;
     return_ NULL);;
  hash ←
    on_failure (napi_get_value_external (arg node_args 0))
      (napi_throw_error "Failed to extract hash from first argument";;
       return_ NULL);
  digest_size ← load_digest_size hash;
  digest_size ←
    (if negb (aws_napi_is_null_or_undefined (arg node_args 1)) then
       truncate_to ←
         on_failure (napi_get_value_uint32 (arg node_args 1))
           (napi_throw_type_error
              "truncate_to argument must be undefined or a positive number";;
            return_ NULL);
       mret (if (truncate_to <? digest_size)%Z then truncate_to else digest_size)
     else mret digest_size);
  '(data, arraybuffer) ←
    on_failure (napi_create_arraybuffer digest_size)
      (napi_throw_error "Failed to create output arraybuffer";;
       return_ NULL);
  let out_buf := aws_byte_buf_from_empty_array data digest_size in
  rc ← aws_hash_finalize hash out_buf digest_size;
  when (aws_failed rc) (aws_napi_throw_last_error;; return_ NULL);;
  dataview ←
    on_failure (napi_create_dataview digest_size arraybuffer 0)
      (napi_throw_error "Failed to create output dataview";;
       return_ NULL);
  mret (Some dataview).

(** ** HMAC (crypto.c) *)

(** Finalizer for an hash external *)
Definition s_hmac_finalize (finalize_data : addr) : napi unit :=
  let hmac := finalize_data in
  aws_hmac_destroy hmac.

Definition hmac_sha256_new (info : list napi_value) : napi (option napi_value) :=
  '(num_args, node_args) ←
    on_failure (napi_get_cb_info 1 info)
      (napi_throw_error "Failed to retreive callback information";;
       return_ NULL);
  when (negb (num_args =? 1))
    (napi_throw_error "hmac_sha256_new needs exactly 1 argument";;
     return_ NULL);;
  secret ←
    on_failure (aws_byte_buf_init_from_napi (arg node_args 0))
      (napi_throw_type_error "secret argument must be a string or array";;
       return_ NULL);
  let secret_cur := aws_byte_cursor_from_buf secret in
  hmac ← aws_sha256_hmac_new secret_cur;
  match hmac with
  | None =>
      aws_byte_buf_clean_up secret;;
      return_ NULL
  | Some hmac =>
      r ← napi_create_external hmac cb_hmac_finalize;
      match r with
      | napi_done node_external => mret (Some node_external)
      | napi_error _ =>
          napi_throw_error "Failed create n-api external";;
          aws_hmac_destroy hmac;;
          aws_byte_buf_clean_up_secure secret;;
          mret NULL
      end
  end.

Definition hmac_update (info : list napi_value) : napi (option napi_value) :=
  '(num_args, node_args) ←
    on_failure (napi_get_cb_info 2 info)
      (napi_throw_error "Failed to retreive callback information";;
       return_ NULL);
  when (negb (num_args =? 2))
    (napi_throw_error "hmac_update needs exactly 2 arguments";;
     return_ NULL);;
  hmac ←
    on_failure (napi_get_value_external (arg node_args 0))
      (napi_throw_error "Failed to extract hmac from first argument";;
       return_ NULL);
  to_hash ←
    on_failure (aws_byte_buf_init_from_napi (arg node_args 1))
      (napi_throw_type_error "to_hmac argument must be a string or array";;
       return_ NULL);
  let to_hash_cur := aws_byte_cursor_from_buf to_hash in
  rc ← aws_hmac_update hmac to_hash_cur;
  when (aws_failed rc) aws_napi_throw_last_error;;
  aws_byte_buf_clean_up to_hash;;
  mret NULL.

Definition hmac_digest (info : list napi_value) : napi (option napi_value) :=
  '(num_args, node_args) ←
    on_failure (napi_get_cb_info 2 info)
      (napi_throw_error "Failed to retreive callback information";;
       return_ NULL);
  when (negb (num_args =? 2))
    (napi_throw_error "hmac_digest needs exactly 2 arguments";;
     return_ NULL);;
  hmac ←
    on_failure (napi_get_value_external (arg node_args 0))
      (napi_throw_error "Failed to extract hmac from first argument";;
       return_ NULL);
  digest_size ← load_digest_size hmac;
  digest_size ←
    (if aws_napi_is_null_or_undefined (arg node_args 1) then
       truncate_to ←
         on_failure (napi_get_value_uint32 (arg node_args 1))
           (napi_throw_type_error
              "truncate_to argument must be undefined or a positive number";;
            return_ NULL);
       mret (if (truncate_to <? digest_size)%Z then truncate_to else digest_size)
     else mret digest_size);
  '(data, arraybuffer) ←
    on_failure (napi_create_arraybuffer digest_size)
      (napi_throw_error "Failed to create output arraybuffer";;
       return_ NULL);
  let out_buf := aws_byte_buf_from_empty_array data digest_size in
  rc ← aws_hmac_finalize hmac out_buf digest_size;
  when (aws_failed rc) (aws_napi_throw_last_error;; return_ NULL);;
  dataview ←
    on_failure (napi_create_dataview digest_size arraybuffer 0)
      (napi_throw_error "Failed to create output dataview";;
       return_ NULL);
  mret (Some dataview).

(** ** Calls from the host *)

(** What the caller of a callback gets: the returned value ([NULL] reads as
    [undefined]) or, when an exception is pending at the return, that
    exception. *)
Inductive completion :=
| Returns (v : napi_value)
| Throws (e : js_error).

Definition completion_of (v : option napi_value) (w : world) : completion :=
  match pending w with
  | Some e => Throws e
  | None => Returns (default js_undefined v)
  end.

(** A call from JavaScript: the callback runs to its [return]; the pending
    exception, if any, is handed to the caller.  [None] is [Fault]. *)
Definition js_call (f : list napi_value → napi (option napi_value))
    (info : list napi_value) (w : world) : option (completion * world) :=
  match f info w with
  | Next v w' | Return v w' => Some (completion_of v w', set_pending None w')
  | Fault => None
  end.

(** The collector reclaims an unreachable external: its finalizer runs, and
    runs once.  The finalizer of another module is code of that module: it
    does not reach the memory of this one. *)
Definition collect (id : nat) : napi unit :=
  exts ← get externals;
  match exts !! id with
  | Some e =>
      if ext_collected e then mret tt
      else
        modify (set_externals
                  (<[id := {| ext_data := ext_data e;
                              ext_finalize_cb := ext_finalize_cb e;
                              ext_collected := true |}]> exts));;
        match ext_finalize_cb e with
        | cb_hash_finalize => s_hash_finalize (ext_data e)
        | cb_hmac_finalize => s_hmac_finalize (ext_data e)
        | cb_foreign => mret tt
        end
  | None => mret tt
  end.

(** The bytes a returned [DataView] shows. *)
Definition dataview_bytes (w : world) (v : napi_value) : option (list byte) :=
  match v with
  | js_dataview data byte_offset byte_length =>
      match heap w !! data with
      | Some {| contents := obj_bytes b |} =>
          Some (take (Z.to_nat byte_length) (drop (Z.to_nat byte_offset) b))
      | _ => None
      end
  | _ => None
  end.

(** ** Sequences of operations *)

Inductive callback :=
| fn_hash_md5_new | fn_hash_sha256_new | fn_hash_update | fn_hash_digest
| fn_hmac_sha256_new | fn_hmac_update | fn_hmac_digest.

Definition callback_body (f : callback)
    : list napi_value → napi (option napi_value) :=
  match f with
  | fn_hash_md5_new => hash_md5_new
  | fn_hash_sha256_new => hash_sha256_new
  | fn_hash_update => hash_update
  | fn_hash_digest => hash_digest
  | fn_hmac_sha256_new => hmac_sha256_new
  | fn_hmac_update => hmac_update
  | fn_hmac_digest => hmac_digest
  end.

(** Another native module of the process wraps an object of its own, of
    which this file knows nothing but its bytes, in an external. *)
Definition foreign_external (b : list byte) : napi unit :=
  p ← alloc (obj_bytes b);
  napi_create_external p cb_foreign;;
  mret tt.

(** What can happen to a world: a script calls one of the exported
    functions, the collector reclaims an external, the resources that
    decide the next failures change, or another module hands the script an
    external of its own. *)
Inductive op :=
| op_call (f : callback) (info : list napi_value)
| op_collect (id : nat)
| op_faults (f : host_faults)
| op_foreign (b : list byte).

Definition step (o : op) (w : world) : option world :=
  match o with
  | op_call f info => snd <$> js_call (callback_body f) info w
  | op_collect id =>
      match collect id w with
      | Next _ w' | Return _ w' => Some w'
      | Fault => None
      end
  | op_faults f => Some (set_faults f w)
  | op_foreign b =>
      match foreign_external b w with
      | Next _ w' | Return _ w' => Some w'
      | Fault => None
      end
  end.

Fixpoint run (ops : list op) (w : world) : option world :=
  match ops with
  | [] => Some w
  | o :: ops' =>
      match step o w with
      | Some w' => run ops' w'
      | None => None
      end
  end.

(** ** Vocabulary of the statements *)

(** The context a handle leads to, while the collector has not reclaimed it. *)
Definition resolve (w : world) (e : nat) : option addr :=
  match externals w !! e with
  | Some x => if ext_collected x then None else Some (ext_data x)
  | None => None
  end.

(** The bytes a data argument carries. *)
Definition bytes_of (v : napi_value) : option (list byte) :=
  match v with
  | js_string b | js_array b => Some b
  | _ => None
  end.

(** How a [truncate_to] argument reads: absent, or a length as an unsigned
    32-bit number; other values are not lengths. *)
Definition truncate_request (v : napi_value) : option (option Z) :=
  match v with
  | js_undefined | js_null => Some None
  | js_number k => Some (Some (k mod 2 ^ 32)%Z)
  | _ => None
  end.

(** The emitted length the truncation contract asks for. *)
Definition emitted_size (n : Z) (request : option Z) : Z :=
  match request with
  | None => n
  | Some k => n `min` k
  end.

Definition hash_fed (h : aws_hash) (data : list byte) : aws_hash :=
  {| aws_hash_vtable := aws_hash_vtable h;
     aws_hash_digest_size := aws_hash_digest_size h;
     aws_hash_good := true;
     aws_hash_impl := hash_absorb (aws_hash_vtable h) (aws_hash_impl h) data |}.

Definition hash_done (h : aws_hash) : aws_hash :=
  {| aws_hash_vtable := aws_hash_vtable h;
     aws_hash_digest_size := aws_hash_digest_size h;
     aws_hash_good := false;
     aws_hash_impl := aws_hash_impl h |}.

(** The natural, untruncated digest of a context. *)
Definition hash_digest_of (h : aws_hash) : list byte :=
  hash_emit (aws_hash_vtable h) (aws_hash_impl h).

Definition hmac_fed (h : aws_hmac) (data : list byte) : aws_hmac :=
  {| aws_hmac_digest_size := aws_hmac_digest_size h;
     aws_hmac_good := true;
     aws_hmac_impl := hmac_absorb (aws_hmac_impl h) data |}.

Definition hmac_done (h : aws_hmac) : aws_hmac :=
  {| aws_hmac_digest_size := aws_hmac_digest_size h;
     aws_hmac_good := false;
     aws_hmac_impl := aws_hmac_impl h |}.

Definition hmac_digest_of (h : aws_hmac) : list byte :=
  hmac_emit (aws_hmac_impl h).

(** A context as the constructors of aws-c-cal make it: its [digest_size] is
    the natural size of its algorithm. *)
Definition hash_well_formed (h : aws_hash) : Prop :=
  aws_hash_digest_size h = alg_digest_size (aws_hash_vtable h).

Definition hmac_well_formed (h : aws_hmac) : Prop :=
  aws_hmac_digest_size h = AWS_SHA256_HMAC_LEN.

(** Handle [e] leads to the live hash context [h] at [p]. *)
Definition hash_handle (w : world) (e : nat) (p : addr) (h : aws_hash) : Prop :=
  resolve w e = Some p ∧
  heap w !! p = Some {| contents := obj_hash h; released := false |} ∧
  hash_well_formed h.

Definition hmac_handle (w : world) (e : nat) (p : addr) (h : aws_hmac) : Prop :=
  resolve w e = Some p ∧
  heap w !! p = Some {| contents := obj_hmac h; released := false |} ∧
  hmac_well_formed h.

(** No exception is pending and the host is not short of resources for the
    calls of [update] and [digest]. *)
Definition host_ready (w : world) : Prop :=
  pending w = None ∧
  get_cb_info_fails (faults w) = false ∧
  buf_init_fails (faults w) = false ∧
  create_arraybuffer_fails (faults w) = false ∧
  create_dataview_fails (faults w) = false.

(** The digest bytes a call handed to its caller, if it handed any. *)
Definition emitted (r : option (completion * world)) : option (list byte) :=
  match r with
  | Some (Returns d, w) => dataview_bytes w d
  | _ => None
  end.

(** The digest a script gets when it feeds [chunks] to the context behind
    handle [e], one [update] each, and then asks for the digest. *)
Definition digest_after (update digest : callback) (e : nat)
    (chunks : list napi_value) (truncate_to : napi_value) (w : world)
    : option (list byte) :=
  emitted
    (run (map (λ c, op_call update [js_external e; c]) chunks) w
       ≫= js_call (callback_body digest) [js_external e; truncate_to]).

(** A native block that holds a hash or an HMAC context. *)
Definition is_context (b : block) : bool :=
  match contents b with
  | obj_hash _ | obj_hmac _ => true
  | obj_bytes _ => false
  end.

(** How often a destroy routine has run on [p]. *)
Definition destroy_count (w : world) (p : addr) : nat :=
  length (filter (λ q, q = p) (destroyed w)).

(** ** The life of a context *)

(** A computation is quiet when it registers no external and destroys
    nothing; all it may do to the heap is use it and extend it. *)
Definition quiet_step (w w' : world) : Prop :=
  externals w' = externals w ∧ destroyed w' = destroyed w ∧
  length (heap w) ≤ length (heap w').

Definition quiet {A} (m : napi A) : Prop :=
  ∀ w, match m w with
       | Next _ w' | Return _ w' => quiet_step w w'
       | Fault => True
       end.

(** What one operation does to the externals and to the log of destroyed
    contexts: nothing; or it registers a block allocated in the same
    call; or it destroys a context allocated in the same call, which no
    external knows; or it reclaims a live external, destroying its
    context; or it reclaims a live external of another module, which
    destroys nothing of this one. *)
Inductive effect (w w' : world) : Prop :=
| effect_quiet :
    quiet_step w w' → effect w w'
| effect_registered p cb :
    externals w' = externals w ++ [{| ext_data := p; ext_finalize_cb := cb;
                                      ext_collected := false |}] →
    destroyed w' = destroyed w →
    length (heap w) ≤ p < length (heap w') →
    effect w w'
| effect_cleaned_up p :
    externals w' = externals w →
    destroyed w' = p :: destroyed w →
    length (heap w) ≤ p < length (heap w') →
    effect w w'
| effect_reclaimed i e :
    externals w !! i = Some e →
    ext_collected e = false →
    externals w' = <[i := {| ext_data := ext_data e;
                             ext_finalize_cb := ext_finalize_cb e;
                             ext_collected := true |}]> (externals w) →
    destroyed w' = ext_data e :: destroyed w →
    length (heap w') = length (heap w) →
    effect w w'
| effect_dropped i e :
    externals w !! i = Some e →
    ext_collected e = false →
    externals w' = <[i := {| ext_data := ext_data e;
                             ext_finalize_cb := ext_finalize_cb e;
                             ext_collected := true |}]> (externals w) →
    destroyed w' = destroyed w →
    heap w' = heap w →
    effect w w'.

(** Whatever a computation returns, its effect is one of these. *)
Definition effective {A} (m : napi A) : Prop :=
  ∀ w, match m w with
       | Next _ w' | Return _ w' => effect w w'
       | Fault => True
       end.

(** The invariant of the life cycle: no context was destroyed twice, the
    contexts of live externals were not destroyed, and no two externals
    share a context. *)
Record lifecycle (w : world) : Prop := {
  destroyed_once : NoDup (destroyed w);
  destroyed_allocated : ∀ p, p ∈ destroyed w → p < length (heap w);
  external_allocated : ∀ i e,
    externals w !! i = Some e → ext_data e < length (heap w);
  external_alive : ∀ i e,
    externals w !! i = Some e → ext_collected e = false →
    ext_data e ∉ destroyed w;
  external_unshared : ∀ i j e1 e2,
    externals w !! i = Some e1 → externals w !! j = Some e2 →
    ext_data e1 = ext_data e2 → i = j
}.

(** Context [p] is allocated, no external holds it and it was never
    destroyed: nothing can reach it any more. *)
Definition leaked (p : addr) (w : world) : Prop :=
  p < length (heap w) ∧ (p ∉ destroyed w) ∧
  (∀ i e, externals w !! i = Some e → ext_data e ≠ p).

(** ** Vocabulary of the error paths *)

(** The native state a call left as it found it. *)
Definition untouched (w w' : world) : Prop :=
  heap w' = heap w ∧ externals w' = externals w ∧ destroyed w' = destroyed w.

(** The call throws [e] and leaves the native state untouched. *)
Definition rejects (f : list napi_value → napi (option napi_value))
    (info : list napi_value) (w : world) (e : js_error) : Prop :=
  ∃ w', js_call f info w = Some (Throws e, w') ∧ untouched w w'.

(** The contexts the constructors of aws-c-cal hand out. *)
Definition fresh_hash (a : hash_alg) : aws_hash :=
  {| aws_hash_vtable := a; aws_hash_digest_size := alg_digest_size a;
     aws_hash_good := true; aws_hash_impl := hash_init a |}.

Definition fresh_hmac (secret : list byte) : aws_hmac :=
  {| aws_hmac_digest_size := AWS_SHA256_HMAC_LEN; aws_hmac_good := true;
     aws_hmac_impl := hmac_init secret |}.

(** The heaps agree on every block [w] has, but the one at [p]. *)
Definition same_blocks_but (p : addr) (w w' : world) : Prop :=
  ∀ q, q < length (heap w) → q ≠ p → heap w' !! q = heap w !! q.

(** ** The shape of the heap *)

(** What a block is for as long as it exists: a hash context of an algorithm
    and a digest size, an HMAC context of a digest size, or bytes. *)
Inductive shape :=
| shape_hash (a : hash_alg) (n : Z)
| shape_hmac (n : Z)
| shape_bytes.

Definition shape_of (o : object) : shape :=
  match o with
  | obj_hash h => shape_hash (aws_hash_vtable h) (aws_hash_digest_size h)
  | obj_hmac h => shape_hmac (aws_hmac_digest_size h)
  | obj_bytes _ => shape_bytes
  end.

Definition shaped (p : addr) (s : shape) (w : world) : Prop :=
  ∃ b, heap w !! p = Some b ∧ shape_of (contents b) = s.

(** Every block the heap had is still there with its shape, and no context
    was released or revived. *)
Definition steady_step (w w' : world) : Prop :=
  ∀ q b, heap w !! q = Some b →
    ∃ b', heap w' !! q = Some b' ∧
          shape_of (contents b') = shape_of (contents b) ∧
          (is_context b = true → released b' = released b).

Definition steady {A} (m : napi A) : Prop :=
  ∀ w, match m w with
       | Next _ w' | Return _ w' => steady_step w w'
       | Fault => True
       end.

(** From a world where [pre] holds the computation is steady and, when it
    falls through, [post] holds of its value. *)
Definition hoare {A} (pre : world → Prop) (m : napi A)
    (post : A → world → Prop) : Prop :=
  ∀ w, pre w →
    match m w with
    | Next a w' => steady_step w w' ∧ post a w'
    | Return _ w' => steady_step w w'
    | Fault => True
    end.

(** The context a finalizer is registered for. *)
Definition context_for (cb : napi_finalize) (o : object) : Prop :=
  match cb, o with
  | cb_hash_finalize, obj_hash h => hash_well_formed h
  | cb_hmac_finalize, obj_hmac h => hmac_well_formed h
  | _, _ => False
  end.

(** Every live handle of this file leads to a live, well-formed context of
    the kind its finalizer destroys. *)
Definition handles_safe (w : world) : Prop :=
  ∀ i e, externals w !! i = Some e → ext_collected e = false →
    ext_finalize_cb e ≠ cb_foreign →
    ∃ b, heap w !! ext_data e = Some b ∧ released b = false ∧
         context_for (ext_finalize_cb e) (contents b).

(** The functions that take a handle. *)
Definition takes_handle (f : callback) : bool :=
  match f with
  | fn_hash_update | fn_hash_digest | fn_hmac_update | fn_hmac_digest => true
  | _ => false
  end.

(** An operation that does not hand a live external of another module to a
    function of this file. *)
Definition native_handles (o : op) (w : world) : Prop :=
  match o with
  | op_call f info =>
      takes_handle f = true →
      ∀ i e, info !! 0 = Some (js_external i) →
             externals w !! i = Some e → ext_collected e = false →
             ext_finalize_cb e ≠ cb_foreign
  | _ => True
  end.

(** What a call of this file may do to the handles: the heap stays steady
    and at most one handle is registered, for a live context of the kind of
    its finalizer. *)
Definition constructs (w w' : world) : Prop :=
  steady_step w w' ∧
  (externals w' = externals w ∨
   ∃ p cb b,
     externals w' = externals w ++ [{| ext_data := p; ext_finalize_cb := cb;
                                       ext_collected := false |}] ∧
     heap w' !! p = Some b ∧ released b = false ∧ context_for cb (contents b)).

(** [p] holds a live context of shape [s]. *)
Definition live_context (p : addr) (s : shape) (w : world) : Prop :=
  ∃ b, heap w !! p = Some b ∧ released b = false ∧ is_context b = true ∧
       shape_of (contents b) = s.

End Binding.

Arguments Next {P A} a w.
Arguments Return {P A} v w.
Arguments Fault {P A}.
Arguments napi_done {T} v.
Arguments napi_error {T} s.

(** ** Sample worlds, on the stand-in provider *)

#[local] Existing Instance prefix_provider.

Definition demo_secret : list byte := [x6b; x65; x79].

(** A script creates an MD5 hash (handle 0, context at address 0) and an
    HMAC keyed with [demo_secret] (handle 1, context at address 2; address 1
    is the buffer that carried the secret). *)
Definition demo_ops : list op :=
  [op_call fn_hash_md5_new [];
   op_call fn_hmac_sha256_new [js_string demo_secret]].

Definition demo_world : world :=
  default initial_world (run demo_ops initial_world).

Definition demo_hash : aws_hash :=
  {| aws_hash_vtable := MD5; aws_hash_digest_size := 16;
     aws_hash_good := true; aws_hash_impl := [] |}.

Definition demo_hmac : aws_hmac :=
  {| aws_hmac_digest_size := 32; aws_hmac_good := true;
     aws_hmac_impl := demo_secret |}.

(** The same script goes on and takes both digests. *)
Definition consumed_world : world :=
  default initial_world
    (run (demo_ops ++ [op_call fn_hash_digest [js_external 0; js_undefined];
                       op_call fn_hmac_digest [js_external 1; js_number 32]])
       initial_world).

(** The host has no room for another external. *)
Definition no_externals_left : host_faults :=
  {| get_cb_info_fails := false; buf_init_fails := false;
     alg_new_fails := false; create_external_fails := true;
     create_arraybuffer_fails := false; create_dataview_fails := false |}.

(** The host has no memory for another algorithm context. *)
Definition no_context_left : host_faults :=
  {| get_cb_info_fails := false; buf_init_fails := false;
     alg_new_fails := true; create_external_fails := false;
     create_arraybuffer_fails := false; create_dataview_fails := false |}.

(** The host cannot hand over the arguments of a call. *)
Definition no_callback_info : host_faults :=
  {| get_cb_info_fails := true; buf_init_fails := false;
     alg_new_fails := false; create_external_fails := false;
     create_arraybuffer_fails := false; create_dataview_fails := false |}.

(** The host has no memory for another [ArrayBuffer]. *)
Definition no_arraybuffer_left : host_faults :=
  {| get_cb_info_fails := false; buf_init_fails := false;
     alg_new_fails := false; create_external_fails := false;
     create_arraybuffer_fails := true; create_dataview_fails := false |}.

(** The host cannot create another [DataView]. *)
Definition no_dataview_left : host_faults :=
  {| get_cb_info_fails := false; buf_init_fails := false;
     alg_new_fails := false; create_external_fails := false;
     create_arraybuffer_fails := false; create_dataview_fails := true |}.

(** * Proofs *)

(** ** Symbolic execution of the callbacks *)

Ltac unfold_monad :=
  unfold on_failure, when, get, modify, return_, fault, mbind, napi_bind,
    mret, napi_ret, set_heap, set_externals, set_pending, set_last_error,
    set_faults, log_destroy.

Ltac unfold_host :=
  unfold napi_get_cb_info, napi_get_value_external, napi_get_value_uint32,
    napi_create_arraybuffer, napi_create_dataview, napi_create_external,
    napi_throw_error, napi_throw_type_error, aws_napi_throw_last_error,
    napi_throw, aws_byte_buf_init_from_napi, aws_byte_buf_clean_up_secure,
    aws_byte_buf_clean_up, aws_byte_buf_secure_zero, aws_mem_release,
    aws_raise_error, aws_failed, AWS_OP_SUCCESS, AWS_OP_ERR,
    aws_byte_cursor_from_buf, write_bytes, read_cursor, load_digest_size,
    load_bytes, store, load, alloc;
  unfold_monad.

Ltac unfold_cal :=
  unfold s_hash_finalize, s_hmac_finalize, aws_md5_new, aws_sha256_new,
    new_hash, aws_sha256_hmac_new, aws_hash_update, aws_hmac_update,
    vtable_update, hash_vtable_update, hmac_vtable_update,
    aws_hash_finalize, aws_hmac_finalize, vtable_finalize_truncated,
    vtable_finalize, hash_vtable_finalize, hmac_vtable_finalize,
    hash_finalize_truncated, hmac_finalize_truncated,
    aws_hash_destroy, aws_hmac_destroy, vtable_destroy,
    aws_byte_buf_from_empty_array.

Ltac prims := unfold_cal; unfold_host.

Ltac len_solve :=
  repeat match goal with
         | H : _ !! _ = Some _ |- _ => apply lookup_lt_Some in H
         end;
  rewrite ?length_insert, ?length_app; simpl; lia.

(** One step: use an equation of the context, or resolve a lookup. *)
Ltac look :=
  match goal with
  | H : ?x = true |- context [?x] => rewrite H
  | H : ?x = false |- context [?x] => rewrite H
  | H : ?x = Some _ |- context [?x] => rewrite H
  | H : ?x = None |- context [?x] => rewrite H
  | |- context [(?l ++ _) !! ?p] =>
      first [ rewrite (lookup_app_l l _ p) by len_solve
            | rewrite (list_lookup_middle l _ _ p) by (simpl; reflexivity) ]
  | |- context [<[?i := _]> ?l !! ?j] =>
      first [ rewrite (list_lookup_insert_eq l i) by len_solve
            | rewrite (list_lookup_insert_ne l i j) by len_solve ]
  | |- context [(?x - 0)%Z] => rewrite (Z.sub_0_r x)
  | |- context [(?x <=? ?x)%Z] => rewrite (Z.leb_refl x)
  | |- context [(?x <? ?x)%Z] => rewrite (Z.ltb_irrefl x)
  | |- context [Z.to_nat (Z.of_nat ?n)] => rewrite (Nat2Z.id n)
  | |- context [take (length ?l) ?l] => rewrite (firstn_all l)
  end.

Ltac exec := cbn; repeat (look; cbn).
Ltac side := cbn; repeat (look; cbn); try done.

Ltac open_handle H :=
  let He := fresh "He" in
  unfold resolve in H;
  destruct (externals _ !! _) as [[? ? []]|] eqn:He; simplify_eq/=.

Section Engine.
Context {P : cal_provider}.

(** ** Bytes *)

Lemma overwrite_all (n : nat) (d : list byte) :
  length d = n →
  take (Z.to_nat 0) (replicate n x00) ++ d
    ++ drop (Z.to_nat 0 + length d) (replicate n x00) = d.
Proof.
  intros <-. change (Z.to_nat 0) with 0. simpl.
  rewrite drop_replicate, Nat.sub_diag. simpl. apply app_nil_r.
Qed.

Lemma view_whole (n : nat) (d : list byte) :
  take n (drop (Z.to_nat 0) (take n d)) = take n d.
Proof.
  change (Z.to_nat 0) with 0. rewrite drop_0, take_take. f_equal. lia.
Qed.

Lemma size_of_take (m : Z) (d : list byte) :
  (0 ≤ m ≤ size_of d)%Z → size_of (take (Z.to_nat m) d) = m.
Proof. unfold size_of. rewrite length_take. lia. Qed.

Lemma size_of_replicate (m : Z) (x : byte) :
  (0 ≤ m)%Z → size_of (replicate (Z.to_nat m) x) = m.
Proof. unfold size_of. rewrite length_replicate. lia. Qed.

Lemma clamp_is_min (n k : Z) : (if (k <? n)%Z then k else n) = (n `min` k)%Z.
Proof. destruct (Z.ltb_spec k n); lia. Qed.

Lemma emitted_size_le (n : Z) (request : option Z) :
  (emitted_size n request ≤ n)%Z.
Proof. destruct request; simpl; lia. Qed.

(** ** The hash engine *)

(** [aws_hash_finalize] on a good context, into an empty zeroed output of
    exactly [m] bytes with [truncate_to = m]: the first [m] bytes of the
    digest are written and the context is consumed. *)
Lemma aws_hash_finalize_writes w p h q m :
  heap w !! p = Some {| contents := obj_hash h; released := false |} →
  aws_hash_good h = true →
  heap w !! q =
    Some {| contents := obj_bytes (replicate (Z.to_nat m) x00);
            released := false |} →
  (0 < m ≤ aws_hash_digest_size h)%Z →
  size_of (hash_digest_of h) = aws_hash_digest_size h →
  aws_hash_finalize p (aws_byte_buf_from_empty_array q m) m w =
    Next AWS_OP_SUCCESS
      (set_heap
         (<[p := {| contents := obj_hash (hash_done h); released := false |}]>
            (<[q := {| contents :=
                         obj_bytes (take (Z.to_nat m) (hash_digest_of h));
                       released := false |}]> (heap w))) w).
Proof.
  intros Hp Hg Hq Hm Hn. unfold hash_digest_of in *.
  assert (p ≠ q) by (intros ->; congruence).
  assert (Hz : (m =? 0)%Z = false) by lia.
  assert (Hc : (m - 0 <? m)%Z = false) by lia.
  assert (Hw : (0 + size_of (take (Z.to_nat m)
                   (hash_emit (aws_hash_vtable h) (aws_hash_impl h)))
                <=? size_of (replicate (Z.to_nat m) x00))%Z = true).
  { rewrite size_of_take, size_of_replicate by lia. lia. }
  destruct (Z.ltb_spec m (aws_hash_digest_size h)) as [Hlt|Hge].
  - assert (Hl : (m <? aws_hash_digest_size h)%Z = true) by lia.
    prims. exec.
    rewrite overwrite_all by (rewrite length_take; unfold size_of in *; lia).
    done.
  - assert (m = aws_hash_digest_size h) as -> by lia.
    assert (Hf : take (Z.to_nat (aws_hash_digest_size h))
                   (hash_emit (aws_hash_vtable h) (aws_hash_impl h))
                 = hash_emit (aws_hash_vtable h) (aws_hash_impl h)).
    { apply take_ge. unfold size_of in *. lia. }
    rewrite Hf in *.
    prims. exec. rewrite overwrite_all by (unfold size_of in *; lia). done.
Qed.

(** With [truncate_to = 0] the library writes the full digest, for which an
    output of no bytes has no room. *)
Lemma aws_hash_finalize_zero w p h q :
  heap w !! p = Some {| contents := obj_hash h; released := false |} →
  aws_hash_good h = true →
  (0 < aws_hash_digest_size h)%Z →
  aws_hash_finalize p (aws_byte_buf_from_empty_array q 0) 0 w =
    Next AWS_OP_ERR (set_last_error AWS_ERROR_SHORT_BUFFER w).
Proof.
  intros Hp Hg Hn.
  assert (Hc : (0 - 0 <? aws_hash_digest_size h)%Z = true) by lia.
  prims. exec. done.
Qed.

(** A context whose digest was taken is refused, whatever is asked. *)
Lemma aws_hash_finalize_consumed w p h q m :
  heap w !! p = Some {| contents := obj_hash h; released := false |} →
  aws_hash_good h = false →
  aws_hash_finalize p (aws_byte_buf_from_empty_array q m) m w =
    Next AWS_OP_ERR (set_last_error AWS_ERROR_INVALID_STATE w).
Proof.
  intros Hp Hg. prims. exec.
  destruct (negb (m =? 0)%Z && (m <? aws_hash_digest_size h)%Z); exec; done.
Qed.

Lemma hash_update_active w e p h v data :
  resolve w e = Some p →
  heap w !! p = Some {| contents := obj_hash h; released := false |} →
  aws_hash_good h = true →
  bytes_of v = Some data →
  pending w = None →
  get_cb_info_fails (faults w) = false →
  buf_init_fails (faults w) = false →
  ∃ w',
    js_call hash_update [js_external e; v] w = Some (Returns js_undefined, w') ∧
    heap w' !! p =
      Some {| contents := obj_hash (hash_fed h data); released := false |} ∧
    externals w' = externals w ∧ faults w' = faults w ∧ pending w' = None.
Proof.
  intros Hr Hh Hg Hv Hp F1 F2. open_handle Hr.
  destruct v; simplify_eq/=;
    (unfold js_call, hash_update; prims; unfold size_of; exec;
     eexists; split; [reflexivity|]; exec; done).
Qed.

Lemma hash_update_consumed w e p h v data :
  resolve w e = Some p →
  heap w !! p = Some {| contents := obj_hash h; released := false |} →
  aws_hash_good h = false →
  bytes_of v = Some data →
  pending w = None →
  get_cb_info_fails (faults w) = false →
  buf_init_fails (faults w) = false →
  ∃ w',
    js_call hash_update [js_external e; v] w
      = Some (Throws (AwsError AWS_ERROR_INVALID_STATE), w') ∧
    heap w' !! p = Some {| contents := obj_hash h; released := false |} ∧
    externals w' = externals w ∧ faults w' = faults w ∧ pending w' = None.
Proof.
  intros Hr Hh Hg Hv Hp F1 F2. open_handle Hr.
  destruct v; simplify_eq/=;
    (unfold js_call, hash_update, completion_of; prims; exec;
     eexists; split; [reflexivity|]; exec; done).
Qed.

Lemma hash_digest_active w e p h v request :
  resolve w e = Some p →
  heap w !! p = Some {| contents := obj_hash h; released := false |} →
  aws_hash_good h = true →
  size_of (hash_digest_of h) = aws_hash_digest_size h →
  truncate_request v = Some request →
  (0 < emitted_size (aws_hash_digest_size h) request)%Z →
  pending w = None →
  get_cb_info_fails (faults w) = false →
  create_arraybuffer_fails (faults w) = false →
  create_dataview_fails (faults w) = false →
  ∃ d w',
    js_call hash_digest [js_external e; v] w = Some (Returns d, w') ∧
    dataview_bytes w' d =
      Some (take (Z.to_nat (emitted_size (aws_hash_digest_size h) request))
              (hash_digest_of h)) ∧
    heap w' !! p =
      Some {| contents := obj_hash (hash_done h); released := false |} ∧
    externals w' = externals w ∧ faults w' = faults w ∧ pending w' = None.
Proof.
  intros Hr Hh Hg Hn Hv Hm Hp F1 F2 F3. open_handle Hr.
  pose proof (emitted_size_le (aws_hash_digest_size h) request) as Hm'.
  destruct v; simplify_eq/=; rewrite <- ?clamp_is_min in *;
    (unfold js_call, hash_digest; unfold_host; exec;
     erewrite aws_hash_finalize_writes; [| side ..];
     unfold_host; exec;
     do 2 eexists; split; [reflexivity|]; exec;
     rewrite view_whole; done).
Qed.

Lemma hash_digest_zero w e p h k :
  resolve w e = Some p →
  heap w !! p = Some {| contents := obj_hash h; released := false |} →
  aws_hash_good h = true →
  (0 < aws_hash_digest_size h)%Z →
  (k mod 2 ^ 32 = 0)%Z →
  pending w = None →
  get_cb_info_fails (faults w) = false →
  create_arraybuffer_fails (faults w) = false →
  ∃ w',
    js_call hash_digest [js_external e; js_number k] w
      = Some (Throws (AwsError AWS_ERROR_SHORT_BUFFER), w') ∧
    heap w' !! p = Some {| contents := obj_hash h; released := false |}.
Proof.
  intros Hr Hh Hg Hn Hk Hp F1 F2. open_handle Hr.
  assert (Hc : (0 <? aws_hash_digest_size h)%Z = true) by lia.
  unfold js_call, hash_digest, completion_of. unfold_host. exec.
  rewrite Hk. exec.
  erewrite aws_hash_finalize_zero; [| side ..].
  unfold_host. exec.
  eexists; split; [reflexivity|]; exec; done.
Qed.

Lemma hash_digest_consumed w e p h v request :
  resolve w e = Some p →
  heap w !! p = Some {| contents := obj_hash h; released := false |} →
  aws_hash_good h = false →
  truncate_request v = Some request →
  pending w = None →
  get_cb_info_fails (faults w) = false →
  create_arraybuffer_fails (faults w) = false →
  ∃ w',
    js_call hash_digest [js_external e; v] w
      = Some (Throws (AwsError AWS_ERROR_INVALID_STATE), w') ∧
    heap w' !! p = Some {| contents := obj_hash h; released := false |}.
Proof.
  intros Hr Hh Hg Hv Hp F1 F2. open_handle Hr.
  destruct v; simplify_eq/=;
    (unfold js_call, hash_digest, completion_of; unfold_host; exec;
     erewrite aws_hash_finalize_consumed; [| side ..];
     unfold_host; exec;
     eexists; split; [reflexivity|]; exec; done).
Qed.

(** ** The HMAC engine *)

Lemma aws_hmac_finalize_writes w p h q :
  heap w !! p = Some {| contents := obj_hmac h; released := false |} →
  aws_hmac_good h = true →
  heap w !! q =
    Some {| contents :=
              obj_bytes (replicate (Z.to_nat (aws_hmac_digest_size h)) x00);
            released := false |} →
  size_of (hmac_digest_of h) = aws_hmac_digest_size h →
  aws_hmac_finalize p (aws_byte_buf_from_empty_array q (aws_hmac_digest_size h))
      (aws_hmac_digest_size h) w =
    Next AWS_OP_SUCCESS
      (set_heap
         (<[p := {| contents := obj_hmac (hmac_done h); released := false |}]>
            (<[q := {| contents := obj_bytes (hmac_digest_of h);
                       released := false |}]> (heap w))) w).
Proof.
  intros Hp Hg Hq Hn. unfold hmac_digest_of in *.
  assert (p ≠ q) by (intros ->; congruence).
  assert (Hw : (0 + size_of (hmac_emit (aws_hmac_impl h))
                <=? size_of (replicate (Z.to_nat (aws_hmac_digest_size h)) x00))%Z
               = true).
  { rewrite size_of_replicate; unfold size_of in *; lia. }
  prims. exec.
  rewrite andb_false_r. exec.
  rewrite overwrite_all by (unfold size_of in *; lia). done.
Qed.

Lemma aws_hmac_finalize_consumed w p h q m :
  heap w !! p = Some {| contents := obj_hmac h; released := false |} →
  aws_hmac_good h = false →
  aws_hmac_finalize p (aws_byte_buf_from_empty_array q m) m w =
    Next AWS_OP_ERR (set_last_error AWS_ERROR_INVALID_STATE w).
Proof.
  intros Hp Hg. prims. exec.
  destruct (negb (m =? 0)%Z && (m <? aws_hmac_digest_size h)%Z); exec; done.
Qed.

Lemma hmac_update_active w e p h v data :
  resolve w e = Some p →
  heap w !! p = Some {| contents := obj_hmac h; released := false |} →
  aws_hmac_good h = true →
  bytes_of v = Some data →
  pending w = None →
  get_cb_info_fails (faults w) = false →
  buf_init_fails (faults w) = false →
  ∃ w',
    js_call hmac_update [js_external e; v] w = Some (Returns js_undefined, w') ∧
    heap w' !! p =
      Some {| contents := obj_hmac (hmac_fed h data); released := false |} ∧
    externals w' = externals w ∧ faults w' = faults w ∧ pending w' = None.
Proof.
  intros Hr Hh Hg Hv Hp F1 F2. open_handle Hr.
  destruct v; simplify_eq/=;
    (unfold js_call, hmac_update; prims; unfold size_of; exec;
     eexists; split; [reflexivity|]; exec; done).
Qed.

Lemma hmac_update_consumed w e p h v data :
  resolve w e = Some p →
  heap w !! p = Some {| contents := obj_hmac h; released := false |} →
  aws_hmac_good h = false →
  bytes_of v = Some data →
  pending w = None →
  get_cb_info_fails (faults w) = false →
  buf_init_fails (faults w) = false →
  ∃ w',
    js_call hmac_update [js_external e; v] w
      = Some (Throws (AwsError AWS_ERROR_INVALID_STATE), w') ∧
    heap w' !! p = Some {| contents := obj_hmac h; released := false |} ∧
    externals w' = externals w ∧ faults w' = faults w ∧ pending w' = None.
Proof.
  intros Hr Hh Hg Hv Hp F1 F2. open_handle Hr.
  destruct v; simplify_eq/=;
    (unfold js_call, hmac_update, completion_of; prims; exec;
     eexists; split; [reflexivity|]; exec; done).
Qed.

(** A provided length is not looked at: the full digest comes out. *)
Lemma hmac_digest_number w e p h k :
  resolve w e = Some p →
  heap w !! p = Some {| contents := obj_hmac h; released := false |} →
  aws_hmac_good h = true →
  size_of (hmac_digest_of h) = aws_hmac_digest_size h →
  pending w = None →
  get_cb_info_fails (faults w) = false →
  create_arraybuffer_fails (faults w) = false →
  create_dataview_fails (faults w) = false →
  ∃ d w',
    js_call hmac_digest [js_external e; js_number k] w = Some (Returns d, w') ∧
    dataview_bytes w' d = Some (hmac_digest_of h) ∧
    heap w' !! p =
      Some {| contents := obj_hmac (hmac_done h); released := false |} ∧
    externals w' = externals w ∧ faults w' = faults w ∧ pending w' = None.
Proof.
  intros Hr Hh Hg Hn Hp F1 F2 F3. open_handle Hr.
  unfold js_call, hmac_digest. unfold_host. exec.
  erewrite aws_hmac_finalize_writes; [| side ..].
  unfold_host. exec.
  do 2 eexists; split; [reflexivity|]; exec.
  change (Z.to_nat 0) with 0. rewrite drop_0, take_ge by (unfold size_of in *; lia).
  done.
Qed.

(** An absent length is read as a number, which it is not. *)
Lemma hmac_digest_absent w e p h v :
  resolve w e = Some p →
  heap w !! p = Some {| contents := obj_hmac h; released := false |} →
  aws_napi_is_null_or_undefined v = true →
  pending w = None →
  get_cb_info_fails (faults w) = false →
  ∃ w',
    js_call hmac_digest [js_external e; v] w
      = Some (Throws (TypeError
                "truncate_to argument must be undefined or a positive number"),
              w') ∧
    heap w' = heap w ∧ externals w' = externals w.
Proof.
  intros Hr Hh Hv Hp F1. open_handle Hr.
  destruct v; simplify_eq/=;
    (unfold js_call, hmac_digest, completion_of; unfold_host; exec;
     eexists; split; [reflexivity|]; exec; done).
Qed.

Lemma hmac_digest_consumed w e p h k :
  resolve w e = Some p →
  heap w !! p = Some {| contents := obj_hmac h; released := false |} →
  aws_hmac_good h = false →
  pending w = None →
  get_cb_info_fails (faults w) = false →
  create_arraybuffer_fails (faults w) = false →
  ∃ w',
    js_call hmac_digest [js_external e; js_number k] w
      = Some (Throws (AwsError AWS_ERROR_INVALID_STATE), w') ∧
    heap w' !! p = Some {| contents := obj_hmac h; released := false |}.
Proof.
  intros Hr Hh Hg Hp F1 F2. open_handle Hr.
  unfold js_call, hmac_digest, completion_of. unfold_host. exec.
  erewrite aws_hmac_finalize_consumed; [| side ..].
  unfold_host. exec.
  eexists; split; [reflexivity|]; exec; done.
Qed.

(** ** The constructors *)

(** C1. The code does not erase the secret on every exit path of
    [hmac_sha256_new]: whenever the registration of the handle does not
    fail, the transient buffer that carried the secret (the first block the
    call allocates) still holds every byte of the secret after the call.  On
    the success path it is not even released; when the HMAC cannot be
    constructed it is released without being overwritten. *)
Theorem hmac_sha256_new_leaves_secret w v secret :
  bytes_of v = Some secret →
  get_cb_info_fails (faults w) = false →
  buf_init_fails (faults w) = false →
  create_external_fails (faults w) = false →
  ∃ c w',
    js_call hmac_sha256_new [v] w = Some (c, w') ∧
    heap w' !! length (heap w) =
      Some {| contents := obj_bytes secret;
              released := alg_new_fails (faults w) |}.
Proof.
  intros Hv F1 F2 F3.
  destruct (alg_new_fails (faults w)) eqn:F4;
    destruct v; simplify_eq/=;
    (unfold js_call, hmac_sha256_new; prims; unfold size_of; exec;
     do 2 eexists; split; [reflexivity|]; exec; done).
Qed.

(** X17. Only the path on which the registration fails erases the secret:
    there [hmac_sha256_new] destroys the HMAC it made, overwrites the
    transient buffer with zeros and releases it, and no handle is left. *)
Lemma hmac_sha256_new_erases_on_registration_failure w v secret :
  bytes_of v = Some secret →
  pending w = None →
  get_cb_info_fails (faults w) = false →
  buf_init_fails (faults w) = false →
  alg_new_fails (faults w) = false →
  create_external_fails (faults w) = true →
  ∃ w',
    js_call hmac_sha256_new [v] w
      = Some (Throws (Error "Failed create n-api external"), w') ∧
    heap w' !! length (heap w) =
      Some {| contents := obj_bytes (replicate (length secret) x00);
              released := true |} ∧
    (∃ h, heap w' !! S (length (heap w)) =
            Some {| contents := obj_hmac h; released := true |}) ∧
    destroyed w' = S (length (heap w)) :: destroyed w ∧
    externals w' = externals w.
Proof.
  intros Hv Hp F1 F2 F3 F4.
  destruct v; simplify_eq/=;
    (unfold js_call, hmac_sha256_new, completion_of; prims; unfold size_of; exec;
     eexists; split; [reflexivity|]; exec;
     rewrite drop_ge, app_nil_r by lia;
     rewrite !length_app; simpl; rewrite !Nat.add_1_r; exec; eauto).
Qed.

(** C4. When the algorithm context cannot be allocated, none of the three
    constructors raises an error: each returns [NULL], which the caller
    reads as [undefined], with no exception pending. *)
Theorem create_silent_on_init_failure w v secret :
  alg_new_fails (faults w) = true →
  pending w = None →
  bytes_of v = Some secret →
  get_cb_info_fails (faults w) = false →
  buf_init_fails (faults w) = false →
  (∃ w', js_call hash_md5_new [] w = Some (Returns js_undefined, w')) ∧
  (∃ w', js_call hash_sha256_new [] w = Some (Returns js_undefined, w')) ∧
  (∃ w', js_call hmac_sha256_new [v] w = Some (Returns js_undefined, w')).
Proof.
  intros F Hp Hv F1 F2. split_and!.
  - unfold js_call, hash_md5_new, completion_of. prims. exec. eauto.
  - unfold js_call, hash_sha256_new, completion_of. prims. exec. eauto.
  - destruct v; simplify_eq/=;
      (unfold js_call, hmac_sha256_new, completion_of; prims; exec; eauto).
Qed.

(** C5. A failed constructor is not rolled back completely.  When the
    registration of the handle fails, [hash_md5_new] and [hash_sha256_new]
    raise their error but leave the context they allocated live, with no
    handle to it and no destroy run on it; when the HMAC cannot be
    constructed, [hmac_sha256_new] leaves the secret in its released
    buffer. *)
Theorem failed_create_not_rolled_back w v secret :
  pending w = None →
  get_cb_info_fails (faults w) = false →
  buf_init_fails (faults w) = false →
  bytes_of v = Some secret →
  (alg_new_fails (faults w) = false →
   create_external_fails (faults w) = true →
   ∀ f, f = hash_md5_new ∨ f = hash_sha256_new →
     ∃ w' h,
       js_call f [] w
         = Some (Throws (Error "Failed create n-api external"), w') ∧
       heap w' !! length (heap w) =
         Some {| contents := obj_hash h; released := false |} ∧
       externals w' = externals w ∧ destroyed w' = destroyed w) ∧
  (alg_new_fails (faults w) = true →
   ∃ w',
     js_call hmac_sha256_new [v] w = Some (Returns js_undefined, w') ∧
     heap w' !! length (heap w) =
       Some {| contents := obj_bytes secret; released := true |}).
Proof.
  intros Hp F1 F2 Hv. split.
  - intros F3 F4 f [-> | ->].
    + unfold js_call, hash_md5_new, completion_of. prims. exec.
      do 2 eexists; split; [reflexivity|]; exec; done.
    + unfold js_call, hash_sha256_new, completion_of. prims. exec.
      do 2 eexists; split; [reflexivity|]; exec; done.
  - intros F3. destruct v; simplify_eq/=;
      (unfold js_call, hmac_sha256_new, completion_of; prims; exec;
       eexists; split; [reflexivity|]; exec; done).
Qed.

(** ** Quiet computations *)

Create HintDb quiet.

Lemma quiet_step_refl w : quiet_step w w.
Proof. by unfold quiet_step. Qed.

Lemma quiet_step_trans w1 w2 w3 :
  quiet_step w1 w2 → quiet_step w2 w3 → quiet_step w1 w3.
Proof.
  unfold quiet_step. intros (-> & -> & ?) (-> & -> & ?).
  split_and!; [done..|lia].
Qed.

Lemma quiet_ret {A} (a : A) : quiet (mret a).
Proof. intros w. apply quiet_step_refl. Qed.

Lemma quiet_return {A} v : quiet (@return_ P A v).
Proof. intros w. apply quiet_step_refl. Qed.

Lemma quiet_fault {A} : quiet (@fault P A).
Proof. by intros w. Qed.

Lemma quiet_get {A} (f : world → A) : quiet (get f).
Proof. intros w. apply quiet_step_refl. Qed.

Lemma quiet_bind {A B} (m : napi A) (k : A → napi B) :
  quiet m → (∀ a, quiet (k a)) → quiet (m ≫= k).
Proof.
  intros Hm Hk w. specialize (Hm w). unfold mbind, napi_bind.
  destruct (m w) as [a w'| |]; [|done..].
  specialize (Hk a w'). destruct (k a w'); eauto using quiet_step_trans.
Qed.

Lemma quiet_when c (body : napi unit) : quiet body → quiet (when c body).
Proof. destruct c; [done|]. intros _. apply quiet_ret. Qed.

Lemma quiet_on_failure {T} (call : napi (napi_result T)) handler :
  quiet call → quiet handler → quiet (on_failure call handler).
Proof.
  intros Hc Hh. apply quiet_bind; [done|]. intros [v|s]; [apply quiet_ret|done].
Qed.

Lemma quiet_set_heap (f : world → list block) :
  (∀ w, length (heap w) ≤ length (f w)) →
  quiet (modify (λ w, set_heap (f w) w)).
Proof. intros Hf w. unfold quiet_step. simpl. eauto. Qed.

Lemma quiet_alloc o : quiet (alloc o).
Proof.
  intros w. unfold quiet_step. simpl. rewrite length_app.
  split_and!; [done..|lia].
Qed.

Lemma quiet_load p : quiet (load p).
Proof.
  intros w. unfold load.
  destruct (heap w !! p) as [[? []]|]; try done; apply quiet_step_refl.
Qed.

#[local] Hint Resolve quiet_ret quiet_return quiet_fault quiet_get quiet_when
  quiet_on_failure quiet_alloc quiet_load : quiet.

(** Split a computation along its binds and its case analyses, down to the
    computations the hint base knows. *)
Ltac quiet_tac :=
  repeat first
    [ progress eauto with quiet
    | apply quiet_bind; [|intros ?]
    | apply quiet_when
    | apply quiet_on_failure
    | match goal with
      | |- quiet (match ?x with _ => _ end) => destruct x
      | |- quiet (if ?c then _ else _) => destruct c
      end ].

Lemma quiet_store p o : quiet (store p o).
Proof.
  unfold store. quiet_tac. intros w. unfold quiet_step. simpl.
  rewrite length_insert. done.
Qed.

Lemma quiet_release p : quiet (aws_mem_release p).
Proof.
  intros w. unfold aws_mem_release, quiet_step.
  destruct (heap w !! p) as [[? []]|]; simpl; rewrite ?length_insert; done.
Qed.

Lemma quiet_raise e : quiet (aws_raise_error e).
Proof. by intros w. Qed.

Lemma quiet_throw e : quiet (napi_throw e).
Proof. intros w. unfold napi_throw. by destruct (pending w). Qed.

#[local] Hint Resolve quiet_store quiet_release quiet_raise quiet_throw : quiet.

Lemma quiet_load_digest_size p : quiet (load_digest_size p).
Proof. unfold load_digest_size. quiet_tac. Qed.

Lemma quiet_load_bytes p : quiet (load_bytes p).
Proof. unfold load_bytes. quiet_tac. Qed.

#[local] Hint Resolve quiet_load_digest_size quiet_load_bytes : quiet.

Lemma quiet_read_cursor c : quiet (read_cursor c).
Proof. unfold read_cursor. quiet_tac. Qed.

Lemma quiet_write_bytes buf data : quiet (write_bytes buf data).
Proof. unfold write_bytes. quiet_tac. Qed.

Lemma quiet_clean_up buf : quiet (aws_byte_buf_clean_up buf).
Proof. unfold aws_byte_buf_clean_up. quiet_tac. Qed.

#[local] Hint Resolve quiet_read_cursor quiet_write_bytes quiet_clean_up : quiet.

Lemma quiet_get_cb_info n info : quiet (napi_get_cb_info n info).
Proof. unfold napi_get_cb_info. quiet_tac. Qed.

Lemma quiet_throw_error msg : quiet (napi_throw_error msg).
Proof. unfold napi_throw_error. quiet_tac. Qed.

Lemma quiet_throw_type_error msg : quiet (napi_throw_type_error msg).
Proof. unfold napi_throw_type_error. quiet_tac. Qed.

Lemma quiet_throw_last_error : quiet aws_napi_throw_last_error.
Proof. unfold aws_napi_throw_last_error. quiet_tac. Qed.

Lemma quiet_get_value_external v : quiet (napi_get_value_external v).
Proof. unfold napi_get_value_external. quiet_tac. Qed.

Lemma quiet_get_value_uint32 v : quiet (napi_get_value_uint32 v).
Proof. unfold napi_get_value_uint32. quiet_tac. Qed.

Lemma quiet_create_arraybuffer n : quiet (napi_create_arraybuffer n).
Proof. unfold napi_create_arraybuffer. quiet_tac. Qed.

Lemma quiet_create_dataview n ab off : quiet (napi_create_dataview n ab off).
Proof. unfold napi_create_dataview. quiet_tac. Qed.

Lemma quiet_buf_init v : quiet (aws_byte_buf_init_from_napi v).
Proof. unfold aws_byte_buf_init_from_napi. quiet_tac. Qed.

#[local] Hint Resolve quiet_get_cb_info quiet_throw_error
  quiet_throw_type_error quiet_throw_last_error quiet_get_value_external
  quiet_get_value_uint32 quiet_create_arraybuffer quiet_create_dataview
  quiet_buf_init : quiet.

Lemma quiet_vtable_update p c : quiet (vtable_update p c).
Proof.
  unfold vtable_update, hash_vtable_update, hmac_vtable_update. quiet_tac.
Qed.

Lemma quiet_hash_update p c : quiet (aws_hash_update p c).
Proof. apply quiet_vtable_update. Qed.

Lemma quiet_hmac_update p c : quiet (aws_hmac_update p c).
Proof. apply quiet_vtable_update. Qed.

Lemma quiet_hash_finalize p out n : quiet (aws_hash_finalize p out n).
Proof.
  unfold aws_hash_finalize, vtable_finalize_truncated, vtable_finalize,
    hash_finalize_truncated, hash_vtable_finalize, hmac_finalize_truncated,
    hmac_vtable_finalize.
  quiet_tac.
Qed.

Lemma quiet_hmac_finalize p out n : quiet (aws_hmac_finalize p out n).
Proof.
  unfold aws_hmac_finalize, vtable_finalize_truncated, vtable_finalize,
    hash_finalize_truncated, hash_vtable_finalize, hmac_finalize_truncated,
    hmac_vtable_finalize.
  quiet_tac.
Qed.

#[local] Hint Resolve quiet_hash_update quiet_hmac_update quiet_hash_finalize
  quiet_hmac_finalize : quiet.

(** [update] and [digest], of either engine, are quiet on every input. *)
Lemma quiet_callback_hash_update info : quiet (hash_update info).
Proof. unfold hash_update. quiet_tac. Qed.

Lemma quiet_callback_hash_digest info : quiet (hash_digest info).
Proof. unfold hash_digest. quiet_tac. Qed.

Lemma quiet_callback_hmac_update info : quiet (hmac_update info).
Proof. unfold hmac_update. quiet_tac. Qed.

Lemma quiet_callback_hmac_digest info : quiet (hmac_digest info).
Proof. unfold hmac_digest. quiet_tac. Qed.

(** ** The effect of every operation *)

Lemma quiet_effective {A} (m : napi A) : quiet m → effective m.
Proof.
  intros Hm w. specialize (Hm w). destruct (m w); eauto using effect_quiet.
Qed.

(** Close a leaf of a constructor: the final world is explicit. *)
Ltac effect_leaf :=
  first
    [ apply effect_quiet; unfold quiet_step; simpl;
      rewrite ?length_insert, ?length_app; simpl; split_and!; [done..|lia]
    | eapply effect_registered; simpl; [reflexivity|reflexivity|];
      rewrite ?length_insert, ?length_app; simpl; lia
    | eapply effect_cleaned_up; simpl; [reflexivity|reflexivity|];
      rewrite ?length_insert, ?length_app; simpl; lia ].

Lemma effective_new_hash_external a :
  effective (hash ← new_hash a;
             match hash with
             | None => return_ NULL
             | Some hash =>
                 r ← napi_create_external hash cb_hash_finalize;
                 match r with
                 | napi_done node_external => mret (Some node_external)
                 | napi_error _ =>
                     napi_throw_error "Failed create n-api external";;
                     mret NULL
                 end
             end).
Proof.
  intros w. prims. cbn.
  destruct (alg_new_fails (faults w)); cbn; [effect_leaf|].
  destruct (create_external_fails (faults w)); cbn; [|effect_leaf].
  destruct (pending w); cbn; effect_leaf.
Qed.

Lemma effective_hash_md5_new info : effective (hash_md5_new info).
Proof. apply effective_new_hash_external. Qed.

Lemma effective_hash_sha256_new info : effective (hash_sha256_new info).
Proof. apply effective_new_hash_external. Qed.

Lemma effective_hmac_sha256_new info : effective (hmac_sha256_new info).
Proof.
  intros w. unfold hmac_sha256_new. prims. cbn.
  destruct (get_cb_info_fails (faults w)); cbn.
  { destruct (pending w); cbn; effect_leaf. }
  destruct (length info =? 1); cbn.
  2: { destruct (pending w); cbn; effect_leaf. }
  destruct (arg _ 0) as [| | | b | b | | | |]; cbn;
    try (destruct (pending w); cbn; effect_leaf).
  all: destruct (buf_init_fails (faults w)); cbn;
    [destruct (pending w); cbn; effect_leaf|].
  all: destruct (alg_new_fails (faults w)); cbn.
  all: repeat (look; cbn); try effect_leaf.
  all: unfold size_of; repeat (look; cbn).
  all: destruct (create_external_fails (faults w)); cbn; [|effect_leaf].
  all: destruct (pending w); cbn; repeat (look; cbn).
  all: effect_leaf.
Qed.

Lemma effective_collect i : effective (collect i).
Proof.
  intros w. unfold collect. prims. cbn.
  destruct (externals w !! i) as [[p cb c]|] eqn:He; cbn; [|effect_leaf].
  destruct c; cbn; [effect_leaf|].
  destruct cb; cbn.
  3: { by eapply (effect_dropped _ _ i). }
  all: destruct (heap w !! p) as [[[h|h|b] []]|] eqn:Hp; cbn; try done.
  all: rewrite Hp; cbn.
  all: eapply (effect_reclaimed _ _ i); [exact He|done|..]; simpl;
    by rewrite ?length_insert.
Qed.

Lemma effective_callback f info : effective (callback_body f info).
Proof.
  destruct f; simpl;
    eauto using effective_hash_md5_new, effective_hash_sha256_new,
      effective_hmac_sha256_new, quiet_effective, quiet_callback_hash_update,
      quiet_callback_hash_digest, quiet_callback_hmac_update,
      quiet_callback_hmac_digest.
Qed.

Lemma effect_set_pending e w w' : effect w w' → effect w (set_pending e w').
Proof.
  intros [H|p cb H1 H2 H3|p H1 H2 H3|i x H1 H2 H3 H4 H5|i x H1 H2 H3 H4 H5];
    [ by apply effect_quiet
    | by eapply effect_registered
    | by eapply effect_cleaned_up
    | by eapply effect_reclaimed
    | by eapply effect_dropped ].
Qed.

Lemma step_effect o w w' : step o w = Some w' → effect w w'.
Proof.
  destruct o as [f info|i|fl|b]; simpl.
  - unfold js_call. pose proof (effective_callback f info w) as He.
    destruct (callback_body f info w); intros; simplify_eq/=;
      by apply effect_set_pending.
  - pose proof (effective_collect i w) as He.
    destruct (collect i w); intros; by simplify_eq/=.
  - intros [= <-]. by apply effect_quiet.
  - unfold foreign_external. prims. cbn.
    destruct (create_external_fails (faults w)); cbn; intros [= <-];
      effect_leaf.
Qed.

(** ** The life-cycle invariant *)

Lemma lifecycle_initial : lifecycle initial_world.
Proof.
  split; simpl; try (intros; by simplify_list_eq).
  - constructor.
  - intros p Hp. by apply elem_of_nil in Hp.
Qed.

Lemma lookup_snoc_Some {A} (l : list A) (x y : A) (i : nat) :
  (l ++ [x]) !! i = Some y →
  l !! i = Some y ∨ (i = length l ∧ y = x).
Proof.
  intros [H|[Hi H]]%lookup_app_Some; [by left|right].
  destruct (i - length l) as [|n] eqn:Hn; simplify_eq/=.
  split; [lia|done].
Qed.

Lemma lookup_collected_Some (l : list external) (i j : nat) (e y : external) :
  l !! i = Some e →
  <[i := {| ext_data := ext_data e; ext_finalize_cb := ext_finalize_cb e;
            ext_collected := true |}]> l !! j = Some y →
  ∃ y', l !! j = Some y' ∧ ext_data y' = ext_data y ∧
        (ext_collected y = false → j ≠ i ∧ ext_collected y' = false).
Proof.
  intros He [(-> & <- & _)|(Hne & Hj)]%list_lookup_insert_Some.
  - exists e. by split_and!.
  - exists y. split_and!; [done..|]. intros Hy. split; [|done]. by intros ->.
Qed.

Lemma effect_lifecycle w w' : effect w w' → lifecycle w → lifecycle w'.
Proof.
  intros He [Hnd Hda Hea Hal Hun].
  destruct He as [(He & Hd & Hl)|p cb He Hd Hl|p He Hd Hl|i e Hi Hc He Hd Hl
                  |i e Hi Hc He Hd Hl].
  - split; rewrite ?He, ?Hd; try done.
    + intros p Hp. apply Hda in Hp. lia.
    + intros i e Hi. apply Hea in Hi. lia.
  - split; rewrite ?He, ?Hd; try done.
    + intros q Hq. apply Hda in Hq. lia.
    + intros i e [Hi|[-> ->]]%lookup_snoc_Some; simpl; [|lia].
      apply Hea in Hi. lia.
    + intros i e [Hi|[-> ->]]%lookup_snoc_Some; simpl; [by eauto|].
      intros _ Hp. apply Hda in Hp. lia.
    + intros i j e1 e2 [Hi|[-> ->]]%lookup_snoc_Some
        [Hj|[-> ->]]%lookup_snoc_Some; simpl; try done.
      * by eauto.
      * intros Heq. apply Hea in Hi. lia.
      * intros Heq. apply Hea in Hj. lia.
  - split; rewrite ?He, ?Hd; try done.
    + constructor; [|done]. intros Hp. apply Hda in Hp. lia.
    + intros q [->|Hq]%elem_of_cons; [lia|]. apply Hda in Hq. lia.
    + intros i e Hi. apply Hea in Hi. lia.
    + intros i e Hi Hc [Heq|Hq]%elem_of_cons; [|by eapply Hal].
      apply Hea in Hi. lia.
  - split; rewrite ?He, ?Hd, ?Hl; try done.
    + constructor; [|done]. by eapply Hal.
    + intros q [->|Hq]%elem_of_cons; [by eapply Hea|by apply Hda].
    + intros j y (y' & Hj & <- & _)%(lookup_collected_Some _ _ _ _ _ Hi).
      by eapply Hea.
    + intros j y (y' & Hj & <- & Hne)%(lookup_collected_Some _ _ _ _ _ Hi) Hy.
      intros [Heq|Hq]%elem_of_cons.
      * destruct (Hne Hy) as [Hji _]. apply Hji. by eapply (Hun j i y' e).
      * destruct (Hne Hy) as [_ Hy']. by eapply (Hal j y').
    + intros j1 j2 y1 y2
        (y1' & Hj1 & <- & _)%(lookup_collected_Some _ _ _ _ _ Hi)
        (y2' & Hj2 & <- & _)%(lookup_collected_Some _ _ _ _ _ Hi).
      by eapply Hun.
  - split; rewrite ?He, ?Hd, ?Hl; try done.
    + intros j y (y' & Hj & <- & _)%(lookup_collected_Some _ _ _ _ _ Hi).
      by eapply Hea.
    + intros j y (y' & Hj & <- & Hne)%(lookup_collected_Some _ _ _ _ _ Hi) Hy.
      destruct (Hne Hy) as [_ Hy']. by eapply (Hal j y').
    + intros j1 j2 y1 y2
        (y1' & Hj1 & <- & _)%(lookup_collected_Some _ _ _ _ _ Hi)
        (y2' & Hj2 & <- & _)%(lookup_collected_Some _ _ _ _ _ Hi).
      by eapply Hun.
Qed.

Lemma run_lifecycle ops : ∀ w w',
  run ops w = Some w' → lifecycle w → lifecycle w'.
Proof.
  induction ops as [|o ops IH]; intros w w' Hr Hw; simpl in Hr.
  - by simplify_eq.
  - destruct (step o w) as [w1|] eqn:Hs; [|done].
    eauto using effect_lifecycle, step_effect.
Qed.

Lemma destroy_count_absent w p : p ∉ destroyed w → destroy_count w p = 0.
Proof.
  unfold destroy_count. induction (destroyed w) as [|q l IH]; [done|].
  intros [Hq Hl]%not_elem_of_cons. rewrite filter_cons.
  destruct (decide (q = p)); [congruence|by apply IH].
Qed.

Lemma destroy_count_once w p :
  NoDup (destroyed w) → p ∈ destroyed w → destroy_count w p = 1.
Proof.
  unfold destroy_count. induction (destroyed w) as [|q l IH]; intros Hnd Hp.
  - by apply elem_of_nil in Hp.
  - apply NoDup_cons in Hnd as [Hq Hnd]. rewrite filter_cons.
    destruct (decide (q = p)) as [->|Hne].
    + simpl. f_equal.
      clear IH Hp Hnd. induction l as [|r l IH]; [done|].
      apply not_elem_of_cons in Hq as [Hr Hq]. rewrite filter_cons.
      destruct (decide (r = p)); [congruence|by apply IH].
    + apply elem_of_cons in Hp as [->|Hp]; [done|by apply IH].
Qed.

Lemma destroy_count_le w p : NoDup (destroyed w) → destroy_count w p ≤ 1.
Proof.
  intros Hnd. destruct (decide (p ∈ destroyed w)) as [Hp|Hp].
  - by rewrite destroy_count_once.
  - rewrite destroy_count_absent by done. lia.
Qed.

(** A handle that still resolves never leads to a destroyed context: the
    only contexts a script can pass that are not active are consumed ones. *)
Lemma resolved_handle_never_destroyed ops w e p :
  run ops initial_world = Some w →
  resolve w e = Some p →
  destroy_count w p = 0.
Proof.
  intros Hr He. apply destroy_count_absent.
  pose proof (run_lifecycle _ _ _ Hr lifecycle_initial) as Hw.
  unfold resolve in He.
  destruct (externals w !! e) as [x|] eqn:Hx; [|done].
  destruct (ext_collected x) eqn:Hc; simplify_eq.
  by eapply external_alive.
Qed.

(** A leaked context stays leaked: no operation destroys it. *)
Lemma effect_leaked p w w' : effect w w' → leaked p w → leaked p w'.
Proof.
  intros He (Hp & Hd & Hx).
  destruct He as [(He & Hd' & Hl)|q cb He Hd' Hl|q He Hd' Hl|i e Hi Hc He Hd' Hl
                  |i e Hi Hc He Hd' Hl];
    unfold leaked; rewrite ?He, ?Hd', ?Hl.
  - split_and!; [lia|done..].
  - split_and!; [lia|done|].
    intros i e [Hi|[-> ->]]%lookup_snoc_Some; simpl; [by eauto|lia].
  - split_and!; [lia| |done].
    intros [->|Hq]%elem_of_cons; [lia|done].
  - split_and!; [lia| |].
    + intros [Heq|Hq]%elem_of_cons; [by eapply Hx|done].
    + intros j y (y' & Hj & <- & _)%(lookup_collected_Some _ _ _ _ _ Hi).
      by eapply Hx.
  - split_and!; [lia|done|].
    intros j y (y' & Hj & <- & _)%(lookup_collected_Some _ _ _ _ _ Hi).
    by eapply Hx.
Qed.

(** ** Properties that rest on the algorithms' laws *)

Section Laws.
Context {L : cal_provider_laws P}.

Lemma hash_natural_size h :
  hash_well_formed h → size_of (hash_digest_of h) = aws_hash_digest_size h.
Proof.
  unfold hash_well_formed, hash_digest_of, size_of. intros ->.
  apply hash_emit_length.
Qed.

Lemma hmac_natural_size h :
  hmac_well_formed h → size_of (hmac_digest_of h) = aws_hmac_digest_size h.
Proof.
  unfold hmac_well_formed, hmac_digest_of, size_of. intros ->.
  apply hmac_emit_length.
Qed.

Lemma hash_size_pos h : hash_well_formed h → (0 < aws_hash_digest_size h)%Z.
Proof. unfold hash_well_formed. intros ->. by destruct (aws_hash_vtable h). Qed.

Lemma hmac_size_pos h : hmac_well_formed h → (0 < aws_hmac_digest_size h)%Z.
Proof. unfold hmac_well_formed. by intros ->. Qed.

(** *** Truncation *)

(** C2. With [truncate_to] absent the two engines do not behave alike.  On an
    active context [hash_digest] emits the natural digest, all [digest_size]
    bytes of it; [hmac_digest] reads the absent argument as a number, raises
    a type error and emits nothing (the context stays as it was). *)
Theorem digest_absent_truncate_to w v :
  host_ready w →
  aws_napi_is_null_or_undefined v = true →
  (∀ e p h,
     hash_handle w e p h → aws_hash_good h = true →
     ∃ d w',
       js_call hash_digest [js_external e; v] w = Some (Returns d, w') ∧
       dataview_bytes w' d = Some (hash_digest_of h) ∧
       size_of (hash_digest_of h) = aws_hash_digest_size h) ∧
  (∀ e p h,
     hmac_handle w e p h → aws_hmac_good h = true →
     ∃ w',
       js_call hmac_digest [js_external e; v] w
         = Some (Throws (TypeError
                   "truncate_to argument must be undefined or a positive number"),
                 w') ∧
       heap w' = heap w).
Proof.
  intros (Hp & F1 & F2 & F3 & F4) Hv. split.
  - intros e p h (Hr & Hh & Hw) Hg.
    pose proof (hash_natural_size _ Hw) as Hn.
    pose proof (hash_size_pos _ Hw) as Hpos.
    destruct (hash_digest_active w e p h v None) as (d & w' & Hc & Hb & _);
      try done.
    { by destruct v. }
    exists d, w'. split_and!; try done.
    rewrite Hb. simpl. f_equal. apply take_ge. unfold size_of in Hn. lia.
  - intros e p h (Hr & Hh & Hw) Hg.
    destruct (hmac_digest_absent w e p h v) as (w' & Hc & Hh' & _); try done.
    eauto.
Qed.

(** C3. [hmac_digest] does not truncate: for every provided length [k] below
    the natural size, the call on an active context emits the whole natural
    digest, which is not its prefix of [k] bytes. *)
Theorem hmac_digest_ignores_truncate_to w e p h k :
  hmac_handle w e p h → aws_hmac_good h = true →
  host_ready w →
  (0 ≤ k < aws_hmac_digest_size h)%Z →
  ∃ d w',
    js_call hmac_digest [js_external e; js_number k] w = Some (Returns d, w') ∧
    dataview_bytes w' d = Some (hmac_digest_of h) ∧
    dataview_bytes w' d ≠ Some (take (Z.to_nat k) (hmac_digest_of h)).
Proof.
  intros (Hr & Hh & Hw) Hg (Hp & F1 & F2 & F3 & F4) Hk.
  pose proof (hmac_natural_size _ Hw) as Hn.
  destruct (hmac_digest_number w e p h k) as (d & w' & Hc & Hb & _); try done.
  exists d, w'. split_and!; try done.
  rewrite Hb. intros [= Heq]. apply (f_equal length) in Heq.
  rewrite length_take in Heq. unfold size_of in Hn. lia.
Qed.

(** X16. The unkeyed engine does truncate as specified, for every provided
    length but 0: [hash_digest(h, k)] emits the first [min(n, k)] bytes of
    the natural digest of [n] bytes. *)
Lemma hash_digest_truncates w e p h k :
  hash_handle w e p h → aws_hash_good h = true →
  host_ready w →
  (0 < k < 2 ^ 32)%Z →
  ∃ d w',
    js_call hash_digest [js_external e; js_number k] w = Some (Returns d, w') ∧
    dataview_bytes w' d = Some (take (Z.to_nat k) (hash_digest_of h)) ∧
    size_of (take (Z.to_nat k) (hash_digest_of h))
      = (aws_hash_digest_size h `min` k)%Z.
Proof.
  intros (Hr & Hh & Hw) Hg (Hp & F1 & F2 & F3 & F4) Hk.
  pose proof (hash_natural_size _ Hw) as Hn.
  pose proof (hash_size_pos _ Hw) as Hpos.
  assert (Hk' : (k mod 2 ^ 32 = k)%Z) by (apply Z.mod_small; lia).
  destruct (hash_digest_active w e p h (js_number k) (Some k))
    as (d & w' & Hc & Hb & _); try done.
  { simpl. by rewrite Hk'. }
  { simpl. lia. }
  simpl in Hb.
  exists d, w'. split_and!; try done.
  - rewrite Hb. f_equal. unfold size_of in Hn.
    destruct (Z.le_gt_cases (aws_hash_digest_size h) k).
    + rewrite Z.min_l by lia. rewrite !take_ge; [done | lia ..].
    + rewrite Z.min_r by lia. done.
  - unfold size_of in *. rewrite length_take. lia.
Qed.

(** C8. A request for 0 bytes does not yield the empty digest.  On an active
    context [hash_digest] fails with the library's short-buffer error (the
    library reads a [truncate_to] of 0 as "no truncation" and finds no room
    in an output of 0 bytes), and [hmac_digest], which does not look at the
    request, emits the whole natural digest. *)
Theorem digest_truncate_to_zero w :
  host_ready w →
  (∀ e p h,
     hash_handle w e p h → aws_hash_good h = true →
     ∃ w',
       js_call hash_digest [js_external e; js_number 0] w
         = Some (Throws (AwsError AWS_ERROR_SHORT_BUFFER), w')) ∧
  (∀ e p h,
     hmac_handle w e p h → aws_hmac_good h = true →
     ∃ d w',
       js_call hmac_digest [js_external e; js_number 0] w
         = Some (Returns d, w') ∧
       dataview_bytes w' d = Some (hmac_digest_of h) ∧
       hmac_digest_of h ≠ []).
Proof.
  intros (Hp & F1 & F2 & F3 & F4). split.
  - intros e p h (Hr & Hh & Hw) Hg.
    destruct (hash_digest_zero w e p h 0) as (w' & Hc & _);
      eauto using hash_size_pos.
  - intros e p h (Hr & Hh & Hw) Hg.
    pose proof (hmac_natural_size _ Hw) as Hn.
    pose proof (hmac_size_pos _ Hw) as Hpos.
    destruct (hmac_digest_number w e p h 0) as (d & w' & Hc & Hb & _);
      try done.
    exists d, w'. split_and!; try done.
    intros Hnil. rewrite Hnil in Hn. unfold size_of in Hn. simpl in Hn. lia.
Qed.

(** What [hmac_digest] does with a provided [truncate_to] does not depend on
    its value: the argument is only tested for absence. *)
Lemma hmac_digest_provided_unread (w : world) (handle v v' : napi_value) :
  aws_napi_is_null_or_undefined v = false →
  aws_napi_is_null_or_undefined v' = false →
  hmac_digest [handle; v] w = hmac_digest [handle; v'] w.
Proof.
  intros Hv Hv'. unfold hmac_digest. unfold_host. cbn.
  destruct (get_cb_info_fails (faults w)); cbn; [done|].
  rewrite Hv, Hv'. done.
Qed.

(** C10. For every call of [hmac_digest] with a provided [truncate_to] the
    truncation branch is skipped: the call does what it does for any other
    provided value, and on an active context it emits the natural digest,
    all [digest_size] bytes of it.  The branch that holds the clamping
    comparison is entered only for an absent argument (where the conversion
    to a number fails first). *)
Theorem hmac_digest_skips_truncation w e p h k :
  hmac_handle w e p h → aws_hmac_good h = true →
  host_ready w →
  (∀ v, aws_napi_is_null_or_undefined v = false →
        hmac_digest [js_external e; v] w
          = hmac_digest [js_external e; js_number k] w) ∧
  (∃ d w',
     js_call hmac_digest [js_external e; js_number k] w = Some (Returns d, w') ∧
     dataview_bytes w' d = Some (hmac_digest_of h) ∧
     size_of (hmac_digest_of h) = aws_hmac_digest_size h) ∧
  (∀ v, aws_napi_is_null_or_undefined v = true →
        ∃ w', js_call hmac_digest [js_external e; v] w
                = Some (Throws (TypeError
                          "truncate_to argument must be undefined or a positive number"),
                        w')).
Proof.
  intros (Hr & Hh & Hw) Hg (Hp & F1 & F2 & F3 & F4).
  pose proof (hmac_natural_size _ Hw) as Hn.
  split_and!.
  - intros v Hv. by apply hmac_digest_provided_unread.
  - destruct (hmac_digest_number w e p h k) as (d & w' & Hc & Hb & _);
      try done.
    eauto.
  - intros v Hv.
    destruct (hmac_digest_absent w e p h v) as (w' & Hc & _); try done.
    eauto.
Qed.

(** *** Use after the digest was taken *)

(** C6. What a consumed context (one whose digest has been taken) refuses.
    [hash_update] and [hmac_update] fail with the invalid-state error and
    leave the context as it was, and so does a second [hash_digest], with or
    without a length, and a second [hmac_digest] with a length.  A second
    [hmac_digest] with [truncate_to] absent does not: it fails with a type
    error on its argument. *)
Theorem consumed_context_calls w :
  host_ready w →
  (∀ e p h v data vt request,
     hash_handle w e p h → aws_hash_good h = false →
     bytes_of v = Some data → truncate_request vt = Some request →
     (∃ w', js_call hash_update [js_external e; v] w
              = Some (Throws (AwsError AWS_ERROR_INVALID_STATE), w') ∧
            heap w' !! p = Some {| contents := obj_hash h; released := false |}) ∧
     (∃ w', js_call hash_digest [js_external e; vt] w
              = Some (Throws (AwsError AWS_ERROR_INVALID_STATE), w') ∧
            heap w' !! p = Some {| contents := obj_hash h; released := false |})) ∧
  (∀ e p h v data k va,
     hmac_handle w e p h → aws_hmac_good h = false →
     bytes_of v = Some data → aws_napi_is_null_or_undefined va = true →
     (∃ w', js_call hmac_update [js_external e; v] w
              = Some (Throws (AwsError AWS_ERROR_INVALID_STATE), w') ∧
            heap w' !! p = Some {| contents := obj_hmac h; released := false |}) ∧
     (∃ w', js_call hmac_digest [js_external e; js_number k] w
              = Some (Throws (AwsError AWS_ERROR_INVALID_STATE), w') ∧
            heap w' !! p = Some {| contents := obj_hmac h; released := false |}) ∧
     (∃ w', js_call hmac_digest [js_external e; va] w
              = Some (Throws (TypeError
                        "truncate_to argument must be undefined or a positive number"),
                      w') ∧
            heap w' = heap w)).
Proof.
  intros (Hp & F1 & F2 & F3 & F4). split.
  - intros e p h v data vt request (Hr & Hh & Hw) Hg Hv Hvt. split.
    + destruct (hash_update_consumed w e p h v data) as (w' & ? & ? & _);
        eauto.
    + destruct (hash_digest_consumed w e p h vt request) as (w' & ? & ?);
        eauto.
  - intros e p h v data k va (Hr & Hh & Hw) Hg Hv Hva. split_and!.
    + destruct (hmac_update_consumed w e p h v data) as (w' & ? & ? & _);
        eauto.
    + destruct (hmac_digest_consumed w e p h k) as (w' & ? & ?); eauto.
    + destruct (hmac_digest_absent w e p h va) as (w' & ? & ? & _); eauto.
Qed.

(** *** Incremental updates *)

Lemma resolve_same_externals (w w' : world) e :
  externals w' = externals w → resolve w' e = resolve w e.
Proof. unfold resolve. by intros ->. Qed.

Lemma hash_update_step w e p h v data :
  hash_handle w e p h → aws_hash_good h = true → host_ready w →
  bytes_of v = Some data →
  ∃ w',
    step (op_call fn_hash_update [js_external e; v]) w = Some w' ∧
    hash_handle w' e p (hash_fed h data) ∧ host_ready w'.
Proof.
  intros (Hr & Hh & Hw) Hg (Hp & F1 & F2 & F3 & F4) Hv.
  destruct (hash_update_active w e p h v data)
    as (w' & Hc & Hh' & He & Hf & Hp'); try done.
  exists w'. simpl. rewrite Hc. split; [done|].
  unfold hash_handle, host_ready.
  rewrite (resolve_same_externals _ _ _ He), Hf. done.
Qed.

Lemma hmac_update_step w e p h v data :
  hmac_handle w e p h → aws_hmac_good h = true → host_ready w →
  bytes_of v = Some data →
  ∃ w',
    step (op_call fn_hmac_update [js_external e; v]) w = Some w' ∧
    hmac_handle w' e p (hmac_fed h data) ∧ host_ready w'.
Proof.
  intros (Hr & Hh & Hw) Hg (Hp & F1 & F2 & F3 & F4) Hv.
  destruct (hmac_update_active w e p h v data)
    as (w' & Hc & Hh' & He & Hf & Hp'); try done.
  exists w'. simpl. rewrite Hc. split; [done|].
  unfold hmac_handle, host_ready.
  rewrite (resolve_same_externals _ _ _ He), Hf. done.
Qed.

(** The digest after any number of updates is that of the context fed with
    each chunk in turn. *)
Lemma hash_digest_after_updates chunks : ∀ datas w e p h vt request,
  hash_handle w e p h → aws_hash_good h = true → host_ready w →
  Forall2 (λ c d, bytes_of c = Some d) chunks datas →
  truncate_request vt = Some request →
  (0 < emitted_size (aws_hash_digest_size h) request)%Z →
  digest_after fn_hash_update fn_hash_digest e chunks vt w =
    Some (take (Z.to_nat (emitted_size (aws_hash_digest_size h) request))
            (hash_digest_of (foldl hash_fed h datas))).
Proof.
  unfold digest_after.
  induction chunks as [|c chunks IH]; intros datas w e p h vt request
    Hh Hg Hw Hall Hvt Hm.
  - apply Forall2_nil_inv_l in Hall as ->. simpl.
    destruct Hh as (Hr & Hh & Hwf), Hw as (Hp & F1 & F2 & F3 & F4).
    destruct (hash_digest_active w e p h vt request)
      as (d & w' & -> & Hb & _); try done.
    by apply hash_natural_size.
  - apply Forall2_cons_inv_l in Hall as (d & datas' & Hc & Hall & ->).
    destruct (hash_update_step w e p h c d) as (w' & Hs & Hh' & Hw');
      try done.
    cbn [map run]. rewrite Hs. simpl foldl.
    by apply (IH datas' w' e p (hash_fed h d) vt request).
Qed.

Lemma hmac_digest_after_updates chunks : ∀ datas w e p h k,
  hmac_handle w e p h → aws_hmac_good h = true → host_ready w →
  Forall2 (λ c d, bytes_of c = Some d) chunks datas →
  digest_after fn_hmac_update fn_hmac_digest e chunks (js_number k) w =
    Some (hmac_digest_of (foldl hmac_fed h datas)).
Proof.
  unfold digest_after.
  induction chunks as [|c chunks IH]; intros datas w e p h k Hh Hg Hw Hall.
  - apply Forall2_nil_inv_l in Hall as ->. simpl.
    destruct Hh as (Hr & Hh & Hwf), Hw as (Hp & F1 & F2 & F3 & F4).
    destruct (hmac_digest_number w e p h k)
      as (d & w' & -> & Hb & _); try done.
    by apply hmac_natural_size.
  - apply Forall2_cons_inv_l in Hall as (d & datas' & Hc & Hall & ->).
    destruct (hmac_update_step w e p h c d) as (w' & Hs & Hh' & Hw');
      try done.
    cbn [map run]. rewrite Hs. simpl foldl.
    by apply (IH datas' w' e p (hmac_fed h d) k).
Qed.

Lemma hash_fed_app h a b : hash_fed (hash_fed h a) b = hash_fed h (a ++ b).
Proof. unfold hash_fed. simpl. by rewrite hash_absorb_app. Qed.

Lemma hmac_fed_app h a b : hmac_fed (hmac_fed h a) b = hmac_fed h (a ++ b).
Proof. unfold hmac_fed. simpl. by rewrite hmac_absorb_app. Qed.

(** C7. Feeding [a] and then [b] yields the digest that feeding [a ++ b] at
    once yields: for the hash engine under every request that emits bytes,
    for the HMAC engine under every provided length.  Both runs do emit a
    digest, that of the context fed with [a ++ b]. *)
Theorem incremental_update_is_concatenation w va vb vab a b :
  host_ready w →
  bytes_of va = Some a → bytes_of vb = Some b → bytes_of vab = Some (a ++ b) →
  (∀ e p h vt request,
     hash_handle w e p h → aws_hash_good h = true →
     truncate_request vt = Some request →
     (0 < emitted_size (aws_hash_digest_size h) request)%Z →
     digest_after fn_hash_update fn_hash_digest e [va; vb] vt w
       = digest_after fn_hash_update fn_hash_digest e [vab] vt w ∧
     digest_after fn_hash_update fn_hash_digest e [vab] vt w
       = Some (take (Z.to_nat (emitted_size (aws_hash_digest_size h) request))
                 (hash_digest_of (hash_fed h (a ++ b))))) ∧
  (∀ e p h k,
     hmac_handle w e p h → aws_hmac_good h = true →
     digest_after fn_hmac_update fn_hmac_digest e [va; vb] (js_number k) w
       = digest_after fn_hmac_update fn_hmac_digest e [vab] (js_number k) w ∧
     digest_after fn_hmac_update fn_hmac_digest e [vab] (js_number k) w
       = Some (hmac_digest_of (hmac_fed h (a ++ b)))).
Proof.
  intros Hw Ha Hb Hab. split.
  - intros e p h vt request Hh Hg Hvt Hm.
    rewrite (hash_digest_after_updates [va; vb] [a; b] w e p h vt request),
      (hash_digest_after_updates [vab] [a ++ b] w e p h vt request);
      try done; repeat constructor; try done.
    all: simpl; by rewrite ?hash_fed_app.
  - intros e p h k Hh Hg.
    rewrite (hmac_digest_after_updates [va; vb] [a; b] w e p h k),
      (hmac_digest_after_updates [vab] [a ++ b] w e p h k);
      try done; repeat constructor; try done.
    all: simpl; by rewrite ?hmac_fed_app.
Qed.

End Laws.

End Engine.

(** * Further properties of the callbacks *)

Ltac reject :=
  unfold rejects, untouched, js_call, completion_of; prims; exec;
  eexists; split; [reflexivity|done].

Section Coverage.
Context {P : cal_provider}.

(** ** Checks on the arguments *)

(** X1. A call with the wrong number of arguments is refused before anything
    is looked at: the four functions on a handle want exactly two arguments
    (so [truncate_to] must be passed, if only as [undefined]) and
    [hmac_sha256_new] exactly one; extra arguments are refused as well. *)
Theorem wrong_argument_count w info :
  pending w = None →
  get_cb_info_fails (faults w) = false →
  (length info ≠ 2 →
   rejects hash_update info w (Error "hash_update needs exactly 2 arguments") ∧
   rejects hash_digest info w (Error "hash_digest needs exactly 2 arguments") ∧
   rejects hmac_update info w (Error "hmac_update needs exactly 2 arguments") ∧
   rejects hmac_digest info w (Error "hmac_digest needs exactly 2 arguments")) ∧
  (length info ≠ 1 →
   rejects hmac_sha256_new info w
     (Error "hmac_sha256_new needs exactly 1 argument")).
Proof.
  intros Hp F1. split.
  - intros Hn%Nat.eqb_neq. split_and!.
    + unfold hash_update. reject.
    + unfold hash_digest. reject.
    + unfold hmac_update. reject.
    + unfold hmac_digest. reject.
  - intros Hn%Nat.eqb_neq. unfold hmac_sha256_new. reject.
Qed.

(** X2. When the host cannot hand over the arguments of the call, each of the
    five functions that read them throws and touches nothing. *)
Theorem callback_info_unavailable w info :
  pending w = None →
  get_cb_info_fails (faults w) = true →
  ∀ f, f = hash_update ∨ f = hash_digest ∨ f = hmac_sha256_new ∨
       f = hmac_update ∨ f = hmac_digest →
    rejects f info w (Error "Failed to retreive callback information").
Proof.
  intros Hp F1 f [->|[->|[->|[->| ->]]]].
  - unfold hash_update. reject.
  - unfold hash_digest. reject.
  - unfold hmac_sha256_new. reject.
  - unfold hmac_update. reject.
  - unfold hmac_digest. reject.
Qed.

(** X3. A first argument that is not an external is refused by the four
    functions on a handle, whatever the second argument is. *)
Theorem first_argument_not_a_handle w v v2 :
  pending w = None →
  get_cb_info_fails (faults w) = false →
  (∀ id, v ≠ js_external id) →
  rejects hash_update [v; v2] w
    (Error "Failed to extract hash from first argument") ∧
  rejects hash_digest [v; v2] w
    (Error "Failed to extract hash from first argument") ∧
  rejects hmac_update [v; v2] w
    (Error "Failed to extract hmac from first argument") ∧
  rejects hmac_digest [v; v2] w
    (Error "Failed to extract hmac from first argument").
Proof.
  intros Hp F1 Hv.
  destruct v; try (by destruct (Hv id)); split_and!;
    first [ unfold hash_update; reject | unfold hash_digest; reject
          | unfold hmac_update; reject | unfold hmac_digest; reject ].
Qed.

(** X4. Data that is neither a string nor an array is refused with a type
    error before the context is looked at and before anything is allocated:
    by [hash_update] and [hmac_update] for their second argument, by
    [hmac_sha256_new] for the secret. *)
Theorem data_not_bytes w e p v :
  pending w = None →
  get_cb_info_fails (faults w) = false →
  bytes_of v = None →
  (resolve w e = Some p →
   rejects hash_update [js_external e; v] w
     (TypeError "to_hash argument must be a string or array") ∧
   rejects hmac_update [js_external e; v] w
     (TypeError "to_hmac argument must be a string or array")) ∧
  rejects hmac_sha256_new [v] w
    (TypeError "secret argument must be a string or array").
Proof.
  intros Hp F1 Hv. split.
  - intros Hr. open_handle Hr.
    destruct v; simplify_eq/=; split;
      first [ unfold hash_update; reject | unfold hmac_update; reject ].
  - destruct v; simplify_eq/=; unfold hmac_sha256_new; reject.
Qed.

(** X5. [hash_digest] refuses a [truncate_to] that is neither absent nor a
    number with a type error, and the context keeps its state: the digest
    can still be taken. *)
Theorem hash_digest_truncate_to_not_a_number w e p h v :
  pending w = None →
  get_cb_info_fails (faults w) = false →
  resolve w e = Some p →
  heap w !! p = Some {| contents := obj_hash h; released := false |} →
  truncate_request v = None →
  rejects hash_digest [js_external e; v] w
    (TypeError "truncate_to argument must be undefined or a positive number").
Proof.
  intros Hp F1 Hr Hh Hv. open_handle Hr.
  destruct v; simplify_eq/=; unfold hash_digest; reject.
Qed.

(** ** The constructors, when nothing fails *)

Lemma hash_md5_new_registers w info :
  pending w = None →
  alg_new_fails (faults w) = false →
  create_external_fails (faults w) = false →
  ∃ w',
    js_call hash_md5_new info w
      = Some (Returns (js_external (length (externals w))), w') ∧
    hash_handle w' (length (externals w)) (length (heap w)) (fresh_hash MD5) ∧
    externals w' =
      externals w ++ [{| ext_data := length (heap w);
                         ext_finalize_cb := cb_hash_finalize;
                         ext_collected := false |}] ∧
    destroyed w' = destroyed w ∧ faults w' = faults w ∧ pending w' = None.
Proof.
  intros Hp F1 F2.
  unfold js_call, hash_md5_new, completion_of, hash_handle, resolve. prims. exec.
  eexists; split; [reflexivity|]. exec. done.
Qed.

Lemma hash_sha256_new_registers w info :
  pending w = None →
  alg_new_fails (faults w) = false →
  create_external_fails (faults w) = false →
  ∃ w',
    js_call hash_sha256_new info w
      = Some (Returns (js_external (length (externals w))), w') ∧
    hash_handle w' (length (externals w)) (length (heap w)) (fresh_hash SHA256) ∧
    externals w' =
      externals w ++ [{| ext_data := length (heap w);
                         ext_finalize_cb := cb_hash_finalize;
                         ext_collected := false |}] ∧
    destroyed w' = destroyed w ∧ faults w' = faults w ∧ pending w' = None.
Proof.
  intros Hp F1 F2.
  unfold js_call, hash_sha256_new, completion_of, hash_handle, resolve. prims. exec.
  eexists; split; [reflexivity|]. exec. done.
Qed.

(** X6. When nothing fails, [hash_md5_new] and [hash_sha256_new] return a
    new handle that leads to a new active context of the natural digest
    size of the algorithm (16 and 32 bytes), in its initial state, and
    register the hash finalizer for it; nothing is destroyed. *)
Theorem hash_constructors_register w info :
  pending w = None →
  alg_new_fails (faults w) = false →
  create_external_fails (faults w) = false →
  ∀ f a, (f = hash_md5_new ∧ a = MD5) ∨ (f = hash_sha256_new ∧ a = SHA256) →
    ∃ w',
      js_call f info w
        = Some (Returns (js_external (length (externals w))), w') ∧
      hash_handle w' (length (externals w)) (length (heap w)) (fresh_hash a) ∧
      externals w' =
        externals w ++ [{| ext_data := length (heap w);
                           ext_finalize_cb := cb_hash_finalize;
                           ext_collected := false |}] ∧
      destroyed w' = destroyed w.
Proof.
  intros Hp F1 F2 f a [[-> ->]|[-> ->]].
  - destruct (hash_md5_new_registers w info) as (w' & ? & ? & ? & ? & _);
      eauto.
  - destruct (hash_sha256_new_registers w info) as (w' & ? & ? & ? & ? & _);
      eauto.
Qed.

(** X7. When nothing fails, [hmac_sha256_new] returns a new handle that
    leads to a new active HMAC context keyed with the bytes of its argument,
    and registers the HMAC finalizer for it.  The call allocates two blocks:
    the buffer of the secret first, then the context. *)
Theorem hmac_constructor_registers w v secret :
  pending w = None →
  get_cb_info_fails (faults w) = false →
  buf_init_fails (faults w) = false →
  alg_new_fails (faults w) = false →
  create_external_fails (faults w) = false →
  bytes_of v = Some secret →
  ∃ w',
    js_call hmac_sha256_new [v] w
      = Some (Returns (js_external (length (externals w))), w') ∧
    hmac_handle w' (length (externals w)) (S (length (heap w)))
      (fresh_hmac secret) ∧
    externals w' =
      externals w ++ [{| ext_data := S (length (heap w));
                         ext_finalize_cb := cb_hmac_finalize;
                         ext_collected := false |}] ∧
    destroyed w' = destroyed w ∧
    length (heap w') = S (S (length (heap w))).
Proof.
  intros Hp F1 F2 F3 F4 Hv.
  destruct v; simplify_eq/=;
    (unfold js_call, hmac_sha256_new, completion_of, hmac_handle, resolve;
     prims; unfold size_of; exec;
     eexists; split; [reflexivity|]; exec;
     rewrite !length_app; simpl; rewrite !Nat.add_1_r; exec;
     rewrite list_lookup_middle by (rewrite length_app; simpl; lia);
     done).
Qed.

(** ** What [update] and [digest] change *)

(** X8. [hash_update], [hash_digest], [hmac_update] and [hmac_digest] never
    register a handle, never run a destroy routine and never shrink the
    heap, whatever their arguments and whatever fails. *)
Theorem update_and_digest_keep_handles f info w c w' :
  f = fn_hash_update ∨ f = fn_hash_digest ∨
  f = fn_hmac_update ∨ f = fn_hmac_digest →
  js_call (callback_body f) info w = Some (c, w') →
  externals w' = externals w ∧ destroyed w' = destroyed w ∧
  length (heap w) ≤ length (heap w').
Proof.
  intros Hf Hc.
  assert (Hq : quiet (callback_body f info)).
  { destruct Hf as [->|[->|[->| ->]]]; simpl;
      auto using quiet_callback_hash_update, quiet_callback_hash_digest,
        quiet_callback_hmac_update, quiet_callback_hmac_digest. }
  specialize (Hq w). unfold js_call in Hc.
  destruct (callback_body f info w); simplify_eq/=; exact Hq.
Qed.

(** X9. The footprint of an update.  On a live context, active or consumed,
    [hash_update] and [hmac_update] allocate one block, the transient copy
    of the data, and release it before they return, whether the library
    took the data or refused it; apart from the context itself every block
    of the heap is as it was. *)
Theorem update_footprint w e p v data :
  resolve w e = Some p →
  bytes_of v = Some data →
  get_cb_info_fails (faults w) = false →
  buf_init_fails (faults w) = false →
  (∀ h, heap w !! p = Some {| contents := obj_hash h; released := false |} →
     ∃ c w',
       js_call hash_update [js_external e; v] w = Some (c, w') ∧
       length (heap w') = S (length (heap w)) ∧
       heap w' !! length (heap w) =
         Some {| contents := obj_bytes data; released := true |} ∧
       same_blocks_but p w w') ∧
  (∀ h, heap w !! p = Some {| contents := obj_hmac h; released := false |} →
     ∃ c w',
       js_call hmac_update [js_external e; v] w = Some (c, w') ∧
       length (heap w') = S (length (heap w)) ∧
       heap w' !! length (heap w) =
         Some {| contents := obj_bytes data; released := true |} ∧
       same_blocks_but p w w').
Proof.
  intros Hr Hv F1 F2. open_handle Hr. split.
  - intros h Hh. destruct (aws_hash_good h) eqn:Hg;
      destruct (pending w) eqn:Hp;
      destruct v; simplify_eq/=;
      (unfold js_call, hash_update, same_blocks_but; prims; unfold size_of;
       exec; do 2 eexists; split; [reflexivity|]; exec;
       split_and!;
         [ rewrite ?length_insert, ?length_app; simpl; lia
         | done
         | intros q Hq Hne; exec; done ]).
  - intros h Hh. destruct (aws_hmac_good h) eqn:Hg;
      destruct (pending w) eqn:Hp;
      destruct v; simplify_eq/=;
      (unfold js_call, hmac_update, same_blocks_but; prims; unfold size_of;
       exec; do 2 eexists; split; [reflexivity|]; exec;
       split_and!;
         [ rewrite ?length_insert, ?length_app; simpl; lia
         | done
         | intros q Hq Hne; exec; done ]).
Qed.

(** ** Failures of the host inside [digest] *)

(** X10. When the host cannot create the output [ArrayBuffer], [hash_digest]
    and [hmac_digest] throw before the library is asked for the digest: the
    context keeps its state and the digest can still be taken. *)
Theorem digest_without_arraybuffer w e p :
  pending w = None →
  get_cb_info_fails (faults w) = false →
  create_arraybuffer_fails (faults w) = true →
  resolve w e = Some p →
  (∀ h v request,
     heap w !! p = Some {| contents := obj_hash h; released := false |} →
     truncate_request v = Some request →
     rejects hash_digest [js_external e; v] w
       (Error "Failed to create output arraybuffer")) ∧
  (∀ h v,
     heap w !! p = Some {| contents := obj_hmac h; released := false |} →
     aws_napi_is_null_or_undefined v = false →
     rejects hmac_digest [js_external e; v] w
       (Error "Failed to create output arraybuffer")).
Proof.
  intros Hp F1 F2 Hr. open_handle Hr. split.
  - intros h v request Hh Hv.
    destruct v; simplify_eq/=; unfold hash_digest; reject.
  - intros h v Hh Hv.
    destruct v; simplify_eq/=; unfold hmac_digest; reject.
Qed.

Section CoverageLaws.
Context {L : cal_provider_laws P}.

(** X11. When the host cannot create the output [DataView], the digest is
    lost: [hash_digest] and [hmac_digest] throw after the library has
    written the digest, so the context is consumed although the caller got
    no bytes. *)
Theorem digest_without_dataview w e p :
  pending w = None →
  get_cb_info_fails (faults w) = false →
  create_arraybuffer_fails (faults w) = false →
  create_dataview_fails (faults w) = true →
  (∀ h v request,
     hash_handle w e p h → aws_hash_good h = true →
     truncate_request v = Some request →
     (0 < emitted_size (aws_hash_digest_size h) request)%Z →
     ∃ w',
       js_call hash_digest [js_external e; v] w
         = Some (Throws (Error "Failed to create output dataview"), w') ∧
       heap w' !! p =
         Some {| contents := obj_hash (hash_done h); released := false |}) ∧
  (∀ h k,
     hmac_handle w e p h → aws_hmac_good h = true →
     ∃ w',
       js_call hmac_digest [js_external e; js_number k] w
         = Some (Throws (Error "Failed to create output dataview"), w') ∧
       heap w' !! p =
         Some {| contents := obj_hmac (hmac_done h); released := false |}).
Proof.
  intros Hp F1 F2 F3. split.
  - intros h v request (Hr & Hh & Hw) Hg Hv Hm. open_handle Hr.
    pose proof (hash_natural_size _ Hw) as Hn.
    pose proof (emitted_size_le (aws_hash_digest_size h) request) as Hm'.
    destruct v; simplify_eq/=; rewrite <- ?clamp_is_min in *;
      (unfold js_call, hash_digest, completion_of; unfold_host; exec;
       erewrite aws_hash_finalize_writes; [| side ..];
       unfold_host; exec;
       eexists; split; [reflexivity|]; exec; done).
  - intros h k (Hr & Hh & Hw) Hg. open_handle Hr.
    pose proof (hmac_natural_size _ Hw) as Hn.
    unfold js_call, hmac_digest, completion_of. unfold_host. exec.
    erewrite aws_hmac_finalize_writes; [| side ..].
    unfold_host. exec.
    eexists; split; [reflexivity|]; exec; done.
Qed.

(** X12. The footprint of a digest.  A successful [hash_digest] or
    [hmac_digest] allocates one block, the bytes of the returned view, which
    starts at offset 0 of it; apart from the context, which is consumed,
    every block of the heap is as it was. *)
Theorem digest_footprint w e p :
  host_ready w →
  (∀ h v request,
     hash_handle w e p h → aws_hash_good h = true →
     truncate_request v = Some request →
     (0 < emitted_size (aws_hash_digest_size h) request)%Z →
     ∃ w',
       js_call hash_digest [js_external e; v] w
         = Some (Returns
                   (js_dataview (length (heap w)) 0
                      (emitted_size (aws_hash_digest_size h) request)), w') ∧
       length (heap w') = S (length (heap w)) ∧
       same_blocks_but p w w') ∧
  (∀ h k,
     hmac_handle w e p h → aws_hmac_good h = true →
     ∃ w',
       js_call hmac_digest [js_external e; js_number k] w
         = Some (Returns
                   (js_dataview (length (heap w)) 0 (aws_hmac_digest_size h)),
                 w') ∧
       length (heap w') = S (length (heap w)) ∧
       same_blocks_but p w w').
Proof.
  intros (Hp & F1 & F2 & F3 & F4). split.
  - intros h v request (Hr & Hh & Hw) Hg Hv Hm. open_handle Hr.
    pose proof (hash_natural_size _ Hw) as Hn.
    pose proof (emitted_size_le (aws_hash_digest_size h) request) as Hm'.
    destruct v; simplify_eq/=; rewrite <- ?clamp_is_min in *;
      (unfold js_call, hash_digest, completion_of, same_blocks_but;
       unfold_host; exec;
       erewrite aws_hash_finalize_writes; [| side ..];
       unfold_host; exec;
       eexists; split; [reflexivity|]; exec;
       split; [rewrite ?length_insert, ?length_app; simpl; lia|];
       intros q Hq Hne; exec; done).
  - intros h k (Hr & Hh & Hw) Hg. open_handle Hr.
    pose proof (hmac_natural_size _ Hw) as Hn.
    unfold js_call, hmac_digest, completion_of, same_blocks_but.
    unfold_host. exec.
    erewrite aws_hmac_finalize_writes; [| side ..].
    unfold_host. exec.
    eexists; split; [reflexivity|]; exec.
    split; [rewrite ?length_insert, ?length_app; simpl; lia|].
    intros q Hq Hne. exec. done.
Qed.

(** X13. The digest of a hash context can be taken once.  After a
    successful [hash_digest], a further [hash_digest], under any request,
    and a further [hash_update] fail with the invalid-state error. *)
Theorem hash_digest_only_once w e p h v request v2 request2 d data :
  host_ready w →
  hash_handle w e p h → aws_hash_good h = true →
  truncate_request v = Some request →
  (0 < emitted_size (aws_hash_digest_size h) request)%Z →
  truncate_request v2 = Some request2 →
  bytes_of d = Some data →
  ∃ view w1,
    js_call hash_digest [js_external e; v] w = Some (Returns view, w1) ∧
    (∃ w2, js_call hash_digest [js_external e; v2] w1
             = Some (Throws (AwsError AWS_ERROR_INVALID_STATE), w2)) ∧
    (∃ w2, js_call hash_update [js_external e; d] w1
             = Some (Throws (AwsError AWS_ERROR_INVALID_STATE), w2)).
Proof.
  intros (Hp & F1 & F2 & F3 & F4) (Hr & Hh & Hw) Hg Hv Hm Hv2 Hd.
  destruct (hash_digest_active w e p h v request)
    as (view & w1 & Hc & _ & Hh1 & He1 & Hf1 & Hp1);
    auto using hash_natural_size.
  exists view, w1. split; [done|].
  assert (Hr1 : resolve w1 e = Some p).
  { unfold resolve in *. by rewrite He1. }
  split.
  - destruct (hash_digest_consumed w1 e p (hash_done h) v2 request2)
      as (w2 & ? & _); rewrite ?Hf1; eauto.
  - destruct (hash_update_consumed w1 e p (hash_done h) d data)
      as (w2 & ? & _); rewrite ?Hf1; eauto.
Qed.

(** X14. The digest of a context that was never updated is the digest the
    algorithm gives for its initial state, of 16 bytes for MD5 and 32 for
    SHA-256: a script that creates a hash and asks for its digest at once
    gets exactly that. *)
Theorem digest_of_fresh_hash w :
  pending w = None →
  faults w = no_faults →
  ∀ f a, (f = hash_md5_new ∧ a = MD5) ∨ (f = hash_sha256_new ∧ a = SHA256) →
    ∃ e w1,
      js_call f [] w = Some (Returns (js_external e), w1) ∧
      emitted (js_call hash_digest [js_external e; js_undefined] w1)
        = Some (hash_emit a (hash_init a)) ∧
      size_of (hash_emit a (hash_init a)) = alg_digest_size a.
Proof.
  intros Hp Hf f a Hfa.
  assert (∃ w1,
    js_call f [] w = Some (Returns (js_external (length (externals w))), w1) ∧
    hash_handle w1 (length (externals w)) (length (heap w)) (fresh_hash a) ∧
    faults w1 = faults w ∧ pending w1 = None)
    as (w1 & Hc & Hh & Hf1 & Hp1).
  { destruct Hfa as [[-> ->]|[-> ->]].
    - destruct (hash_md5_new_registers w []) as (w1 & ? & ? & _ & _ & ? & ?);
        [done|by rewrite Hf..|]. by exists w1.
    - destruct (hash_sha256_new_registers w []) as (w1 & ? & ? & _ & _ & ? & ?);
        [done|by rewrite Hf..|]. by exists w1. }
  exists (length (externals w)), w1. split; [done|].
  destruct Hh as (Hr & Hh & Hw).
  pose proof (hash_natural_size _ Hw) as Hn.
  destruct (hash_digest_active w1 (length (externals w)) (length (heap w))
              (fresh_hash a) js_undefined None)
    as (d & w2 & -> & Hb & _); rewrite ?Hf1, ?Hf; try done.
  { simpl. by destruct a. }
  simpl. rewrite Hb. simpl. split; [|done].
  f_equal. apply take_ge. unfold size_of, hash_digest_of in Hn. simpl in *. lia.
Qed.

(** X15. However a message is cut into chunks, one or more, the digest is
    that of the message fed at once: for the hash engine under every request
    that emits bytes, for the HMAC engine under every provided length. *)
Theorem chunked_updates_are_one_update w chunks datas whole :
  host_ready w →
  chunks ≠ [] →
  Forall2 (λ c d, bytes_of c = Some d) chunks datas →
  bytes_of whole = Some (concat datas) →
  (∀ e p h vt request,
     hash_handle w e p h → aws_hash_good h = true →
     truncate_request vt = Some request →
     (0 < emitted_size (aws_hash_digest_size h) request)%Z →
     digest_after fn_hash_update fn_hash_digest e chunks vt w
       = digest_after fn_hash_update fn_hash_digest e [whole] vt w ∧
     digest_after fn_hash_update fn_hash_digest e [whole] vt w
       = Some (take (Z.to_nat (emitted_size (aws_hash_digest_size h) request))
                 (hash_digest_of (hash_fed h (concat datas))))) ∧
  (∀ e p h k,
     hmac_handle w e p h → aws_hmac_good h = true →
     digest_after fn_hmac_update fn_hmac_digest e chunks (js_number k) w
       = digest_after fn_hmac_update fn_hmac_digest e [whole] (js_number k) w ∧
     digest_after fn_hmac_update fn_hmac_digest e [whole] (js_number k) w
       = Some (hmac_digest_of (hmac_fed h (concat datas)))).
Proof.
  intros Hw Hne Hall Hwhole.
  assert (Hd : datas ≠ []).
  { intros ->. apply Forall2_nil_inv_r in Hall. done. }
  assert (Hhash : ∀ h, foldl hash_fed h datas = hash_fed h (concat datas)).
  { clear -Hd L. destruct datas as [|d ds]; [done|]. clear Hd. intros h. simpl.
    revert d. induction ds as [|d' ds IH]; intros d; simpl.
    - by rewrite app_nil_r.
    - by rewrite hash_fed_app, IH, app_assoc. }
  assert (Hhmac : ∀ h, foldl hmac_fed h datas = hmac_fed h (concat datas)).
  { clear -Hd L. destruct datas as [|d ds]; [done|]. clear Hd. intros h. simpl.
    revert d. induction ds as [|d' ds IH]; intros d; simpl.
    - by rewrite app_nil_r.
    - by rewrite hmac_fed_app, IH, app_assoc. }
  split.
  - intros e p h vt request Hh Hg Hvt Hm.
    rewrite (hash_digest_after_updates chunks datas w e p h vt request),
      (hash_digest_after_updates [whole] [concat datas] w e p h vt request);
      try done; [|by repeat constructor].
    simpl. by rewrite Hhash.
  - intros e p h k Hh Hg.
    rewrite (hmac_digest_after_updates chunks datas w e p h k),
      (hmac_digest_after_updates [whole] [concat datas] w e p h k);
      try done; [|by repeat constructor].
    simpl. by rewrite Hhmac.
Qed.

End CoverageLaws.

End Coverage.

(** * Memory safety of the calls on a handle *)

Section Safety.
Context {P : cal_provider}.

(** ** The heap keeps its shape *)

Create HintDb steady.

Lemma same_shape_context (b b' : block) :
  shape_of (contents b') = shape_of (contents b) →
  is_context b' = is_context b.
Proof.
  unfold is_context. by destruct (contents b), (contents b').
Qed.

Lemma steady_step_refl w : steady_step w w.
Proof. intros q b Hq. by exists b. Qed.

Lemma steady_step_trans w1 w2 w3 :
  steady_step w1 w2 → steady_step w2 w3 → steady_step w1 w3.
Proof.
  intros H12 H23 q b Hq.
  destruct (H12 q b Hq) as (b2 & Hq2 & Hs2 & Hr2).
  destruct (H23 q b2 Hq2) as (b3 & Hq3 & Hs3 & Hr3).
  exists b3. split_and!; [done|congruence|].
  intros Hc. rewrite Hr3, Hr2; [done..|].
  by rewrite (same_shape_context b b2).
Qed.

Lemma steady_step_same_heap w w' : heap w' = heap w → steady_step w w'.
Proof. intros Hh q b Hq. exists b. by rewrite Hh. Qed.

Lemma steady_step_alloc w b0 : steady_step w (set_heap (heap w ++ [b0]) w).
Proof.
  intros q b Hq. exists b. simpl.
  by rewrite lookup_app_l by by eapply lookup_lt_Some.
Qed.

Lemma steady_step_store w p b o :
  heap w !! p = Some b →
  released b = false →
  shape_of o = shape_of (contents b) →
  steady_step w
    (set_heap (<[p := {| contents := o; released := false |}]> (heap w)) w).
Proof.
  intros Hp Hr Hs q b' Hq. simpl. destruct (decide (q = p)) as [->|Hne].
  - simplify_eq. eexists. rewrite list_lookup_insert_eq by by eapply lookup_lt_Some.
    done.
  - exists b'. by rewrite list_lookup_insert_ne.
Qed.

Lemma steady_step_release w p b :
  heap w !! p = Some b →
  is_context b = false →
  steady_step w
    (set_heap (<[p := {| contents := contents b; released := true |}]> (heap w)) w).
Proof.
  intros Hp Hc q b' Hq. simpl. destruct (decide (q = p)) as [->|Hne].
  - simplify_eq. eexists. rewrite list_lookup_insert_eq by by eapply lookup_lt_Some.
    split_and!; [done..|]. unfold is_context in *. simpl. congruence.
  - exists b'. by rewrite list_lookup_insert_ne.
Qed.

Lemma shaped_steady w w' p s : steady_step w w' → shaped p s w → shaped p s w'.
Proof.
  intros Hs (b & Hp & Hb). destruct (Hs p b Hp) as (b' & Hp' & Hb' & _).
  exists b'. split; [done|congruence].
Qed.

Lemma steady_ret {A} (a : A) : steady (mret a).
Proof. intros w. apply steady_step_refl. Qed.

Lemma steady_return {A} v : steady (@return_ P A v).
Proof. intros w. apply steady_step_refl. Qed.

Lemma steady_fault {A} : steady (@fault P A).
Proof. by intros w. Qed.

Lemma steady_get {A} (f : world → A) : steady (get f).
Proof. intros w. apply steady_step_refl. Qed.

Lemma steady_modify (f : world → world) :
  (∀ w, heap (f w) = heap w) → steady (modify f).
Proof. intros Hf w. by apply steady_step_same_heap. Qed.

Lemma steady_bind {A B} (m : napi A) (k : A → napi B) :
  steady m → (∀ a, steady (k a)) → steady (m ≫= k).
Proof.
  intros Hm Hk w. specialize (Hm w). unfold mbind, napi_bind.
  destruct (m w) as [a w'| |]; [|done..].
  specialize (Hk a w'). destruct (k a w'); eauto using steady_step_trans.
Qed.

Lemma steady_when c (body : napi unit) : steady body → steady (when c body).
Proof. destruct c; [done|]. intros _. apply steady_ret. Qed.

Lemma steady_on_failure {T} (call : napi (napi_result T)) handler :
  steady call → steady handler → steady (on_failure call handler).
Proof.
  intros Hc Hh. apply steady_bind; [done|]. intros [v|s]; [apply steady_ret|done].
Qed.

Lemma steady_alloc o : steady (alloc o).
Proof. intros w. apply steady_step_alloc. Qed.

Lemma steady_load p : steady (load p).
Proof.
  intros w. unfold load.
  destruct (heap w !! p) as [[? []]|]; try done; apply steady_step_refl.
Qed.

Lemma steady_raise e : steady (aws_raise_error e).
Proof. intros w. by apply steady_step_same_heap. Qed.

Lemma steady_throw e : steady (napi_throw e).
Proof.
  intros w. unfold napi_throw.
  destruct (pending w); by apply steady_step_same_heap.
Qed.

#[local] Hint Resolve steady_ret steady_return steady_fault steady_get
  steady_when steady_on_failure steady_alloc steady_load steady_raise
  steady_throw : steady.

Ltac steady_tac :=
  repeat first
    [ progress eauto with steady
    | apply steady_bind; [|intros ?]
    | apply steady_when
    | apply steady_on_failure
    | apply steady_modify; done
    | match goal with
      | |- steady (match ?x with _ => _ end) => destruct x
      | |- steady (if ?c then _ else _) => destruct c
      end ].

Lemma steady_load_digest_size p : steady (load_digest_size p).
Proof. unfold load_digest_size. steady_tac. Qed.

Lemma steady_load_bytes p : steady (load_bytes p).
Proof. unfold load_bytes. steady_tac. Qed.

#[local] Hint Resolve steady_load_digest_size steady_load_bytes : steady.

Lemma steady_read_cursor c : steady (read_cursor c).
Proof. unfold read_cursor. steady_tac. Qed.

Lemma steady_get_cb_info n info : steady (napi_get_cb_info n info).
Proof. unfold napi_get_cb_info. steady_tac. Qed.

Lemma steady_throw_error msg : steady (napi_throw_error msg).
Proof. unfold napi_throw_error. steady_tac. Qed.

Lemma steady_throw_type_error msg : steady (napi_throw_type_error msg).
Proof. unfold napi_throw_type_error. steady_tac. Qed.

Lemma steady_throw_last_error : steady aws_napi_throw_last_error.
Proof. unfold aws_napi_throw_last_error. steady_tac. Qed.

Lemma steady_get_value_external v : steady (napi_get_value_external v).
Proof. unfold napi_get_value_external. steady_tac. Qed.

Lemma steady_get_value_uint32 v : steady (napi_get_value_uint32 v).
Proof. unfold napi_get_value_uint32. steady_tac. Qed.

Lemma steady_create_arraybuffer n : steady (napi_create_arraybuffer n).
Proof. unfold napi_create_arraybuffer. steady_tac. Qed.

Lemma steady_create_dataview n ab off : steady (napi_create_dataview n ab off).
Proof. unfold napi_create_dataview. steady_tac. Qed.

Lemma steady_buf_init v : steady (aws_byte_buf_init_from_napi v).
Proof. unfold aws_byte_buf_init_from_napi. steady_tac. Qed.

#[local] Hint Resolve steady_read_cursor steady_get_cb_info steady_throw_error
  steady_throw_type_error steady_throw_last_error steady_get_value_external
  steady_get_value_uint32 steady_create_arraybuffer steady_create_dataview
  steady_buf_init : steady.

(** *** Writes through a pointer *)

Lemma hoare_steady {A} (m : napi A) post :
  hoare (λ _, True) m post → steady m.
Proof.
  intros Hm w. specialize (Hm w I). destruct (m w); [by destruct Hm|done..].
Qed.

Lemma hoare_bind {A B} pre (m : napi A) mid (k : A → napi B) post :
  hoare pre m mid → (∀ a, hoare (mid a) (k a) post) → hoare pre (m ≫= k) post.
Proof.
  intros Hm Hk w Hw. specialize (Hm w Hw). unfold mbind, napi_bind.
  destruct (m w) as [a w'| |]; [|done..]. destruct Hm as [Hs Ha].
  specialize (Hk a w' Ha). destruct (k a w'); [|by eauto using steady_step_trans..].
  destruct Hk. eauto using steady_step_trans.
Qed.

(** A steady computation keeps the shape of any block. *)
Lemma hoare_keep {A} (m : napi A) p s :
  steady m → hoare (shaped p s) m (λ _, shaped p s).
Proof.
  intros Hm w Hw. specialize (Hm w).
  destruct (m w); eauto using shaped_steady.
Qed.

Lemma hoare_end {A} (m : napi A) pre :
  steady m → hoare pre m (λ _ _, True).
Proof. intros Hm w _. specialize (Hm w). by destruct (m w). Qed.

(** A handler leaves the function. *)
Lemma hoare_handler {A B} (m : napi A) v pre (post : B → world → Prop) :
  steady m → hoare pre (m;; return_ v) post.
Proof.
  intros Hm w _. specialize (Hm w). unfold mbind, napi_bind.
  by destruct (m w).
Qed.

(** What a pointer is read as is what the block holds. *)
Lemma hoare_load p :
  hoare (λ _, True) (load p) (λ o, shaped p (shape_of o)).
Proof.
  intros w _. unfold load.
  destruct (heap w !! p) as [[o []]|] eqn:Hp; try done.
  split; [apply steady_step_refl|]. by eexists.
Qed.

Lemma hoare_load_bytes p :
  hoare (λ _, True) (load_bytes p) (λ _, shaped p shape_bytes).
Proof.
  intros w _. unfold load_bytes, load, mbind, napi_bind.
  destruct (heap w !! p) as [[[h|h|b] []]|] eqn:Hp; try done.
  split; [apply steady_step_refl|]. by eexists.
Qed.

(** A store that keeps the shape of the block it overwrites. *)
Lemma hoare_store p o s :
  shape_of o = s → hoare (shaped p s) (store p o) (λ _ _, True).
Proof.
  intros <- w (b & Hp & Hs). unfold store, load, modify, mbind, napi_bind.
  rewrite Hp. destruct (released b) eqn:Hr; [done|].
  split; [by eapply steady_step_store|done].
Qed.

(** Releasing a block of bytes. *)
Lemma hoare_release p :
  hoare (shaped p shape_bytes) (aws_mem_release p) (λ _ _, True).
Proof.
  intros w (b & Hp & Hs). unfold aws_mem_release. rewrite Hp.
  destruct (released b); [done|].
  split; [|done]. eapply steady_step_release; [done|].
  unfold is_context. by destruct (contents b).
Qed.

Lemma hoare_clean_up buf :
  hoare (shaped (buffer buf) shape_bytes) (aws_byte_buf_clean_up buf)
    (λ _ _, True).
Proof.
  unfold aws_byte_buf_clean_up, when. destruct (allocator buf).
  - apply hoare_release.
  - apply hoare_end, steady_ret.
Qed.

Lemma steady_write_bytes buf data : steady (write_bytes buf data).
Proof.
  unfold write_bytes.
  eapply (hoare_steady _ (λ _ _, True)), hoare_bind; [apply hoare_load_bytes|].
  intros b. destruct (_ <=? _)%Z.
  - by apply hoare_store.
  - apply hoare_end, steady_fault.
Qed.

#[local] Hint Resolve steady_write_bytes : steady.

(** The functions of the two vtables keep the shape of the context they
    are called on. *)
Lemma hoare_hash_vtable_update p h c :
  hoare (shaped p (shape_of (obj_hash h))) (hash_vtable_update p h c)
    (λ _ _, True).
Proof.
  unfold hash_vtable_update.
  destruct (negb _); [apply hoare_end; steady_tac|].
  eapply hoare_bind; [apply hoare_keep; steady_tac|]. intros data.
  eapply hoare_bind; [by apply hoare_store|].
  intros ?. apply hoare_end. steady_tac.
Qed.

Lemma hoare_hmac_vtable_update p h c :
  hoare (shaped p (shape_of (obj_hmac h))) (hmac_vtable_update p h c)
    (λ _ _, True).
Proof.
  unfold hmac_vtable_update.
  destruct (negb _); [apply hoare_end; steady_tac|].
  eapply hoare_bind; [apply hoare_keep; steady_tac|]. intros data.
  eapply hoare_bind; [by apply hoare_store|].
  intros ?. apply hoare_end. steady_tac.
Qed.

Lemma steady_vtable_update p c : steady (vtable_update p c).
Proof.
  unfold vtable_update.
  eapply (hoare_steady _ (λ _ _, True)), hoare_bind; [apply hoare_load|].
  intros [h|h|b].
  - apply hoare_hash_vtable_update.
  - apply hoare_hmac_vtable_update.
  - apply hoare_end, steady_fault.
Qed.

Lemma steady_hash_update p c : steady (aws_hash_update p c).
Proof. apply steady_vtable_update. Qed.

Lemma steady_hmac_update p c : steady (aws_hmac_update p c).
Proof. apply steady_vtable_update. Qed.

(** Writing the digest out and clearing [good], as both finalize paths of
    either engine do. *)
Lemma hoare_emit_and_clear p o s out data :
  shape_of o = s →
  hoare (shaped p s)
    (write_bytes out data;; store p o;; mret AWS_OP_SUCCESS) (λ _ _, True).
Proof.
  intros Hs.
  eapply hoare_bind; [apply hoare_keep; steady_tac|]. intros ?.
  eapply hoare_bind; [by apply hoare_store|].
  intros ?. apply hoare_end. steady_tac.
Qed.

Lemma steady_vtable_finalize p out : steady (vtable_finalize p out).
Proof.
  unfold vtable_finalize.
  eapply (hoare_steady _ (λ _ _, True)), hoare_bind; [apply hoare_load|].
  intros [h|h|b].
  - unfold hash_vtable_finalize.
    destruct (negb _); [apply hoare_end; steady_tac|].
    destruct (_ <? _)%Z; [apply hoare_end; steady_tac|].
    by apply hoare_emit_and_clear.
  - unfold hmac_vtable_finalize.
    destruct (negb _); [apply hoare_end; steady_tac|].
    destruct (_ <? _)%Z; [apply hoare_end; steady_tac|].
    by apply hoare_emit_and_clear.
  - apply hoare_end, steady_fault.
Qed.

Lemma steady_vtable_finalize_truncated p out n :
  steady (vtable_finalize_truncated p out n).
Proof.
  unfold vtable_finalize_truncated.
  eapply (hoare_steady _ (λ _ _, True)), hoare_bind; [apply hoare_load|].
  intros [h|h|b].
  - unfold hash_finalize_truncated.
    destruct (negb _); [apply hoare_end; steady_tac|].
    by apply hoare_emit_and_clear.
  - unfold hmac_finalize_truncated.
    destruct (negb _); [apply hoare_end; steady_tac|].
    by apply hoare_emit_and_clear.
  - apply hoare_end, steady_fault.
Qed.

#[local] Hint Resolve steady_hash_update steady_hmac_update
  steady_vtable_finalize steady_vtable_finalize_truncated : steady.

Lemma steady_hash_finalize p out n : steady (aws_hash_finalize p out n).
Proof. unfold aws_hash_finalize. steady_tac. Qed.

Lemma steady_hmac_finalize p out n : steady (aws_hmac_finalize p out n).
Proof. unfold aws_hmac_finalize. steady_tac. Qed.

#[local] Hint Resolve steady_hash_finalize steady_hmac_finalize : steady.

(** The transient buffer of a data argument is a block of bytes. *)
Lemma hoare_buf_init v handler :
  hoare (λ _, True) handler (λ _ _, False) →
  hoare (λ _, True) (on_failure (aws_byte_buf_init_from_napi v) handler)
    (λ buf, shaped (buffer buf) shape_bytes).
Proof.
  intros Hh. unfold on_failure.
  eapply hoare_bind with
    (mid := λ r w, match r with
                   | napi_done buf => shaped (buffer buf) shape_bytes w
                   | napi_error _ => True
                   end).
  - intros w _. unfold aws_byte_buf_init_from_napi.
    destruct v; try (split; [apply steady_step_refl|done]).
    all: prims; cbn; destruct (buf_init_fails (faults w)); cbn.
    all: try (split; [by apply steady_step_same_heap|done]).
    all: split; [apply steady_step_alloc|]; eexists; simpl;
      by rewrite list_lookup_middle.
  - intros [buf|s].
    + intros w Hw. split; [apply steady_step_refl|done].
    + intros w _. specialize (Hh w I). simpl.
      destruct (handler w); [by destruct Hh|done..].
Qed.

(** The part of [update] that follows the marshaling of the data. *)
Lemma hoare_update_tail (update : napi Z) to_hash :
  steady update →
  hoare (shaped (buffer to_hash) shape_bytes)
    (rc ← update;
     when (aws_failed rc) aws_napi_throw_last_error;;
     aws_byte_buf_clean_up to_hash;;
     mret NULL)
    (λ _ _, True).
Proof.
  intros Hu.
  eapply hoare_bind; [by apply hoare_keep|]. intros rc.
  eapply hoare_bind; [apply hoare_keep; steady_tac|]. intros ?.
  eapply hoare_bind; [apply hoare_clean_up|]. intros ?.
  apply hoare_end. steady_tac.
Qed.

Lemma steady_callback_hash_update info : steady (hash_update info).
Proof.
  unfold hash_update.
  apply steady_bind; [steady_tac|]. intros [n args].
  apply steady_bind; [steady_tac|]. intros _.
  apply steady_bind; [steady_tac|]. intros hash.
  eapply (hoare_steady _ (λ _ _, True)), hoare_bind.
  - apply hoare_buf_init, hoare_handler. steady_tac.
  - intros to_hash. apply hoare_update_tail. steady_tac.
Qed.

Lemma steady_callback_hmac_update info : steady (hmac_update info).
Proof.
  unfold hmac_update.
  apply steady_bind; [steady_tac|]. intros [n args].
  apply steady_bind; [steady_tac|]. intros _.
  apply steady_bind; [steady_tac|]. intros hmac.
  eapply (hoare_steady _ (λ _ _, True)), hoare_bind.
  - apply hoare_buf_init, hoare_handler. steady_tac.
  - intros to_hash. apply hoare_update_tail. steady_tac.
Qed.

Lemma steady_callback_hash_digest info : steady (hash_digest info).
Proof. unfold hash_digest. steady_tac. Qed.

Lemma steady_callback_hmac_digest info : steady (hmac_digest info).
Proof. unfold hmac_digest. steady_tac. Qed.

(** ** Live handles lead to live contexts *)

Lemma context_for_shape cb o o' :
  shape_of o' = shape_of o → context_for cb o → context_for cb o'.
Proof.
  destruct cb, o, o'; simpl; try done;
    unfold hash_well_formed, hmac_well_formed; intros [=]; congruence.
Qed.

Lemma context_for_is_context cb b :
  context_for cb (contents b) → is_context b = true.
Proof. unfold is_context. by destruct cb, (contents b). Qed.

Lemma handles_safe_steady w w' :
  steady_step w w' → externals w' = externals w →
  handles_safe w → handles_safe w'.
Proof.
  intros Hs He Hw i e Hi Hc Hf. rewrite He in Hi.
  destruct (Hw i e Hi Hc Hf) as (b & Hb & Hr & Hk).
  destruct (Hs _ _ Hb) as (b' & Hb' & Hsh & Hrel).
  exists b'. split_and!; [done| |by eapply context_for_shape].
  rewrite Hrel; [done|]. by eapply context_for_is_context.
Qed.

Lemma handles_safe_constructs w w' :
  constructs w w' → handles_safe w → handles_safe w'.
Proof.
  intros [Hs [He|(p & cb & b & He & Hp & Hr & Hk)]] Hw;
    [by eapply handles_safe_steady|].
  intros i e Hi Hc Hf. rewrite He in Hi.
  apply lookup_snoc_Some in Hi as [Hi|[-> ->]]; [|by exists b].
  destruct (Hw i e Hi Hc Hf) as (b0 & Hb & Hr0 & Hk0).
  destruct (Hs _ _ Hb) as (b' & Hb' & Hsh & Hrel).
  exists b'. split_and!; [done| |by eapply context_for_shape].
  rewrite Hrel; [done|]. by eapply context_for_is_context.
Qed.

Lemma handles_safe_set_pending e w :
  handles_safe w → handles_safe (set_pending e w).
Proof. done. Qed.

(** Close a leaf of a constructor: the blocks the call found are where they
    were. *)
Ltac steady_leaf :=
  let q := fresh "q" in let b := fresh "b" in let Hq := fresh "Hq" in
  intros q b Hq; exists b; pose proof (lookup_lt_Some _ _ _ Hq);
  split_and!; [|done..]; simpl;
  repeat first
    [ rewrite list_lookup_insert_ne by (rewrite ?length_insert, ?length_app; simpl; lia)
    | rewrite lookup_app_l by (rewrite ?length_insert, ?length_app; simpl; lia) ];
  done.

Ltac constructs_leaf :=
  split; [steady_leaf|];
  first
    [ left; reflexivity
    | right; eexists _, _, _; split_and!;
      [ reflexivity | simpl; repeat (look; simpl); reflexivity
      | reflexivity | done ] ].

Lemma constructs_new_hash_external a w :
  match (hash ← new_hash a;
         match hash with
         | None => return_ NULL
         | Some hash =>
             r ← napi_create_external hash cb_hash_finalize;
             match r with
             | napi_done node_external => mret (Some node_external)
             | napi_error _ =>
                 napi_throw_error "Failed create n-api external";;
                 mret NULL
             end
         end) w with
  | Next _ w' | Return _ w' => constructs w w'
  | Fault => True
  end.
Proof.
  prims. cbn.
  destruct (alg_new_fails (faults w)); cbn; [constructs_leaf|].
  destruct (create_external_fails (faults w)); cbn; [|constructs_leaf].
  destruct (pending w); cbn; constructs_leaf.
Qed.

Lemma constructs_hmac_sha256_new info w :
  match hmac_sha256_new info w with
  | Next _ w' | Return _ w' => constructs w w'
  | Fault => True
  end.
Proof.
  unfold hmac_sha256_new. prims. cbn.
  destruct (get_cb_info_fails (faults w)); cbn.
  { destruct (pending w); cbn; constructs_leaf. }
  destruct (length info =? 1); cbn.
  2: { destruct (pending w); cbn; constructs_leaf. }
  destruct (arg _ 0) as [| | | b | b | | | |]; cbn;
    try (destruct (pending w); cbn; constructs_leaf).
  all: destruct (buf_init_fails (faults w)); cbn;
    [destruct (pending w); cbn; constructs_leaf|].
  all: destruct (alg_new_fails (faults w)); cbn.
  all: repeat (look; cbn); try constructs_leaf.
  all: unfold size_of; repeat (look; cbn).
  all: destruct (create_external_fails (faults w)); cbn; [|constructs_leaf].
  all: destruct (pending w); cbn; repeat (look; cbn).
  all: constructs_leaf.
Qed.

(** Every call of this file keeps the heap steady. *)
Lemma constructs_callback f info w :
  match callback_body f info w with
  | Next _ w' | Return _ w' => constructs w w'
  | Fault => True
  end.
Proof.
  destruct f; simpl;
    [ apply constructs_new_hash_external
    | apply constructs_new_hash_external
    | pose proof (steady_callback_hash_update info w) as H1;
      pose proof (quiet_callback_hash_update info w) as H2
    | pose proof (steady_callback_hash_digest info w) as H1;
      pose proof (quiet_callback_hash_digest info w) as H2
    | apply constructs_hmac_sha256_new
    | pose proof (steady_callback_hmac_update info w) as H1;
      pose proof (quiet_callback_hmac_update info w) as H2
    | pose proof (steady_callback_hmac_digest info w) as H1;
      pose proof (quiet_callback_hmac_digest info w) as H2 ];
    match goal with
    | |- context [match ?m with _ => _ end] => destruct m
    end; try done; (split; [exact H1|left; apply (proj1 H2)]).
Qed.

(** What the collector does to the heap: it releases the context of the
    external it reclaims and nothing else. *)
Lemma collect_heap i w :
  match collect i w with
  | Next _ w' | Return _ w' =>
      ∀ q, (∀ e, externals w !! i = Some e → ext_data e ≠ q) →
           heap w' !! q = heap w !! q
  | Fault => True
  end.
Proof.
  unfold collect. prims. cbn.
  destruct (externals w !! i) as [[p cb c]|] eqn:He; cbn; [|done].
  destruct c; cbn; [done|].
  destruct cb; cbn; [| |done].
  all: destruct (heap w !! p) as [[[h|h|b] []]|] eqn:Hp; cbn; try done.
  all: rewrite Hp; cbn.
  all: intros q Hq; apply list_lookup_insert_ne; by apply (Hq _ eq_refl).
Qed.

Lemma collect_externals i w e :
  externals w !! i = Some e → ext_collected e = false →
  match collect i w with
  | Next _ w' | Return _ w' =>
      externals w' = <[i := {| ext_data := ext_data e;
                               ext_finalize_cb := ext_finalize_cb e;
                               ext_collected := true |}]> (externals w)
  | Fault => True
  end.
Proof.
  intros He Hc. destruct e as [p cb c]. simpl in *. subst c.
  unfold collect. prims. cbn. rewrite He. cbn.
  destruct cb; cbn; [| |done].
  all: destruct (heap w !! p) as [[[h|h|b] []]|] eqn:Hp; cbn; try done.
  all: by rewrite Hp.
Qed.

Lemma collect_handles_safe i w :
  lifecycle w → handles_safe w →
  match collect i w with
  | Next _ w' | Return _ w' => handles_safe w'
  | Fault => True
  end.
Proof.
  intros Hl Hw.
  pose proof (collect_heap i w) as Hh.
  destruct (externals w !! i) as [e|] eqn:He.
  2: { unfold collect in *. prims. cbn in *. rewrite He in *. by cbn. }
  destruct (ext_collected e) eqn:Hc.
  { unfold collect in *. prims. cbn in *. rewrite He in *. cbn in *.
    rewrite Hc in *. by cbn. }
  pose proof (collect_externals i w e He Hc) as Hx.
  destruct (collect i w) as [u w'|u w'|]; [| |done].
  all: intros j y Hj Hy Hf; rewrite Hx in Hj;
    apply list_lookup_insert_Some in Hj as [(-> & <- & _)|(Hne & Hj)];
      [done|];
    destruct (Hw j y Hj Hy Hf) as (b & Hb & Hr & Hk);
    exists b; split_and!; [|done..]; rewrite Hh; [done|];
    intros e' [= <-] Heq; apply Hne;
    by eapply (external_unshared w Hl i j e y).
Qed.

Lemma step_handles_safe o w w' :
  step o w = Some w' → lifecycle w → handles_safe w → handles_safe w'.
Proof.
  destruct o as [f info|i|fl|b]; simpl.
  - unfold js_call. intros Hs Hl Hw.
    pose proof (constructs_callback f info w) as Hc.
    destruct (callback_body f info w); simplify_eq/=;
      by eapply handles_safe_set_pending, handles_safe_constructs.
  - intros Hs Hl Hw. pose proof (collect_handles_safe i w Hl Hw) as Hc.
    destruct (collect i w); by simplify_eq/=.
  - intros [= <-] _ Hw. done.
  - unfold foreign_external. prims. cbn.
    destruct (create_external_fails (faults w)); cbn;
      intros [= <-] _ Hw j y Hj Hy Hf; simpl in *.
    + destruct (Hw j y Hj Hy Hf) as (b0 & Hb & Hr & Hk).
      exists b0. by rewrite lookup_app_l by by eapply lookup_lt_Some.
    + apply lookup_snoc_Some in Hj as [Hj|[-> ->]]; [|done].
      destruct (Hw j y Hj Hy Hf) as (b0 & Hb & Hr & Hk).
      exists b0. by rewrite lookup_app_l by by eapply lookup_lt_Some.
Qed.

Lemma run_handles_safe ops : ∀ w w',
  run ops w = Some w' → lifecycle w → handles_safe w → handles_safe w'.
Proof.
  induction ops as [|o ops IH]; intros w w' Hr Hl Hw; simpl in Hr.
  - by simplify_eq.
  - destruct (step o w) as [w1|] eqn:Hs; [|done].
    eapply IH; eauto using effect_lifecycle, step_effect, step_handles_safe.
Qed.

Lemma handles_safe_initial : handles_safe initial_world.
Proof. intros i e Hi. by simplify_list_eq. Qed.

(** X18. Whatever a script did before (calls with any arguments, handles of
    one engine given to the functions of the other included, on any host
    failures) and whatever the collector reclaimed, a handle of this file
    that is still live leads to a live, well-formed context of the engine
    whose finalizer it carries: no call frees a context behind a live
    handle or overwrites it with something else. *)
Theorem live_handles_lead_to_live_contexts ops w i e :
  run ops initial_world = Some w →
  externals w !! i = Some e →
  ext_collected e = false →
  match ext_finalize_cb e with
  | cb_hash_finalize => ∃ h, hash_handle w i (ext_data e) h
  | cb_hmac_finalize => ∃ h, hmac_handle w i (ext_data e) h
  | cb_foreign => True
  end.
Proof.
  intros Hr Hi Hc.
  pose proof (run_handles_safe ops _ _ Hr lifecycle_initial handles_safe_initial)
    as Hw.
  destruct (ext_finalize_cb e) eqn:Hf; [| |done].
  all: destruct (Hw i e Hi Hc) as ([o r] & Hb & Hrel & Hk);
    [by rewrite Hf|]; simpl in *; subst r;
    unfold hash_handle, hmac_handle, resolve; rewrite Hi, Hc;
    rewrite Hf in Hk; destruct o; try done; by eexists.
Qed.

(** ** How often a context is destroyed *)

Lemma effect_destroyed_mono w w' p :
  effect w w' → p ∈ destroyed w → p ∈ destroyed w'.
Proof.
  intros [(_ & Hd & _)|? ? _ Hd _|? _ Hd _|? ? _ _ _ Hd _|? ? _ _ _ Hd _] Hp;
    rewrite Hd; try done; by right.
Qed.

Lemma run_destroyed_mono ops : ∀ w w' p,
  run ops w = Some w' → p ∈ destroyed w → p ∈ destroyed w'.
Proof.
  induction ops as [|o ops IH]; intros w w' p Hr Hp; simpl in Hr.
  - by simplify_eq.
  - destruct (step o w) as [w1|] eqn:Hs; [|done].
    eauto using effect_destroyed_mono, step_effect.
Qed.

(** Once destroyed, a context counts one destruction for ever. *)
Lemma destroyed_for_good more w w' p :
  lifecycle w → p ∈ destroyed w → run more w = Some w' →
  destroy_count w' p = 1.
Proof.
  intros Hl Hp Hr. apply destroy_count_once.
  - by eapply destroyed_once, run_lifecycle.
  - by eapply run_destroyed_mono.
Qed.

(** Reclaiming a live handle of this file runs the destroy routine on its
    context. *)
Lemma collect_live w i e :
  handles_safe w →
  externals w !! i = Some e → ext_collected e = false →
  ext_finalize_cb e ≠ cb_foreign →
  ∃ w', step (op_collect i) w = Some w' ∧
        destroyed w' = ext_data e :: destroyed w.
Proof.
  intros Hw He Hc Hf.
  destruct (Hw i e He Hc Hf) as ([o r] & Hb & Hr & Hk).
  destruct e as [p cb c]. simpl in *. subst c r.
  unfold collect. prims. cbn. rewrite He. cbn.
  destruct cb; [| |done]; destruct o; try done; cbn;
    rewrite Hb; cbn; rewrite Hb; cbn; by eexists.
Qed.

Lemma live_context_steady p s w w' :
  steady_step w w' → live_context p s w → live_context p s w'.
Proof.
  intros Hs (b & Hb & Hr & Hc & Hsh).
  destruct (Hs _ _ Hb) as (b' & Hb' & Hsh' & Hrel).
  exists b'. split_and!; [done|by rewrite Hrel| |congruence].
  by rewrite (same_shape_context b b').
Qed.

(** A leaked context stays a live context: no operation reaches it. *)
Lemma step_leaked_live p s o w w' :
  step o w = Some w' → leaked p w → live_context p s w → live_context p s w'.
Proof.
  destruct o as [f info|i|fl|b]; simpl.
  - unfold js_call. intros Hs Hl Hp.
    pose proof (constructs_callback f info w) as Hc.
    destruct (callback_body f info w) as [u w1|u w1|]; simplify_eq/=;
      destruct Hc as [Hc _]; by apply (live_context_steady p s w w1).
  - intros Hs (_ & _ & Hx) Hp. pose proof (collect_heap i w) as Hh.
    destruct (collect i w) as [u w1|u w1|]; simplify_eq/=;
      (destruct Hp as (b & Hb & ?); exists b; rewrite Hh; [done|];
       intros e He; by eapply Hx).
  - intros [= <-] _ Hp. done.
  - unfold foreign_external. prims. cbn.
    destruct (create_external_fails (faults w)); cbn;
      intros [= <-] _ (b0 & Hb & ?); exists b0; simpl;
      by rewrite lookup_app_l by by eapply lookup_lt_Some.
Qed.

Lemma run_leaked_live p s ops : ∀ w w',
  run ops w = Some w' → leaked p w → live_context p s w →
  leaked p w' ∧ live_context p s w'.
Proof.
  induction ops as [|o ops IH]; intros w w' Hr Hl Hp; simpl in Hr.
  - by simplify_eq.
  - destruct (step o w) as [w1|] eqn:Hs; [|done].
    eapply IH; eauto using effect_leaked, step_effect, step_leaked_live.
Qed.

(** The two hash constructors when the handle cannot be registered: the
    context they made stays where it is. *)
Lemma new_hash_external_unregistered a info w :
  alg_new_fails (faults w) = false →
  create_external_fails (faults w) = true →
  ∃ c w1,
    js_call (λ _,
      hash ← new_hash a;
      match hash with
      | None => return_ NULL
      | Some hash =>
          r ← napi_create_external hash cb_hash_finalize;
          match r with
          | napi_done node_external => mret (Some node_external)
          | napi_error _ =>
              napi_throw_error "Failed create n-api external";;
              mret NULL
          end
      end) info w = Some (c, w1) ∧
    heap w1 = heap w ++ [{| contents := obj_hash (fresh_hash a);
                            released := false |}] ∧
    externals w1 = externals w ∧ destroyed w1 = destroyed w.
Proof.
  intros F1 F2. unfold js_call. prims. cbn. rewrite F1. cbn. rewrite F2. cbn.
  destruct (pending w); cbn; by eexists _, _.
Qed.

(** [hmac_sha256_new] when the handle cannot be registered: the context it
    made is destroyed. *)
Lemma hmac_sha256_new_unregistered w v secret :
  bytes_of v = Some secret →
  get_cb_info_fails (faults w) = false →
  buf_init_fails (faults w) = false →
  alg_new_fails (faults w) = false →
  create_external_fails (faults w) = true →
  ∃ c w1,
    js_call hmac_sha256_new [v] w = Some (c, w1) ∧
    destroyed w1 = S (length (heap w)) :: destroyed w ∧
    externals w1 = externals w.
Proof.
  intros Hv F1 F2 F3 F4.
  destruct v; simplify_eq/=;
    (unfold js_call, hmac_sha256_new; prims; unfold size_of; exec;
     destruct (pending w); exec;
     (do 2 eexists; split; [reflexivity|]; simpl;
      rewrite !length_app; simpl; rewrite !Nat.add_1_r; done)).
Qed.

(** C9. The destroy routine never runs twice on a context, and it runs
    exactly once on a context that the collector reclaims or that the
    cleanup path of [hmac_sha256_new] destroys: from then on the count is
    one, whatever follows.  But [hash_md5_new] and [hash_sha256_new] have no
    such cleanup path.  When the handle cannot be registered, the context
    they made stays live with no handle and no finalizer, and along every
    continuation the destroy routine has run on it zero times, not once. *)
Theorem unregistered_hash_context_is_never_destroyed ops w :
  run ops initial_world = Some w →
  (∀ p, destroy_count w p ≤ 1) ∧
  (∀ i e, externals w !! i = Some e → ext_collected e = false →
     ext_finalize_cb e ≠ cb_foreign →
     destroy_count w (ext_data e) = 0 ∧
     ∃ w1, step (op_collect i) w = Some w1 ∧
       ∀ more w2, run more w1 = Some w2 →
         destroy_count w2 (ext_data e) = 1) ∧
  (∀ v secret,
     bytes_of v = Some secret →
     get_cb_info_fails (faults w) = false →
     buf_init_fails (faults w) = false →
     alg_new_fails (faults w) = false →
     create_external_fails (faults w) = true →
     ∃ w1, step (op_call fn_hmac_sha256_new [v]) w = Some w1 ∧
       ∀ more w2, run more w1 = Some w2 →
         destroy_count w2 (S (length (heap w))) = 1) ∧
  (∀ f info,
     f = fn_hash_md5_new ∨ f = fn_hash_sha256_new →
     alg_new_fails (faults w) = false →
     create_external_fails (faults w) = true →
     ∃ w1, step (op_call f info) w = Some w1 ∧
       ∀ more w2, run more w1 = Some w2 →
         (∃ h, heap w2 !! length (heap w) =
                 Some {| contents := obj_hash h; released := false |}) ∧
         (∀ i e, externals w2 !! i = Some e → ext_data e ≠ length (heap w)) ∧
         destroy_count w2 (length (heap w)) = 0).
Proof.
  intros Hr.
  pose proof (run_lifecycle _ _ _ Hr lifecycle_initial) as Hl.
  pose proof (run_handles_safe _ _ _ Hr lifecycle_initial handles_safe_initial)
    as Hw.
  split_and!.
  - intros p. apply destroy_count_le. by destruct Hl.
  - intros i e He Hc Hf. split.
    { apply destroy_count_absent. by eapply external_alive. }
    destruct (collect_live w i e Hw He Hc Hf) as (w1 & Hs & Hd).
    exists w1. split; [done|]. intros more w2 Hm.
    eapply (destroyed_for_good more w1); [|rewrite Hd; by left|done].
    eauto using effect_lifecycle, step_effect.
  - intros v secret Hv F1 F2 F3 F4.
    destruct (hmac_sha256_new_unregistered w v secret)
      as (c & w1 & Hc & Hd & _); [done..|].
    exists w1. simpl. rewrite Hc. split; [done|]. intros more w2 Hm.
    eapply (destroyed_for_good more w1); [|rewrite Hd; by left|done].
    eapply effect_lifecycle; [|done].
    apply (step_effect (op_call fn_hmac_sha256_new [v])). simpl. by rewrite Hc.
  - intros f info Hf F1 F2.
    assert (∃ a c w1,
      js_call (callback_body f) info w = Some (c, w1) ∧
      heap w1 = heap w ++ [{| contents := obj_hash (fresh_hash a);
                              released := false |}] ∧
      externals w1 = externals w ∧ destroyed w1 = destroyed w)
      as (a & c & w1 & Hc & Hh & Hx & Hd).
    { destruct Hf as [-> | ->].
      - exists MD5. by apply (new_hash_external_unregistered MD5).
      - exists SHA256. by apply (new_hash_external_unregistered SHA256). }
    exists w1. simpl. rewrite Hc. split; [done|]. intros more w2 Hm.
    destruct (run_leaked_live (length (heap w))
                (shape_of (obj_hash (fresh_hash a))) more w1 w2 Hm)
      as ((_ & Hnd & Hno) & (b & Hb & Hrel & _ & Hsh)).
    { unfold leaked. rewrite Hh, Hx, Hd, length_app. simpl. split_and!.
      - lia.
      - intros Hp. apply (destroyed_allocated w Hl) in Hp. lia.
      - intros i e Hi Heq. apply (external_allocated w Hl) in Hi. lia. }
    { eexists. rewrite Hh, list_lookup_middle by done. by split_and!. }
    split_and!; [|done|by apply destroy_count_absent].
    destruct b as [[h| |] r]; simplify_eq/=. by exists h.
Qed.

(** ** A context in the hands of the other engine *)

(** The two entry points are the same code. *)
Lemma aws_hmac_finalize_is_hash_finalize :
  aws_hmac_finalize = aws_hash_finalize.
Proof. reflexivity. Qed.

(** [aws_hash_finalize] on a good HMAC context, into an empty zeroed output
    of exactly [m] bytes with [truncate_to = m]: the HMAC's own finalize
    runs, and the first [m] bytes of its digest are written. *)
Lemma aws_hash_finalize_hmac_writes w p h q m :
  heap w !! p = Some {| contents := obj_hmac h; released := false |} →
  aws_hmac_good h = true →
  heap w !! q =
    Some {| contents := obj_bytes (replicate (Z.to_nat m) x00);
            released := false |} →
  (0 < m ≤ aws_hmac_digest_size h)%Z →
  size_of (hmac_digest_of h) = aws_hmac_digest_size h →
  aws_hash_finalize p (aws_byte_buf_from_empty_array q m) m w =
    Next AWS_OP_SUCCESS
      (set_heap
         (<[p := {| contents := obj_hmac (hmac_done h); released := false |}]>
            (<[q := {| contents :=
                         obj_bytes (take (Z.to_nat m) (hmac_digest_of h));
                       released := false |}]> (heap w))) w).
Proof.
  intros Hp Hg Hq Hm Hn. unfold hmac_digest_of in *.
  assert (p ≠ q) by (intros ->; congruence).
  assert (Hz : (m =? 0)%Z = false) by lia.
  assert (Hc : (m - 0 <? m)%Z = false) by lia.
  assert (Hw : (0 + size_of (take (Z.to_nat m) (hmac_emit (aws_hmac_impl h)))
                <=? size_of (replicate (Z.to_nat m) x00))%Z = true).
  { rewrite size_of_take, size_of_replicate by lia. lia. }
  destruct (Z.ltb_spec m (aws_hmac_digest_size h)) as [Hlt|Hge].
  - assert (Hl : (m <? aws_hmac_digest_size h)%Z = true) by lia.
    prims. exec.
    rewrite overwrite_all by (rewrite length_take; unfold size_of in *; lia).
    done.
  - assert (m = aws_hmac_digest_size h) as -> by lia.
    assert (Hf : take (Z.to_nat (aws_hmac_digest_size h))
                   (hmac_emit (aws_hmac_impl h))
                 = hmac_emit (aws_hmac_impl h)).
    { apply take_ge. unfold size_of in *. lia. }
    rewrite Hf in *.
    prims. exec. rewrite overwrite_all by (unfold size_of in *; lia). done.
Qed.

Lemma aws_hash_finalize_hmac_zero w p h q :
  heap w !! p = Some {| contents := obj_hmac h; released := false |} →
  aws_hmac_good h = true →
  (0 < aws_hmac_digest_size h)%Z →
  aws_hash_finalize p (aws_byte_buf_from_empty_array q 0) 0 w =
    Next AWS_OP_ERR (set_last_error AWS_ERROR_SHORT_BUFFER w).
Proof.
  intros Hp Hg Hn.
  assert (Hc : (0 - 0 <? aws_hmac_digest_size h)%Z = true) by lia.
  prims. exec. done.
Qed.

Lemma aws_hash_finalize_hmac_consumed w p h q m :
  heap w !! p = Some {| contents := obj_hmac h; released := false |} →
  aws_hmac_good h = false →
  aws_hash_finalize p (aws_byte_buf_from_empty_array q m) m w =
    Next AWS_OP_ERR (set_last_error AWS_ERROR_INVALID_STATE w).
Proof.
  intros Hp Hg. prims. exec.
  destruct (negb (m =? 0)%Z && (m <? aws_hmac_digest_size h)%Z); exec; done.
Qed.

(** ** Every operation runs to its return *)

Lemma update_defined w e p o cb v :
  resolve w e = Some p →
  heap w !! p = Some {| contents := o; released := false |} →
  context_for cb o →
  is_Some (js_call hash_update [js_external e; v] w) ∧
  is_Some (js_call hmac_update [js_external e; v] w).
Proof.
  intros Hr Hh Hk. open_handle Hr.
  destruct o as [h|h|b]; [| |by destruct cb].
  all: split; [unfold js_call, hash_update|unfold js_call, hmac_update].
  all: prims; unfold size_of; cbn.
  all: destruct (get_cb_info_fails (faults w)); cbn;
    [destruct (pending w); cbn; done|].
  all: look; cbn.
  all: destruct v; cbn; try (destruct (pending w); cbn; done).
  all: destruct (buf_init_fails (faults w)); cbn;
    [destruct (pending w); cbn; done|].
  all: repeat (look; cbn).
  all: first [destruct (aws_hash_good h)|destruct (aws_hmac_good h)]; cbn;
    repeat (look; cbn).
  all: try (destruct (pending w); cbn; repeat (look; cbn)).
  all: done.
Qed.

(** A call that is refused before the context is looked at. *)
Ltac refused w :=
  unfold_host; cbn; destruct (get_cb_info_fails (faults w)); cbn;
  [destruct (pending w); cbn; done|];
  try (look; cbn); destruct (pending w); cbn; done.

Ltac refused_at_once w :=
  unfold_host; cbn; destruct (get_cb_info_fails (faults w)); cbn;
  destruct (pending w); cbn; done.

(** A call of [update] or [digest] is refused, or reaches the context of a
    live handle. *)
Lemma handle_call_cases f info w :
  takes_handle f = true →
  (∀ e p v, info = [js_external e; v] → resolve w e = Some p →
            is_Some (js_call (callback_body f) info w)) →
  is_Some (js_call (callback_body f) info w).
Proof.
  intros Hf Hlive. destruct (decide (length info = 2)) as [Hlen|Hlen].
  - destruct info as [|a [|v [|]]]; simplify_eq/=.
    destruct a as [| | | | | |id| |].
    7: { destruct (resolve w id) as [p|] eqn:Hr; [by eapply Hlive|].
         unfold resolve in Hr.
         clear Hlive.
         destruct (externals w !! id) as [[? ? []]|] eqn:He; simplify_eq/=;
           destruct f; try done; cbv [callback_body];
           unfold js_call, hash_update, hash_digest, hmac_update, hmac_digest;
           refused w. }
    all: clear Hlive; destruct f; try done; cbv [callback_body];
      unfold js_call, hash_update, hash_digest, hmac_update, hmac_digest;
      refused_at_once w.
  - apply Nat.eqb_neq in Hlen. clear Hlive.
    destruct f; try done; cbv [callback_body];
      unfold js_call, hash_update, hash_digest, hmac_update, hmac_digest;
      refused w.
Qed.

Lemma new_hash_external_defined a info w :
  is_Some (js_call (λ _,
    hash ← new_hash a;
    match hash with
    | None => return_ NULL
    | Some hash =>
        r ← napi_create_external hash cb_hash_finalize;
        match r with
        | napi_done node_external => mret (Some node_external)
        | napi_error _ =>
            napi_throw_error "Failed create n-api external";;
            mret NULL
        end
    end) info w).
Proof.
  unfold js_call. prims. cbn.
  destruct (alg_new_fails (faults w)); cbn; [done|].
  destruct (create_external_fails (faults w)); cbn; [|done].
  destruct (pending w); cbn; done.
Qed.

Lemma hmac_sha256_new_defined info w :
  is_Some (js_call hmac_sha256_new info w).
Proof.
  unfold js_call, hmac_sha256_new. prims. cbn.
  destruct (get_cb_info_fails (faults w)); cbn.
  { destruct (pending w); cbn; done. }
  destruct (length info =? 1); cbn.
  2: { destruct (pending w); cbn; done. }
  destruct (arg _ 0) as [| | | b | b | | | |]; cbn;
    try (destruct (pending w); cbn; done).
  all: destruct (buf_init_fails (faults w)); cbn;
    [destruct (pending w); cbn; done|].
  all: destruct (alg_new_fails (faults w)); cbn.
  all: repeat (look; cbn); try done.
  all: unfold size_of; repeat (look; cbn).
  all: destruct (create_external_fails (faults w)); cbn; [|done].
  all: destruct (pending w); cbn; repeat (look; cbn).
  all: done.
Qed.

(** The collector never frees a context twice, nor one that is not there. *)
Lemma collect_defined i w : handles_safe w → is_Some (step (op_collect i) w).
Proof.
  intros Hw.
  destruct (externals w !! i) as [e|] eqn:He.
  2: { simpl. unfold collect. prims. cbn. by rewrite He. }
  destruct (ext_collected e) eqn:Hc.
  { simpl. unfold collect. prims. cbn. rewrite He. cbn. by rewrite Hc. }
  destruct (ext_finalize_cb e) eqn:Hf.
  3: { simpl. unfold collect. prims. cbn. rewrite He. cbn. rewrite Hc. cbn.
       by rewrite Hf. }
  all: destruct (collect_live w i e Hw He Hc) as (w' & -> & _);
    [by rewrite Hf|done].
Qed.

Section SafetyLaws.
Context {L : cal_provider_laws P}.

(** X20. Nothing in [update] and [digest] checks which engine a handle
    belongs to, and the library serves a context through its own vtable
    whichever entry point it is handed to.  On a live HMAC handle,
    [hash_update] feeds the HMAC and [hash_digest] emits the HMAC digest,
    truncated as requested or whole when [truncate_to] is absent; on a live
    hash handle, [hmac_update] feeds the hash and [hmac_digest] emits the
    whole hash digest. *)
Theorem handle_of_the_other_engine w e p :
  host_ready w →
  (∀ h, hmac_handle w e p h → aws_hmac_good h = true →
     (∀ v request,
        truncate_request v = Some request →
        (0 < emitted_size (aws_hmac_digest_size h) request)%Z →
        ∃ d w',
          js_call hash_digest [js_external e; v] w = Some (Returns d, w') ∧
          dataview_bytes w' d =
            Some (take (Z.to_nat (emitted_size (aws_hmac_digest_size h) request))
                    (hmac_digest_of h)) ∧
          heap w' !! p =
            Some {| contents := obj_hmac (hmac_done h); released := false |}) ∧
     (∀ v data,
        bytes_of v = Some data →
        ∃ w',
          js_call hash_update [js_external e; v] w
            = Some (Returns js_undefined, w') ∧
          heap w' !! p =
            Some {| contents := obj_hmac (hmac_fed h data);
                    released := false |})) ∧
  (∀ h, hash_handle w e p h → aws_hash_good h = true →
     (∀ k,
        ∃ d w',
          js_call hmac_digest [js_external e; js_number k] w
            = Some (Returns d, w') ∧
          dataview_bytes w' d = Some (hash_digest_of h) ∧
          heap w' !! p =
            Some {| contents := obj_hash (hash_done h); released := false |}) ∧
     (∀ v data,
        bytes_of v = Some data →
        ∃ w',
          js_call hmac_update [js_external e; v] w
            = Some (Returns js_undefined, w') ∧
          heap w' !! p =
            Some {| contents := obj_hash (hash_fed h data);
                    released := false |})).
Proof.
  intros (Hp & F1 & F2 & F3 & F4). split.
  - intros h (Hr & Hh & Hwf) Hg. open_handle Hr.
    pose proof (hmac_natural_size h Hwf) as Hn. split.
    + intros v request Hv Hm.
      pose proof (emitted_size_le (aws_hmac_digest_size h) request) as Hm'.
      destruct v; simplify_eq/=; rewrite <- ?clamp_is_min in *;
        (unfold js_call, hash_digest; unfold_host; exec;
         erewrite aws_hash_finalize_hmac_writes; [| side ..];
         unfold_host; exec;
         do 2 eexists; split; [reflexivity|]; exec;
         rewrite view_whole; done).
    + intros v data Hv.
      destruct v; simplify_eq/=;
        (unfold js_call, hash_update; prims; unfold size_of; exec;
         eexists; split; [reflexivity|]; exec; done).
  - intros h (Hr & Hh & Hwf) Hg. open_handle Hr.
    pose proof (hash_natural_size h Hwf) as Hn.
    pose proof (hash_size_pos h Hwf) as Hpos. split.
    + intros k.
      unfold js_call, hmac_digest. unfold_host. exec.
      rewrite aws_hmac_finalize_is_hash_finalize.
      erewrite aws_hash_finalize_writes; [| side; try lia ..].
      unfold_host. exec.
      do 2 eexists; split; [reflexivity|]; exec.
      rewrite view_whole, take_ge by (unfold size_of in *; lia). done.
    + intros v data Hv.
      destruct v; simplify_eq/=;
        (unfold js_call, hmac_update; prims; unfold size_of; exec;
         eexists; split; [reflexivity|]; exec; done).
Qed.

(** The library's finalize on a live, well-formed context of either engine,
    into an empty zeroed output of [m] bytes with [truncate_to = m]. *)
Lemma finalize_defined w p o cb q m :
  heap w !! p = Some {| contents := o; released := false |} →
  context_for cb o →
  heap w !! q =
    Some {| contents := obj_bytes (replicate (Z.to_nat m) x00);
            released := false |} →
  (0 ≤ m)%Z →
  (match o with
   | obj_hash h => m ≤ aws_hash_digest_size h
   | obj_hmac h => m ≤ aws_hmac_digest_size h
   | obj_bytes _ => True
   end)%Z →
  ∃ rc w',
    aws_hash_finalize p (aws_byte_buf_from_empty_array q m) m w = Next rc w' ∧
    pending w' = pending w ∧ faults w' = faults w.
Proof.
  intros Hp Hk Hq Hm Hn. destruct cb, o as [h|h|b]; try done; simpl in Hk.
  - pose proof (hash_natural_size h Hk). pose proof (hash_size_pos h Hk).
    destruct (aws_hash_good h) eqn:Hg;
      [destruct (decide (m = 0%Z)) as [->|Hm0]|].
    + erewrite aws_hash_finalize_zero by done. by eexists _, _.
    + erewrite aws_hash_finalize_writes; [by eexists _, _|done..|lia|done].
    + erewrite aws_hash_finalize_consumed by done. by eexists _, _.
  - pose proof (hmac_natural_size h Hk). pose proof (hmac_size_pos h Hk).
    destruct (aws_hmac_good h) eqn:Hg;
      [destruct (decide (m = 0%Z)) as [->|Hm0]|].
    + erewrite aws_hash_finalize_hmac_zero by done. by eexists _, _.
    + erewrite aws_hash_finalize_hmac_writes; [by eexists _, _|done..|lia|done].
    + erewrite aws_hash_finalize_hmac_consumed by done. by eexists _, _.
Qed.

Lemma digest_defined w e p o cb v :
  resolve w e = Some p →
  heap w !! p = Some {| contents := o; released := false |} →
  context_for cb o →
  is_Some (js_call hash_digest [js_external e; v] w) ∧
  is_Some (js_call hmac_digest [js_external e; v] w).
Proof.
  intros Hr Hh Hk. open_handle Hr.
  assert (Hpos : (match o with
                  | obj_hash h => 0 < aws_hash_digest_size h
                  | obj_hmac h => 0 < aws_hmac_digest_size h
                  | obj_bytes _ => True
                  end)%Z).
  { destruct cb, o; try done; simpl in Hk;
      [by apply hash_size_pos|by apply hmac_size_pos]. }
  split; [unfold js_call, hash_digest|unfold js_call, hmac_digest].
  all: change aws_hmac_finalize with aws_hash_finalize.
  all: unfold_host; cbn.
  all: destruct (get_cb_info_fails (faults w)); cbn;
    [destruct (pending w); cbn; done|].
  all: look; cbn; look; cbn.
  all: destruct o as [h|h|b]; [| |by destruct cb]; cbn.
  all: destruct v as [| |k| | | | | |]; cbn;
    try (destruct (pending w); cbn; done).
  all: destruct (create_arraybuffer_fails (faults w)); cbn;
    [destruct (pending w); cbn; done|].
  all: match goal with
       | |- context [aws_hash_finalize ?P0 (aws_byte_buf_from_empty_array ?Q0 ?M0)
                       _ ?W0] =>
           edestruct finalize_defined
             with (w := W0) (p := P0) (cb := cb) (q := Q0) (m := M0)
             as (rc & w' & Heq & Hp' & Hf');
             [ side | done | side
             | simpl in Hpos; try pose proof (Z.mod_pos_bound k (2 ^ 32));
               repeat case_match; lia
             | simpl in Hpos |- *; try pose proof (Z.mod_pos_bound k (2 ^ 32));
               repeat case_match; lia
             | rewrite Heq ]
       end.
  all: destruct w' as [? ? pw ? fw ?]; simpl in Hp', Hf'; subst pw fw.
  all: cbn; destruct (rc =? 0)%Z; cbn.
  all: try (destruct (create_dataview_fails (faults w)); cbn; [|done]).
  all: destruct (pending w); cbn; done.
Qed.

(** X19. Memory safety of the binding.  After any sequence of operations,
    every operation runs to its return: no released block is read, written
    or freed again, no block is read as something it is not, and no write
    leaves its buffer, whatever the arguments are and whatever the host
    fails to provide.  The one exception is an external of another native
    module passed as the handle, whose pointer [update] and [digest] would
    use as a context. *)
Theorem operations_are_defined ops w o :
  run ops initial_world = Some w →
  native_handles o w →
  is_Some (step o w).
Proof.
  intros Hr Hk.
  pose proof (run_handles_safe ops _ _ Hr lifecycle_initial handles_safe_initial)
    as Hw.
  destruct o as [f info|i|fl|b]; [|by apply collect_defined|done|].
  2: { simpl. unfold foreign_external. prims. cbn.
       by destruct (create_external_fails (faults w)). }
  simpl. apply fmap_is_Some.
  destruct (takes_handle f) eqn:Hf.
  2: { destruct f; try done; simpl;
         eauto using new_hash_external_defined, hmac_sha256_new_defined. }
  apply handle_call_cases; [done|].
  intros e p v -> Hres. pose proof Hres as Hres'. unfold resolve in Hres.
  destruct (externals w !! e) as [x|] eqn:He; [|done].
  destruct (ext_collected x) eqn:Hc; [done|]. simplify_eq.
  specialize (Hk Hf e x eq_refl He Hc).
  destruct (Hw e x He Hc Hk) as ([o r] & Hb & Hrel & Hctx).
  simpl in *. subst r.
  destruct (update_defined w e _ o _ v Hres' Hb Hctx).
  destruct (digest_defined w e _ o _ v Hres' Hb Hctx).
  by destruct f.
Qed.

End SafetyLaws.

End Safety.

(** * The stand-in provider and sample runs *)

Lemma pad_to_length (n : Z) (l : list byte) :
  (0 ≤ n)%Z → Z.of_nat (length (pad_to n l)) = n.
Proof.
  intros Hn. unfold pad_to.
  rewrite length_take, length_app, length_replicate. lia.
Qed.

Lemma prefix_provider_laws : cal_provider_laws prefix_provider.
Proof.
  split; simpl.
  - intros _ s x y. by rewrite app_assoc.
  - intros a s. apply pad_to_length. by destruct a.
  - intros s x y. by rewrite app_assoc.
  - intros s. by apply pad_to_length.
Qed.

(** C1 at work: after [hmac_sha256_new "key"] succeeds, the buffer that
    carried the key still reads "key" and is not released. *)
Lemma hmac_sha256_new_leaves_secret_witness :
  ∃ c w',
    js_call hmac_sha256_new [js_string demo_secret] initial_world = Some (c, w') ∧
    heap w' !! length (heap initial_world) =
      Some {| contents := obj_bytes demo_secret;
              released := alg_new_fails (faults initial_world) |}.
Proof.
  apply (hmac_sha256_new_leaves_secret initial_world (js_string demo_secret)
           demo_secret); reflexivity.
Defined.

(** C2 at work: [hash_digest(h, undefined)] emits 16 bytes,
    [hmac_digest(h, undefined)] throws. *)
Lemma digest_absent_truncate_to_witness :
  (∃ d w',
     js_call hash_digest [js_external 0; js_undefined] demo_world
       = Some (Returns d, w') ∧
     dataview_bytes w' d = Some (hash_digest_of demo_hash) ∧
     size_of (hash_digest_of demo_hash) = aws_hash_digest_size demo_hash) ∧
  (∃ w',
     js_call hmac_digest [js_external 1; js_undefined] demo_world
       = Some (Throws (TypeError
                 "truncate_to argument must be undefined or a positive number"),
               w') ∧
     heap w' = heap demo_world).
Proof.
  destruct (@digest_absent_truncate_to prefix_provider prefix_provider_laws
              demo_world js_undefined) as [H1 H2]; [by repeat split..|].
  split; [apply (H1 0 0 demo_hash)|apply (H2 1 2 demo_hmac)];
    by repeat split.
Defined.

(** C3 at work: [hmac_digest(h, 16)] emits the 32 bytes of the digest. *)
Lemma hmac_digest_ignores_truncate_to_witness :
  ∃ d w',
    js_call hmac_digest [js_external 1; js_number 16] demo_world
      = Some (Returns d, w') ∧
    dataview_bytes w' d = Some (hmac_digest_of demo_hmac) ∧
    dataview_bytes w' d ≠ Some (take (Z.to_nat 16) (hmac_digest_of demo_hmac)).
Proof.
  apply (@hmac_digest_ignores_truncate_to prefix_provider prefix_provider_laws
           demo_world 1 2 demo_hmac 16);
    by repeat split.
Defined.

(** C4 at work: with no memory for a context, the three constructors return
    [undefined]. *)
Lemma create_silent_on_init_failure_witness :
  let w := set_faults no_context_left initial_world in
  (∃ w', js_call hash_md5_new [] w = Some (Returns js_undefined, w')) ∧
  (∃ w', js_call hash_sha256_new [] w = Some (Returns js_undefined, w')) ∧
  (∃ w', js_call hmac_sha256_new [js_string demo_secret] w
           = Some (Returns js_undefined, w')).
Proof.
  apply (create_silent_on_init_failure
           (set_faults no_context_left initial_world)
           (js_string demo_secret) demo_secret); reflexivity.
Defined.

(** C5 at work, on both of its parts. *)
Lemma failed_create_not_rolled_back_witness :
  (∃ w' h,
     js_call hash_md5_new [] (set_faults no_externals_left initial_world)
       = Some (Throws (Error "Failed create n-api external"), w') ∧
     heap w' !! 0 = Some {| contents := obj_hash h; released := false |} ∧
     externals w' = [] ∧ destroyed w' = []) ∧
  (∃ w',
     js_call hmac_sha256_new [js_string demo_secret]
         (set_faults no_context_left initial_world)
       = Some (Returns js_undefined, w') ∧
     heap w' !! 0 = Some {| contents := obj_bytes demo_secret; released := true |}).
Proof.
  split.
  - apply (failed_create_not_rolled_back
             (set_faults no_externals_left initial_world)
             (js_string demo_secret) demo_secret);
      try reflexivity.
    by left.
  - apply (failed_create_not_rolled_back
             (set_faults no_context_left initial_world)
             (js_string demo_secret) demo_secret);
      reflexivity.
Defined.

(** C6 at work, on the two contexts of [consumed_world]. *)
Lemma consumed_context_calls_witness :
  (∃ w', js_call hash_update [js_external 0; js_string demo_secret]
             consumed_world
           = Some (Throws (AwsError AWS_ERROR_INVALID_STATE), w')) ∧
  (∃ w', js_call hmac_digest [js_external 1; js_undefined] consumed_world
           = Some (Throws (TypeError
                     "truncate_to argument must be undefined or a positive number"),
                   w')).
Proof.
  destruct (consumed_context_calls consumed_world) as [H1 H2];
    [by repeat split|].
  destruct (H1 0 0 (hash_done demo_hash) (js_string demo_secret) demo_secret
              js_undefined None) as [(w1 & Hc1 & _) _]; [by repeat split..|].
  destruct (H2 1 2 (hmac_done demo_hmac) (js_string demo_secret) demo_secret
              32%Z js_undefined) as (_ & _ & (w2 & Hc2 & _));
    [by repeat split..|].
  eauto.
Defined.

(** C7 at work: "ke" then "y" against "key". *)
Lemma incremental_update_is_concatenation_witness :
  digest_after fn_hash_update fn_hash_digest 0
      [js_string [x6b; x65]; js_string [x79]] js_undefined demo_world
    = digest_after fn_hash_update fn_hash_digest 0
        [js_string demo_secret] js_undefined demo_world ∧
  digest_after fn_hmac_update fn_hmac_digest 1
      [js_string [x6b; x65]; js_string [x79]] (js_number 32) demo_world
    = digest_after fn_hmac_update fn_hmac_digest 1
        [js_string demo_secret] (js_number 32) demo_world.
Proof.
  destruct (@incremental_update_is_concatenation
              prefix_provider prefix_provider_laws demo_world
              (js_string [x6b; x65]) (js_string [x79]) (js_string demo_secret)
              [x6b; x65] [x79]) as [H1 H2]; [by repeat split..|].
  split.
  - apply (H1 0 0 demo_hash js_undefined None); by repeat split.
  - apply (H2 1 2 demo_hmac 32%Z); by repeat split.
Defined.

(** C8 at work: [hash_digest(h, 0)] throws, [hmac_digest(h, 0)] emits the
    whole digest. *)
Lemma digest_truncate_to_zero_witness :
  (∃ w',
     js_call hash_digest [js_external 0; js_number 0] demo_world
       = Some (Throws (AwsError AWS_ERROR_SHORT_BUFFER), w')) ∧
  (∃ d w',
     js_call hmac_digest [js_external 1; js_number 0] demo_world
       = Some (Returns d, w') ∧
     dataview_bytes w' d = Some (hmac_digest_of demo_hmac) ∧
     hmac_digest_of demo_hmac ≠ []).
Proof.
  destruct (@digest_truncate_to_zero prefix_provider prefix_provider_laws
              demo_world) as [H1 H2]; [by repeat split|].
  split; [apply (H1 0 0 demo_hash)|apply (H2 1 2 demo_hmac)];
    by repeat split.
Defined.

(** C9 at work.  After [demo_ops] no context was destroyed twice, and
    reclaiming the hash handle destroys its context once and for all.  On a
    host with no room for another external, [hmac_sha256_new "key"] destroys
    the context it made, once and for all, while the context [hash_md5_new]
    made, at address 0, stays live without a handle and is never
    destroyed. *)
Lemma unregistered_hash_context_is_never_destroyed_witness :
  (∀ p, destroy_count demo_world p ≤ 1) ∧
  (∃ w1, step (op_collect 0) demo_world = Some w1 ∧
     ∀ more w2, run more w1 = Some w2 → destroy_count w2 0 = 1) ∧
  (∃ w1, step (op_call fn_hmac_sha256_new [js_string demo_secret])
           (set_faults no_externals_left initial_world) = Some w1 ∧
     ∀ more w2, run more w1 = Some w2 → destroy_count w2 1 = 1) ∧
  (∃ w1, step (op_call fn_hash_md5_new [])
           (set_faults no_externals_left initial_world) = Some w1 ∧
     ∀ more w2, run more w1 = Some w2 →
       (∃ h, heap w2 !! 0 =
               Some {| contents := obj_hash h; released := false |}) ∧
       (∀ i e, externals w2 !! i = Some e → ext_data e ≠ 0) ∧
       destroy_count w2 0 = 0).
Proof.
  destruct (unregistered_hash_context_is_never_destroyed demo_ops demo_world
              eq_refl) as (H1 & H2 & _ & _).
  destruct (unregistered_hash_context_is_never_destroyed
              [op_faults no_externals_left]
              (set_faults no_externals_left initial_world) eq_refl)
    as (_ & _ & H3 & H4).
  split_and!.
  - exact H1.
  - destruct (H2 0 {| ext_data := 0; ext_finalize_cb := cb_hash_finalize;
                      ext_collected := false |} eq_refl eq_refl) as [_ H];
      [done|exact H].
  - apply (H3 (js_string demo_secret) demo_secret); reflexivity.
  - apply (H4 fn_hash_md5_new []); [by left|reflexivity..].
Defined.

(** C10 at work: [hmac_digest(h, 5)] on the demo context. *)
Lemma hmac_digest_skips_truncation_witness :
  ∃ d w',
    js_call hmac_digest [js_external 1; js_number 5] demo_world
      = Some (Returns d, w') ∧
    dataview_bytes w' d = Some (hmac_digest_of demo_hmac) ∧
    size_of (hmac_digest_of demo_hmac) = aws_hmac_digest_size demo_hmac.
Proof.
  apply (@hmac_digest_skips_truncation prefix_provider prefix_provider_laws
           demo_world 1 2 demo_hmac 5);
    by repeat split.
Defined.

(** ** The further properties at work *)

(** X1 at work: calls without arguments. *)
Lemma wrong_argument_count_witness :
  (rejects hash_update [] initial_world
     (Error "hash_update needs exactly 2 arguments") ∧
   rejects hash_digest [] initial_world
     (Error "hash_digest needs exactly 2 arguments") ∧
   rejects hmac_update [] initial_world
     (Error "hmac_update needs exactly 2 arguments") ∧
   rejects hmac_digest [] initial_world
     (Error "hmac_digest needs exactly 2 arguments")) ∧
  rejects hmac_sha256_new [] initial_world
    (Error "hmac_sha256_new needs exactly 1 argument").
Proof.
  destruct (wrong_argument_count initial_world []) as [H1 H2];
    [reflexivity..|].
  split; [apply H1|apply H2]; simpl; lia.
Defined.

(** X2 at work: [hash_digest] when the arguments cannot be retrieved. *)
Lemma callback_info_unavailable_witness :
  rejects hash_digest [js_external 0; js_undefined]
    (set_faults no_callback_info demo_world)
    (Error "Failed to retreive callback information").
Proof.
  apply (callback_info_unavailable (set_faults no_callback_info demo_world)
           [js_external 0; js_undefined]);
    [reflexivity|reflexivity|].
  right. by left.
Defined.

(** X3 at work: a number where the handle is expected. *)
Lemma first_argument_not_a_handle_witness :
  rejects hash_update [js_number 7; js_undefined] initial_world
    (Error "Failed to extract hash from first argument") ∧
  rejects hash_digest [js_number 7; js_undefined] initial_world
    (Error "Failed to extract hash from first argument") ∧
  rejects hmac_update [js_number 7; js_undefined] initial_world
    (Error "Failed to extract hmac from first argument") ∧
  rejects hmac_digest [js_number 7; js_undefined] initial_world
    (Error "Failed to extract hmac from first argument").
Proof.
  apply (first_argument_not_a_handle initial_world (js_number 7) js_undefined);
    [reflexivity|reflexivity|done].
Defined.

(** X4 at work: a number where the data is expected. *)
Lemma data_not_bytes_witness :
  (rejects hash_update [js_external 0; js_number 7] demo_world
     (TypeError "to_hash argument must be a string or array") ∧
   rejects hmac_update [js_external 0; js_number 7] demo_world
     (TypeError "to_hmac argument must be a string or array")) ∧
  rejects hmac_sha256_new [js_number 7] demo_world
    (TypeError "secret argument must be a string or array").
Proof.
  destruct (data_not_bytes demo_world 0 0 (js_number 7)) as [H1 H2];
    [reflexivity..|].
  split; [apply H1; reflexivity|exact H2].
Defined.

(** X5 at work: a string as [truncate_to]. *)
Lemma hash_digest_truncate_to_not_a_number_witness :
  rejects hash_digest [js_external 0; js_string demo_secret] demo_world
    (TypeError "truncate_to argument must be undefined or a positive number").
Proof.
  apply (hash_digest_truncate_to_not_a_number demo_world 0 0 demo_hash
           (js_string demo_secret));
    reflexivity.
Defined.

(** X6 at work: the first MD5 hash of a script. *)
Lemma hash_constructors_register_witness :
  ∃ w',
    js_call hash_md5_new [] initial_world
      = Some (Returns (js_external 0), w') ∧
    hash_handle w' 0 0 (fresh_hash MD5) ∧
    externals w' =
      [{| ext_data := 0; ext_finalize_cb := cb_hash_finalize;
          ext_collected := false |}] ∧
    destroyed w' = [].
Proof.
  apply (hash_constructors_register initial_world [] eq_refl eq_refl eq_refl
           hash_md5_new MD5).
  by left.
Defined.

(** X7 at work: the first HMAC of a script. *)
Lemma hmac_constructor_registers_witness :
  ∃ w',
    js_call hmac_sha256_new [js_string demo_secret] initial_world
      = Some (Returns (js_external 0), w') ∧
    hmac_handle w' 0 1 (fresh_hmac demo_secret) ∧
    externals w' =
      [{| ext_data := 1; ext_finalize_cb := cb_hmac_finalize;
          ext_collected := false |}] ∧
    destroyed w' = [] ∧
    length (heap w') = 2.
Proof.
  apply (hmac_constructor_registers initial_world (js_string demo_secret)
           demo_secret);
    reflexivity.
Defined.

(** X8 at work: an update of the demo hash. *)
Lemma update_and_digest_keep_handles_witness :
  ∃ c w',
    js_call (callback_body fn_hash_update)
        [js_external 0; js_string demo_secret] demo_world = Some (c, w') ∧
    externals w' = externals demo_world ∧
    destroyed w' = destroyed demo_world ∧
    length (heap demo_world) ≤ length (heap w').
Proof.
  eexists _, _. split; [reflexivity|].
  eapply (update_and_digest_keep_handles fn_hash_update
            [js_external 0; js_string demo_secret] demo_world);
    [by left|reflexivity].
Defined.

(** X9 at work: updates of the two demo contexts with "key". *)
Lemma update_footprint_witness :
  (∃ c w',
     js_call hash_update [js_external 0; js_string demo_secret] demo_world
       = Some (c, w') ∧
     length (heap w') = S (length (heap demo_world)) ∧
     heap w' !! length (heap demo_world) =
       Some {| contents := obj_bytes demo_secret; released := true |} ∧
     same_blocks_but 0 demo_world w') ∧
  (∃ c w',
     js_call hmac_update [js_external 1; js_string demo_secret] demo_world
       = Some (c, w') ∧
     length (heap w') = S (length (heap demo_world)) ∧
     heap w' !! length (heap demo_world) =
       Some {| contents := obj_bytes demo_secret; released := true |} ∧
     same_blocks_but 2 demo_world w').
Proof.
  split.
  - destruct (update_footprint demo_world 0 0 (js_string demo_secret)
                demo_secret) as [H _]; [reflexivity..|].
    apply (H demo_hash). reflexivity.
  - destruct (update_footprint demo_world 1 2 (js_string demo_secret)
                demo_secret) as [_ H]; [reflexivity..|].
    apply (H demo_hmac). reflexivity.
Defined.

(** X10 at work: both digests with no room for the output. *)
Lemma digest_without_arraybuffer_witness :
  rejects hash_digest [js_external 0; js_undefined]
    (set_faults no_arraybuffer_left demo_world)
    (Error "Failed to create output arraybuffer") ∧
  rejects hmac_digest [js_external 1; js_number 32]
    (set_faults no_arraybuffer_left demo_world)
    (Error "Failed to create output arraybuffer").
Proof.
  split.
  - destruct (digest_without_arraybuffer
                (set_faults no_arraybuffer_left demo_world) 0 0) as [H _];
      [reflexivity..|].
    apply (H demo_hash js_undefined None); reflexivity.
  - destruct (digest_without_arraybuffer
                (set_faults no_arraybuffer_left demo_world) 1 2) as [_ H];
      [reflexivity..|].
    apply (H demo_hmac (js_number 32)); reflexivity.
Defined.

(** X11 at work: both digests when the view cannot be created. *)
Lemma digest_without_dataview_witness :
  (∃ w',
     js_call hash_digest [js_external 0; js_undefined]
         (set_faults no_dataview_left demo_world)
       = Some (Throws (Error "Failed to create output dataview"), w') ∧
     heap w' !! 0 =
       Some {| contents := obj_hash (hash_done demo_hash); released := false |}) ∧
  (∃ w',
     js_call hmac_digest [js_external 1; js_number 32]
         (set_faults no_dataview_left demo_world)
       = Some (Throws (Error "Failed to create output dataview"), w') ∧
     heap w' !! 2 =
       Some {| contents := obj_hmac (hmac_done demo_hmac); released := false |}).
Proof.
  split.
  - destruct (@digest_without_dataview prefix_provider prefix_provider_laws
                (set_faults no_dataview_left demo_world) 0 0) as [H _];
      [reflexivity..|].
    apply (H demo_hash js_undefined None); by repeat split.
  - destruct (@digest_without_dataview prefix_provider prefix_provider_laws
                (set_faults no_dataview_left demo_world) 1 2) as [_ H];
      [reflexivity..|].
    apply (H demo_hmac 32%Z); by repeat split.
Defined.

(** X12 at work: the digests of the two demo contexts. *)
Lemma digest_footprint_witness :
  (∃ w',
     js_call hash_digest [js_external 0; js_number 4] demo_world
       = Some (Returns (js_dataview (length (heap demo_world)) 0 4), w') ∧
     length (heap w') = S (length (heap demo_world)) ∧
     same_blocks_but 0 demo_world w') ∧
  (∃ w',
     js_call hmac_digest [js_external 1; js_number 4] demo_world
       = Some (Returns (js_dataview (length (heap demo_world)) 0 32), w') ∧
     length (heap w') = S (length (heap demo_world)) ∧
     same_blocks_but 2 demo_world w').
Proof.
  split.
  - destruct (@digest_footprint prefix_provider prefix_provider_laws
                demo_world 0 0) as [H _]; [by repeat split|].
    apply (H demo_hash (js_number 4) (Some 4%Z)); by repeat split.
  - destruct (@digest_footprint prefix_provider prefix_provider_laws
                demo_world 1 2) as [_ H]; [by repeat split|].
    apply (H demo_hmac 4%Z); by repeat split.
Defined.

(** X13 at work: the demo hash after its digest was taken. *)
Lemma hash_digest_only_once_witness :
  ∃ view w1,
    js_call hash_digest [js_external 0; js_undefined] demo_world
      = Some (Returns view, w1) ∧
    (∃ w2, js_call hash_digest [js_external 0; js_number 4] w1
             = Some (Throws (AwsError AWS_ERROR_INVALID_STATE), w2)) ∧
    (∃ w2, js_call hash_update [js_external 0; js_string demo_secret] w1
             = Some (Throws (AwsError AWS_ERROR_INVALID_STATE), w2)).
Proof.
  apply (@hash_digest_only_once prefix_provider prefix_provider_laws
           demo_world 0 0 demo_hash js_undefined None (js_number 4) (Some 4%Z)
           (js_string demo_secret) demo_secret);
    by repeat split.
Defined.

(** X14 at work: the MD5 digest of the empty message. *)
Lemma digest_of_fresh_hash_witness :
  ∃ e w1,
    js_call hash_md5_new [] initial_world = Some (Returns (js_external e), w1) ∧
    emitted (js_call hash_digest [js_external e; js_undefined] w1)
      = Some (hash_emit MD5 (hash_init MD5)) ∧
    size_of (hash_emit MD5 (hash_init MD5)) = alg_digest_size MD5.
Proof.
  apply (@digest_of_fresh_hash prefix_provider prefix_provider_laws
           initial_world eq_refl eq_refl hash_md5_new MD5).
  by left.
Defined.

(** X15 at work: "ke" then "y" against "key", with the emitted bytes. *)
Lemma chunked_updates_are_one_update_witness :
  (digest_after fn_hash_update fn_hash_digest 0
       [js_string [x6b; x65]; js_string [x79]] js_undefined demo_world
     = digest_after fn_hash_update fn_hash_digest 0
         [js_string demo_secret] js_undefined demo_world ∧
   digest_after fn_hash_update fn_hash_digest 0
       [js_string demo_secret] js_undefined demo_world
     = Some (take (Z.to_nat 16)
               (hash_digest_of (hash_fed demo_hash demo_secret)))) ∧
  (digest_after fn_hmac_update fn_hmac_digest 1
       [js_string [x6b; x65]; js_string [x79]] (js_number 32) demo_world
     = digest_after fn_hmac_update fn_hmac_digest 1
         [js_string demo_secret] (js_number 32) demo_world ∧
   digest_after fn_hmac_update fn_hmac_digest 1
       [js_string demo_secret] (js_number 32) demo_world
     = Some (hmac_digest_of (hmac_fed demo_hmac demo_secret))).
Proof.
  destruct (@chunked_updates_are_one_update prefix_provider prefix_provider_laws
              demo_world [js_string [x6b; x65]; js_string [x79]]
              [[x6b; x65]; [x79]] (js_string demo_secret)) as [H1 H2];
    [by repeat split|done|by repeat constructor|reflexivity|].
  split.
  - apply (H1 0 0 demo_hash js_undefined None); by repeat split.
  - apply (H2 1 2 demo_hmac 32%Z); by repeat split.
Defined.

(** X16 at work: [hash_digest(h, 5)] on the demo context. *)
Lemma hash_digest_truncates_witness :
  ∃ d w',
    js_call hash_digest [js_external 0; js_number 5] demo_world
      = Some (Returns d, w') ∧
    dataview_bytes w' d = Some (take (Z.to_nat 5) (hash_digest_of demo_hash)) ∧
    size_of (take (Z.to_nat 5) (hash_digest_of demo_hash))
      = (aws_hash_digest_size demo_hash `min` 5)%Z.
Proof.
  apply (@hash_digest_truncates prefix_provider prefix_provider_laws
           demo_world 0 0 demo_hash 5);
    by repeat split.
Defined.

(** X17 at work: [hmac_sha256_new "key"] with no room for the handle. *)
Lemma hmac_sha256_new_erases_on_registration_failure_witness :
  ∃ w',
    js_call hmac_sha256_new [js_string demo_secret]
        (set_faults no_externals_left initial_world)
      = Some (Throws (Error "Failed create n-api external"), w') ∧
    heap w' !! 0 =
      Some {| contents := obj_bytes (replicate 3 x00); released := true |} ∧
    (∃ h, heap w' !! 1 = Some {| contents := obj_hmac h; released := true |}) ∧
    destroyed w' = [1] ∧
    externals w' = [].
Proof.
  apply (hmac_sha256_new_erases_on_registration_failure
           (set_faults no_externals_left initial_world)
           (js_string demo_secret) demo_secret);
    reflexivity.
Defined.

(** X18 at work: the two handles of the demo script. *)
Lemma live_handles_lead_to_live_contexts_witness :
  (∃ h, hash_handle demo_world 0 0 h) ∧ (∃ h, hmac_handle demo_world 1 2 h).
Proof.
  split.
  - apply (live_handles_lead_to_live_contexts demo_ops demo_world 0
             {| ext_data := 0; ext_finalize_cb := cb_hash_finalize;
                ext_collected := false |});
      reflexivity.
  - apply (live_handles_lead_to_live_contexts demo_ops demo_world 1
             {| ext_data := 2; ext_finalize_cb := cb_hmac_finalize;
                ext_collected := false |});
      reflexivity.
Defined.

(** X19 at work: the HMAC handle of the demo script given to [hash_digest],
    and the collection of its hash handle. *)
Lemma operations_are_defined_witness :
  is_Some (step (op_call fn_hash_digest [js_external 1; js_number 4])
             demo_world) ∧
  is_Some (step (op_collect 0) demo_world).
Proof.
  split;
    apply (@operations_are_defined prefix_provider prefix_provider_laws
             demo_ops);
    try reflexivity.
  intros _ i e [= <-] [= <-] _. done.
Defined.

(** X20 at work: [hash_digest(h, undefined)] on the HMAC handle of the demo
    script emits the 32 bytes of its HMAC; [hmac_digest(h, 16)] on its hash
    handle emits the 16 bytes of the MD5 digest. *)
Lemma handle_of_the_other_engine_witness :
  (∃ d w',
     js_call hash_digest [js_external 1; js_undefined] demo_world
       = Some (Returns d, w') ∧
     dataview_bytes w' d = Some (take (Z.to_nat 32) (hmac_digest_of demo_hmac)) ∧
     heap w' !! 2 =
       Some {| contents := obj_hmac (hmac_done demo_hmac); released := false |}) ∧
  (∃ d w',
     js_call hmac_digest [js_external 0; js_number 16] demo_world
       = Some (Returns d, w') ∧
     dataview_bytes w' d = Some (hash_digest_of demo_hash) ∧
     heap w' !! 0 =
       Some {| contents := obj_hash (hash_done demo_hash); released := false |}).
Proof.
  split.
  - destruct (@handle_of_the_other_engine prefix_provider prefix_provider_laws
                demo_world 1 2) as [H _]; [by repeat split|].
    destruct (H demo_hmac) as [Hd _]; [by repeat split..|].
    apply (Hd js_undefined None); reflexivity.
  - destruct (@handle_of_the_other_engine prefix_provider prefix_provider_laws
                demo_world 0 0) as [_ H]; [by repeat split|].
    destruct (H demo_hash) as [Hd _]; [by repeat split..|].
    apply (Hd 16%Z).
Defined.
